(** * Spoditor: the annotation interpretation and mutation pipeline

    A shallow embedding of the Go sources of the StatefulSet pod mutation
    webhook: the pod identity extractor, the qualified annotation
    collector, the ordinal qualifier matcher, the host-port and volume
    handlers and the handler pipeline, followed by the properties the
    specification states about them.

    Go values are modelled as follows.
    - [string] is a Go string, a sequence of bytes ([ascii]).
    - [int] is a 64-bit signed integer carried by [Z]; [int32] is carried by
      [Z] as well, with the wrap-around written out ([GoInt.wrap]).
    - a slice is a [list]: the slices of a pod specification share no
      backing array with one another, as in a pod decoded from a request;
      a Go map that is only inserted into and looked up is a [gmap]; a Go
      map that is ranged over is visited in an explicit iteration order,
      because Go leaves that order unspecified.
    - a run-time panic is the [Panic] outcome of the [outcome] monad.

    The repository holds two source files for the pod identity extractor
    and three for the webhook; where they differ, each one has a module
    of its own: [Identifier] and [IdentifierUnanchored], [Webhook] (the
    two files that define [applyHandlers]) and [WebhookInternal].  The
    host-port handler is the one of package [ports] that skips the
    ports without host port at the head of its loop; the version that
    tests the host port inside the search is [PortModifierHandler].

    The last part, [Further properties of the code], holds what the code
    shows beyond the specification: the one-sided bounds of the matcher,
    what the collector and the parsers do not depend on, the pipeline
    from the label to the mutation, and what [Mutate] keeps, sets and
    does when it is applied twice.  The closed form of [Mutate] obtained
    there also gives the property of a port that is declared more than
    once, at the end of the file. *)

From Stdlib Require Import ZArith Lia Ascii List Bool.
From stdpp Require Import base decidable option list gmap strings.

Local Open Scope Z_scope.

(** ** Outcomes of Go code that may panic *)

Inductive outcome (A : Type) : Type :=
| Ret (a : A)
| Panic (msg : string).
Arguments Ret {A} a.
Arguments Panic {A} msg.

Global Instance outcome_bind : MBind outcome := λ A B k m,
  match m with
  | Ret a => k a
  | Panic e => Panic e
  end.

(** The index expression [l[i]] on a slice. *)
Definition index {A : Type} (l : list A) (i : nat) : outcome A :=
  match l !! i with
  | Some a => Ret a
  | None => Panic "index out of range"
  end.

(** Go [error] values: [errors.New] and [fmt.Errorf] without and with a
    wrapped error. *)
Inductive error : Type :=
| errorString (msg : string)
| wrapError (msg : string) (inner : error).

(** ** Machine integers *)

Module GoInt.

(** [int] is 64 bits wide on the platforms the webhook is built for. *)
Definition intSize : Z := 64.
Definition MaxInt : Z := 2 ^ (intSize - 1) - 1.
Definition MinInt : Z := - 2 ^ (intSize - 1).
Definition MaxUint64 : Z := 2 ^ 64 - 1.

(** Two's complement conversion to a signed integer of [w] bits. *)
Definition wrap (w : Z) (z : Z) : Z :=
  (z + 2 ^ (w - 1)) mod 2 ^ w - 2 ^ (w - 1).

Definition int (z : Z) : Z := wrap intSize z.
Definition int32 (z : Z) : Z := wrap 32 z.
Definition int64 (z : Z) : Z := wrap 64 z.

End GoInt.

(** ** Byte strings: package [strings] and slice expressions *)

Module Strings.

Definition len (s : string) : Z := Z.of_nat (String.length s).

Fixpoint drop (n : nat) (s : string) : string :=
  match n, s with
  | O, _ => s
  | S n', String _ s' => drop n' s'
  | S _, EmptyString => EmptyString
  end.

Fixpoint take (n : nat) (s : string) : string :=
  match n, s with
  | O, _ => EmptyString
  | S n', String c s' => String c (take n' s')
  | S _, EmptyString => EmptyString
  end.

(** The slice expressions [s[lo:]] and [s[:hi]]; out of range indices
    are a run-time panic. *)
Definition slice_from (s : string) (lo : Z) : outcome string :=
  if (0 <=? lo) && (lo <=? len s) then Ret (drop (Z.to_nat lo) s)
  else Panic "slice bounds out of range".

Definition slice_to (s : string) (hi : Z) : outcome string :=
  if (0 <=? hi) && (hi <=? len s) then Ret (take (Z.to_nat hi) s)
  else Panic "slice bounds out of range".

(** [strings.HasPrefix] *)
Fixpoint HasPrefix (s prefix : string) {struct prefix} : bool :=
  match prefix, s with
  | EmptyString, _ => true
  | String p prefix', String c s' =>
      if decide (c = p) then HasPrefix s' prefix' else false
  | String _ _, EmptyString => false
  end.

(** [strings.HasSuffix]: [len(s) >= len(suffix) &&
    s[len(s)-len(suffix):] == suffix] *)
Definition HasSuffix (s suffix : string) : bool :=
  (len suffix <=? len s)
  && bool_decide (drop (String.length s - String.length suffix) s = suffix).

(** [strings.TrimPrefix] *)
Definition TrimPrefix (s prefix : string) : string :=
  if HasPrefix s prefix then drop (String.length prefix) s else s.

(** [strings.TrimSuffix] *)
Definition TrimSuffix (s suffix : string) : string :=
  if HasSuffix s suffix
  then take (String.length s - String.length suffix) s else s.

(** [strings.LastIndex]: the index of the last instance of [substr] in
    [s], or -1 when there is none. *)
Fixpoint LastIndex (s substr : string) : Z :=
  match s with
  | EmptyString => if decide (substr = EmptyString) then 0 else -1
  | String _ s' =>
      let r := LastIndex s' substr in
      if 0 <=? r then r + 1
      else if HasPrefix s substr then 0 else -1
  end.

(** [strings.Split] for a separator that is not empty: the substrings
    between the instances of [sep], found from left to right.  [skip]
    counts the bytes of a separator instance still to be passed over,
    [cur] holds the bytes of the current piece, last byte first. *)
Fixpoint split_go (sep : string) (s : string) (skip : nat) (cur : string)
  : list string :=
  match s with
  | EmptyString => [String.rev cur]
  | String c s' =>
      match skip with
      | S k => split_go sep s' k cur
      | O =>
          if HasPrefix s sep
          then String.rev cur
                 :: split_go sep s' (String.length sep - 1) EmptyString
          else split_go sep s' O (String c cur)
      end
  end.

(** With an empty separator Go splits after each UTF-8 sequence; the
    webhook never does that, the case is kept bytewise. *)
Fixpoint explode (s : string) : list string :=
  match s with
  | EmptyString => []
  | String c s' => String c EmptyString :: explode s'
  end.

Definition Split (s sep : string) : list string :=
  if decide (sep = EmptyString) then explode s
  else split_go sep s O EmptyString.

End Strings.

(** ** Package [strconv] *)

Module Strconv.

Inductive NumError : Type := ErrSyntax | ErrRange.

Definition is_digit (c : ascii) : bool :=
  (48 <=? Z.of_N (N_of_ascii c)) && (Z.of_N (N_of_ascii c) <=? 57).

Definition digit_value (c : ascii) : Z := Z.of_N (N_of_ascii c) - 48.

Definition digit_char (d : Z) : ascii := ascii_of_N (Z.to_N (d + 48)).

(** [ParseUint(s, 10, 64)] after the check for the empty string: every
    byte must be a decimal digit; a value beyond [MaxUint64] is reported
    as soon as it is reached, with the largest value as result. *)
Fixpoint parseUint_loop (s : string) (n : Z) : Z * option NumError :=
  match s with
  | EmptyString => (n, None)
  | String c s' =>
      if is_digit c then
        if GoInt.MaxUint64 / 10 + 1 <=? n then (GoInt.MaxUint64, Some ErrRange)
        else
          let n1 := n * 10 + digit_value c in
          if GoInt.MaxUint64 <? n1 then (GoInt.MaxUint64, Some ErrRange)
          else parseUint_loop s' n1
      else (0, Some ErrSyntax)
  end.

Definition ParseUint (s : string) : Z * option NumError :=
  match s with
  | EmptyString => (0, Some ErrSyntax)
  | _ => parseUint_loop s 0
  end.

(** [ParseInt(s, 10, 0)]: an optional sign, then [ParseUint]; a syntax
    error gives 0, a magnitude beyond the range of [int] gives the
    nearest bound together with [ErrRange]. *)
Definition ParseInt (s : string) : Z * option NumError :=
  match s with
  | EmptyString => (0, Some ErrSyntax)
  | String c s' =>
      let neg := bool_decide (c = "-"%char) in
      let body :=
        if bool_decide (c = "+"%char) || neg then s' else s in
      let '(un, err) := ParseUint body in
      match err with
      | Some ErrSyntax => (0, Some ErrSyntax)
      | _ =>
          let cutoff := 2 ^ (GoInt.intSize - 1) in
          if negb neg && (cutoff <=? un) then (cutoff - 1, Some ErrRange)
          else if neg && (cutoff <? un) then (- cutoff, Some ErrRange)
          else (if neg then - un else un, None)
      end
  end.

(** [strconv.Atoi]; its short-string fast path computes the same result
    as [ParseInt] and is not modelled apart. *)
Definition Atoi (s : string) : Z * option NumError := ParseInt s.

(** [formatBits] in base 10: the digits are produced from the least
    significant one and written in front of what is already there. *)
Fixpoint formatBits (fuel : nat) (u : Z) (a : string) : string :=
  match fuel with
  | O => a
  | S f =>
      if u <? 10 then String (digit_char u) a
      else formatBits f (u / 10) (String (digit_char (u mod 10)) a)
  end.

Definition format_uint (u : Z) : string :=
  formatBits (S (Z.to_nat (Z.log2 u))) u EmptyString.

(** [strconv.Itoa] *)
Definition Itoa (i : Z) : string :=
  if i <? 0 then String "-"%char (format_uint (- i)) else format_uint i.

End Strconv.

(** ** Package [regexp]

    Regular expressions over bytes.  The patterns of the webhook use
    ASCII classes, [.], [+], concatenation and the anchors [^] and [$]
    only; on these a byte-wise reading agrees with Go's reading by runes,
    since no byte of a multi-byte sequence is an ASCII byte. *)

Module Regexp.

Inductive regex : Type :=
| Void
| Eps
| Class (p : ascii → bool)
| Cat (r1 r2 : regex)
| Alt (r1 r2 : regex)
| Star (r : regex).

(** [r+] *)
Definition Plus (r : regex) : regex := Cat r (Star r).
(** a literal byte *)
Definition Lit (c : ascii) : regex := Class (λ x, bool_decide (x = c)).
(** [\d], ASCII digits only *)
Definition digit : regex := Class Strconv.is_digit.
(** [.] without the [s] flag: any byte but the line feed *)
Definition dot : regex := Class (λ x, negb (bool_decide (x = "010"%char))).
Definition any_byte : regex := Class (λ _, true).

Fixpoint nullable (r : regex) : bool :=
  match r with
  | Void => false
  | Eps => true
  | Class _ => false
  | Cat r1 r2 => nullable r1 && nullable r2
  | Alt r1 r2 => nullable r1 || nullable r2
  | Star _ => true
  end.

(** The derivative of [r] by the byte [c]. *)
Fixpoint deriv (c : ascii) (r : regex) : regex :=
  match r with
  | Void => Void
  | Eps => Void
  | Class p => if p c then Eps else Void
  | Cat r1 r2 =>
      if nullable r1 then Alt (Cat (deriv c r1) r2) (deriv c r2)
      else Cat (deriv c r1) r2
  | Alt r1 r2 => Alt (deriv c r1) (deriv c r2)
  | Star r1 => Cat (deriv c r1) (Star r1)
  end.

(** [matches r s]: the whole of [s] is a word of [r]. *)
Fixpoint matches (r : regex) (s : string) : bool :=
  match s with
  | EmptyString => nullable r
  | String c s' => matches (deriv c r) s'
  end.

(** A compiled pattern [^?body$?]. *)
Record Regexp : Type := MustCompile {
  bol : bool;
  body : regex;
  eol : bool
}.

(** [Regexp.MatchString]: some substring matches, from the start of
    the text under [^] and up to its end under [$]. *)
Definition MatchString (re : Regexp) (s : string) : bool :=
  matches
    (Cat (if bol re then Eps else Star any_byte)
         (Cat (body re) (if eol re then Eps else Star any_byte))) s.

(** [FindStringSubmatch] for a pattern [^(g1)c(g2)$] whose first group
    ends in a greedy repetition: of the ways to split the text the one
    with the longest first group is preferred.  [g1] is the derivative of
    the first group by the bytes already passed. *)
Fixpoint find_groups (g1 : regex) (c : ascii) (g2 : regex) (s : string)
  : option (string * string) :=
  match s with
  | EmptyString => None
  | String x s' =>
      match find_groups (deriv x g1) c g2 s' with
      | Some (m1, m2) => Some (String x m1, m2)
      | None =>
          if nullable g1 && bool_decide (x = c) && matches g2 s'
          then Some (EmptyString, s') else None
      end
  end.

Definition FindStringSubmatch (g1 : regex) (c : ascii) (g2 : regex)
  (s : string) : option (list string) :=
  match find_groups g1 c g2 s with
  | Some (m1, m2) => Some [s; m1; m2]
  | None => None
  end.

End Regexp.

(** ** The pod object model of [k8s.io/api/core/v1]

    Only the fields the webhook reads or writes are kept, with a few of the
    others to show that they pass through untouched. *)

Module Corev1.

Module ContainerPort.
Record t : Type := mk {
  Name : string;
  HostPort : Z;
  ContainerPort : Z;
  Protocol : string;
  HostIP : string
}.
Definition with_HostPort (p : t) (v : Z) : t :=
  mk (Name p) v (ContainerPort p) (Protocol p) (HostIP p).
(** [DeepCopy]: a port has no pointer fields. *)
Definition DeepCopy (p : t) : t := p.
End ContainerPort.

Module EnvVar.
Record t : Type := mk {
  Name : string;
  Value : string;
  ValueFrom : option string
}.
End EnvVar.

Module VolumeMount.
Record t : Type := mk {
  Name : string;
  ReadOnly : bool;
  MountPath : string;
  SubPath : string
}.
End VolumeMount.

Module ConfigMapVolumeSource.
Record t : Type := mk {
  Name : string;
  DefaultMode : option Z;
  Optional : option bool
}.
Definition with_Name (c : t) (n : string) : t :=
  mk n (DefaultMode c) (Optional c).
Definition DeepCopy (c : t) : t := c.
End ConfigMapVolumeSource.

Module SecretVolumeSource.
Record t : Type := mk {
  SecretName : string;
  DefaultMode : option Z;
  Optional : option bool
}.
Definition with_SecretName (c : t) (n : string) : t :=
  mk n (DefaultMode c) (Optional c).
Definition DeepCopy (c : t) : t := c.
End SecretVolumeSource.

Module Volume.
Record t : Type := mk {
  Name : string;
  ConfigMap : option ConfigMapVolumeSource.t;
  Secret : option SecretVolumeSource.t;
  HostPath : option string
}.
Definition with_ConfigMap (v : t) (c : option ConfigMapVolumeSource.t) : t :=
  mk (Name v) c (Secret v) (HostPath v).
Definition with_Secret (v : t) (c : option SecretVolumeSource.t) : t :=
  mk (Name v) (ConfigMap v) c (HostPath v).
End Volume.

Module Container.
Record t : Type := mk {
  Name : string;
  Image : string;
  Ports : list ContainerPort.t;
  Env : list EnvVar.t;
  VolumeMounts : list VolumeMount.t
}.
Definition with_Ports (c : t) (ps : list ContainerPort.t) : t :=
  mk (Name c) (Image c) ps (Env c) (VolumeMounts c).
Definition with_Env (c : t) (es : list EnvVar.t) : t :=
  mk (Name c) (Image c) (Ports c) es (VolumeMounts c).
Definition with_VolumeMounts (c : t) (ms : list VolumeMount.t) : t :=
  mk (Name c) (Image c) (Ports c) (Env c) ms.
End Container.

Module PodSpec.
Record t : Type := mk {
  Volumes : list Volume.t;
  Containers : list Container.t
}.
Definition with_Volumes (s : t) (vs : list Volume.t) : t :=
  mk vs (Containers s).
Definition with_Containers (s : t) (cs : list Container.t) : t :=
  mk (Volumes s) cs.
End PodSpec.

(** A pod: the labels and annotations of its metadata, and its
    specification.  A Go map that is ranged over is given by its
    entries in the order of the visit; its keys are distinct. *)
Module Pod.
Record t : Type := mk {
  Labels : gmap string string;
  Annotations : list (string * string);
  Spec : PodSpec.t
}.
Definition with_Spec (p : t) (s : PodSpec.t) : t :=
  mk (Labels p) (Annotations p) s.
End Pod.

End Corev1.

(** ** Configuration values of the two handlers *)

Module Ports.

Definition HostPort : string := "host-port".
Definition PodOrdinal : string := "POD_ORDINAL".
Definition PortPrefix : string := "PORT_".

Record containerPortsConfig : Type := {
  Name : string;
  Ports : list Corev1.ContainerPort.t
}.

Record portConfigValue : Type := {
  Containers : list containerPortsConfig
}.

(** [cfg] is a pointer and may be nil. *)
Record portConfig : Type := {
  qualifier : string;
  cfg : option portConfigValue
}.

End Ports.

Module Volumes.

Definition MountVolume : string := "mount-volume".

Record mountConfigValue : Type := {
  Volumes : list Corev1.Volume.t;
  Containers : list Corev1.Container.t
}.

Record mountConfig : Type := {
  qualifier : string;
  cfg : option mountConfigValue
}.

End Volumes.

(** The values that travel as [any] between a parser and [Mutate]; the
    nil interface value is [None] of [option any].  No parser returns a
    nil pointer inside an interface value, and none is modelled. *)
Inductive any : Type :=
| portConfigPtr (m : Ports.portConfig)
| mountConfigPtr (m : Volumes.mountConfig)
| otherValue (type_name : string).

(** ** Package [annotation] *)

Module Annotation.

Definition Prefix : string := "spoditor.io/".
Definition Separator : string := "_".

Record QualifiedName : Type := {
  Qualifier : string;
  Name : string
}.

Global Instance QualifiedName_eq_dec : EqDecision QualifiedName.
Proof. solve_decision. Defined.

Global Instance QualifiedName_countable : Countable QualifiedName :=
  inj_countable'
    (λ q, (Qualifier q, Name q))
    (λ p, {| Qualifier := p.1; Name := p.2 |})
    (λ q, match q with Build_QualifiedName _ _ => eq_refl end).

Definition Parser : Type :=
  gmap QualifiedName string → option any * option error.

Record Handler : Type := {
  Mutate : Corev1.PodSpec.t → Z → option any
           → outcome (Corev1.PodSpec.t * option error);
  GetParser : Parser
}.

(** The body of the loop of [defaultCollector], for one annotation. *)
Definition collect_entry (result : gmap QualifiedName string)
  (k v : string) : outcome (gmap QualifiedName string) :=
  if negb (Strings.HasPrefix k Prefix) then Ret result
  else
    let name := Strings.TrimPrefix k Prefix in
    let separatorIndex := Strings.LastIndex name Separator in
    if separatorIndex =? -1 then
      Ret (<[ {| Qualifier := EmptyString; Name := name |} := v ]> result)
    else
      q ← Strings.slice_from name (separatorIndex + 1);
      n ← Strings.slice_to name separatorIndex;
      Ret (<[ {| Qualifier := q; Name := n |} := v ]> result).

Fixpoint collect_loop (annotations : list (string * string))
  (result : gmap QualifiedName string)
  : outcome (gmap QualifiedName string) :=
  match annotations with
  | [] => Ret result
  | (k, v) :: rest =>
      result' ← collect_entry result k v;
      collect_loop rest result'
  end.

(** [defaultCollector], on the annotations of the object in the order
    the [range] loop visits them. *)
Definition defaultCollector (annotations : list (string * string))
  : outcome (gmap QualifiedName string) :=
  collect_loop annotations ∅.

Definition Collector := defaultCollector.

Import Regexp.

(** [^\d+-\d+$], [^\d+$], [^\d+-$] and [^-\d+$] *)
Definition rangeRegex : Regexp :=
  MustCompile true (Cat (Plus digit) (Cat (Lit "-") (Plus digit))) true.
Definition exactNumberRegex : Regexp :=
  MustCompile true (Plus digit) true.
Definition lowerBoundRegex : Regexp :=
  MustCompile true (Cat (Plus digit) (Lit "-")) true.
Definition upperBoundRegex : Regexp :=
  MustCompile true (Cat (Lit "-") (Plus digit)) true.

(** The errors of [strconv.Atoi] are dropped, as in the source. *)
Definition CommonPodQualifier (ordinal : Z) (qualifier : string)
  : outcome bool :=
  if decide (qualifier = EmptyString) then Ret true
  else if MatchString rangeRegex qualifier then
    let bounds := Strings.Split qualifier "-" in
    b0 ← index bounds 0;
    b1 ← index bounds 1;
    let min := (Strconv.Atoi b0).1 in
    let max := (Strconv.Atoi b1).1 in
    Ret ((min <=? ordinal) && (ordinal <=? max))
  else if MatchString exactNumberRegex qualifier then
    let target := (Strconv.Atoi qualifier).1 in
    Ret (ordinal =? target)
  else if MatchString lowerBoundRegex qualifier then
    let min := (Strconv.Atoi (Strings.TrimSuffix qualifier "-")).1 in
    Ret (min <=? ordinal)
  else if MatchString upperBoundRegex qualifier then
    let max := (Strconv.Atoi (Strings.TrimPrefix qualifier "-")).1 in
    Ret (ordinal <=? max)
  else Ret false.

End Annotation.

(** ** The host-port handler (package [ports]) *)

Module HostPortHandler.

(** The search for a port of the given name: the first one found has
    its host port set, and the search stops. *)
Fixpoint set_hostPort (ports : list Corev1.ContainerPort.t)
  (name : string) (newHostPort : Z) : list Corev1.ContainerPort.t * bool :=
  match ports with
  | [] => ([], false)
  | p :: rest =>
      if decide (Corev1.ContainerPort.Name p = name)
      then (Corev1.ContainerPort.with_HostPort p newHostPort :: rest, true)
      else
        let '(rest', found) := set_hostPort rest name newHostPort in
        (p :: rest', found)
  end.

(** One port of the configuration, applied to the matched container.
    [vars] is the entry of [portEnvVars] for the container name at hand:
    that entry is made empty at the head of each round of the outer loop
    and no other entry is read or written during the round. *)
Definition process_port (ordinal : Z)
  (st : Corev1.Container.t * gmap string string)
  (portConfig : Corev1.ContainerPort.t)
  : Corev1.Container.t * gmap string string :=
  let '(container, vars) := st in
  if Corev1.ContainerPort.HostPort portConfig <=? 0 then st
  else
    let newHostPort :=
      GoInt.int32 (GoInt.int32 (Corev1.ContainerPort.HostPort portConfig)
                   + GoInt.int32 ordinal) in
    let portVarName :=
      Ports.PortPrefix +:+ Corev1.ContainerPort.Name portConfig in
    let '(ports', foundPort) :=
      set_hostPort (Corev1.Container.Ports container)
        (Corev1.ContainerPort.Name portConfig) newHostPort in
    if foundPort then
      (Corev1.Container.with_Ports container ports',
       <[ portVarName := Strconv.Itoa (GoInt.int newHostPort) ]> vars)
    else
      let newPort :=
        Corev1.ContainerPort.with_HostPort
          (Corev1.ContainerPort.DeepCopy portConfig) newHostPort in
      (Corev1.Container.with_Ports container
         (Corev1.Container.Ports container ++ [newPort]),
       <[ portVarName :=
            Strconv.Itoa (GoInt.int (Corev1.ContainerPort.HostPort newPort)) ]>
         vars).

(** [appendEnvVarIfNotExists] *)
Fixpoint appendEnvVarIfNotExists (envVars : list Corev1.EnvVar.t)
  (envVar : Corev1.EnvVar.t) : list Corev1.EnvVar.t :=
  match envVars with
  | [] => [envVar]
  | existing :: rest =>
      if decide (Corev1.EnvVar.Name existing = Corev1.EnvVar.Name envVar)
      then envVar :: rest
      else existing :: appendEnvVarIfNotExists rest envVar
  end.

Section Range.

(** The order in which [range] visits the entries of a map. *)
Variable range : gmap string string → list (string * string).

Definition add_port_vars (env : list Corev1.EnvVar.t)
  (vars : list (string * string)) : list Corev1.EnvVar.t :=
  foldl (λ env kv,
           appendEnvVarIfNotExists env
             (Corev1.EnvVar.mk kv.1 kv.2 None))
        env vars.

(** The body of the loop over [spec.Containers]. *)
Definition process_container (ordinal : Z)
  (containerConfig : Ports.containerPortsConfig)
  (vars : gmap string string) (container : Corev1.Container.t)
  : Corev1.Container.t * gmap string string :=
  if decide (Corev1.Container.Name container
             ≠ Ports.Name containerConfig)
  then (container, vars)
  else
    let '(container1, vars1) :=
      foldl (process_port ordinal) (container, vars)
            (Ports.Ports containerConfig) in
    let env1 :=
      appendEnvVarIfNotExists (Corev1.Container.Env container1)
        (Corev1.EnvVar.mk Ports.PodOrdinal (Strconv.Itoa ordinal) None) in
    (Corev1.Container.with_Env container1
       (add_port_vars env1 (range vars1)),
     vars1).

Fixpoint process_containers (ordinal : Z)
  (containerConfig : Ports.containerPortsConfig)
  (vars : gmap string string) (containers : list Corev1.Container.t)
  : list Corev1.Container.t * gmap string string :=
  match containers with
  | [] => ([], vars)
  | container :: rest =>
      let '(container', vars') :=
        process_container ordinal containerConfig vars container in
      let '(rest', vars'') :=
        process_containers ordinal containerConfig vars' rest in
      (container' :: rest', vars'')
  end.

(** The body of the loop over [m.cfg.Containers]. *)
Definition process_config (ordinal : Z)
  (containers : list Corev1.Container.t)
  (containerConfig : Ports.containerPortsConfig)
  : list Corev1.Container.t :=
  (process_containers ordinal containerConfig ∅ containers).1.

Definition Mutate (spec : Corev1.PodSpec.t) (ordinal : Z)
  (cfg : option any) : outcome (Corev1.PodSpec.t * option error) :=
  match cfg with
  | Some (portConfigPtr m) =>
      ok ← Annotation.CommonPodQualifier ordinal (Ports.qualifier m);
      if negb ok then Ret (spec, None)
      else
        match Ports.cfg m with
        | None => Panic "nil pointer dereference"
        | Some v =>
            Ret (Corev1.PodSpec.with_Containers spec
                   (foldl (process_config ordinal)
                          (Corev1.PodSpec.Containers spec)
                          (Ports.Containers v)),
                 None)
        end
  | _ => Ret (spec, Some (errorString "unexpected config type"))
  end.

(** [json.Unmarshal] into a [portConfigValue], and the order in which
    the parser visits the collected annotations. *)
Variable Unmarshal : string → Ports.portConfigValue + error.
Variable range_annotations :
  gmap Annotation.QualifiedName string
  → list (Annotation.QualifiedName * string).

Fixpoint parse_loop (entries : list (Annotation.QualifiedName * string))
  : option any * option error :=
  match entries with
  | [] => (None, None)
  | (k, v) :: rest =>
      if decide (Annotation.Name k ≠ Ports.HostPort) then parse_loop rest
      else
        match Unmarshal v with
        | inr err =>
            (None,
             Some (wrapError "failed to parse port configuration" err))
        | inl c =>
            (Some (portConfigPtr
                     {| Ports.qualifier := Annotation.Qualifier k;
                        Ports.cfg := Some c |}),
             None)
        end
  end.

Definition parser : Annotation.Parser :=
  λ annotations, parse_loop (range_annotations annotations).

Definition handler : Annotation.Handler :=
  {| Annotation.Mutate := Mutate; Annotation.GetParser := parser |}.

End Range.

End HostPortHandler.

(** ** The host-port handler as first written

    [PortModifierHandler] and the [HostPortHandler] of the other source
    file of package [ports] hold the same [Mutate]: the test on the host
    port of the declared port sits inside the search for the port and in
    front of the append, not at the head of the loop over the declared
    ports. *)

Module PortModifierHandler.

Definition ModifyHostPorts : string := "modify-host-ports".

(** The loop over the ports of the container: at the first port of the
    name of [portConfig] the host port is set and the variable stored,
    both only when the declared host port is positive, and the search
    stops. *)
Fixpoint search_port (ordinal : Z) (portConfig : Corev1.ContainerPort.t)
  (ports : list Corev1.ContainerPort.t) (vars : gmap string string)
  : list Corev1.ContainerPort.t * gmap string string * bool :=
  match ports with
  | [] => ([], vars, false)
  | p :: rest =>
      if decide (Corev1.ContainerPort.Name p
                 = Corev1.ContainerPort.Name portConfig)
      then
        if 0 <? Corev1.ContainerPort.HostPort portConfig then
          let newHostPort :=
            GoInt.int32
              (GoInt.int32 (Corev1.ContainerPort.HostPort portConfig)
               + GoInt.int32 ordinal) in
          let portVarName :=
            "PORT_" +:+ Corev1.ContainerPort.Name portConfig in
          (Corev1.ContainerPort.with_HostPort p newHostPort :: rest,
           <[ portVarName := Strconv.Itoa (GoInt.int newHostPort) ]> vars,
           true)
        else (p :: rest, vars, true)
      else
        let '(rest', vars', foundPort) :=
          search_port ordinal portConfig rest vars in
        (p :: rest', vars', foundPort)
  end.

(** One port of the configuration, applied to the matched container. *)
Definition process_port (ordinal : Z)
  (st : Corev1.Container.t * gmap string string)
  (portConfig : Corev1.ContainerPort.t)
  : Corev1.Container.t * gmap string string :=
  let '(container, vars) := st in
  let '(ports', vars', foundPort) :=
    search_port ordinal portConfig (Corev1.Container.Ports container) vars in
  if negb foundPort && (0 <? Corev1.ContainerPort.HostPort portConfig) then
    let newPort :=
      Corev1.ContainerPort.with_HostPort
        (Corev1.ContainerPort.DeepCopy portConfig)
        (GoInt.int32
           (GoInt.int32 (Corev1.ContainerPort.HostPort portConfig)
            + GoInt.int32 ordinal)) in
    let portVarName := "PORT_" +:+ Corev1.ContainerPort.Name newPort in
    (Corev1.Container.with_Ports container (ports' ++ [newPort]),
     <[ portVarName :=
          Strconv.Itoa (GoInt.int (Corev1.ContainerPort.HostPort newPort)) ]>
       vars')
  else (Corev1.Container.with_Ports container ports', vars').

Section Range.

Variable range : gmap string string → list (string * string).

(** The body of the loop over [spec.Containers]. *)
Definition process_container (ordinal : Z)
  (containerConfig : Ports.containerPortsConfig)
  (vars : gmap string string) (container : Corev1.Container.t)
  : Corev1.Container.t * gmap string string :=
  if decide (Corev1.Container.Name container = Ports.Name containerConfig)
  then
    let '(container1, vars1) :=
      foldl (process_port ordinal) (container, vars)
            (Ports.Ports containerConfig) in
    let ordinalEnvVar :=
      Corev1.EnvVar.mk "POD_ORDINAL" (Strconv.Itoa ordinal) None in
    let env1 :=
      HostPortHandler.appendEnvVarIfNotExists
        (Corev1.Container.Env container1) ordinalEnvVar in
    (Corev1.Container.with_Env container1
       (HostPortHandler.add_port_vars env1 (range vars1)),
     vars1)
  else (container, vars).

Fixpoint process_containers (ordinal : Z)
  (containerConfig : Ports.containerPortsConfig)
  (vars : gmap string string) (containers : list Corev1.Container.t)
  : list Corev1.Container.t * gmap string string :=
  match containers with
  | [] => ([], vars)
  | container :: rest =>
      let '(container', vars') :=
        process_container ordinal containerConfig vars container in
      let '(rest', vars'') :=
        process_containers ordinal containerConfig vars' rest in
      (container' :: rest', vars'')
  end.

(** The body of the loop over [m.cfg.Containers]. *)
Definition process_config (ordinal : Z)
  (containers : list Corev1.Container.t)
  (containerConfig : Ports.containerPortsConfig)
  : list Corev1.Container.t :=
  (process_containers ordinal containerConfig ∅ containers).1.

(** The failed type assertion leaves [m] nil, and the message names the
    type of [m]. *)
Definition Mutate (spec : Corev1.PodSpec.t) (ordinal : Z)
  (cfg : option any) : outcome (Corev1.PodSpec.t * option error) :=
  match cfg with
  | Some (portConfigPtr m) =>
      ok ← Annotation.CommonPodQualifier ordinal (Ports.qualifier m);
      if negb ok then Ret (spec, None)
      else
        match Ports.cfg m with
        | None => Panic "nil pointer dereference"
        | Some v =>
            Ret (Corev1.PodSpec.with_Containers spec
                   (foldl (process_config ordinal)
                          (Corev1.PodSpec.Containers spec)
                          (Ports.Containers v)),
                 None)
        end
  | _ =>
      Ret (spec,
           Some (errorString "unexpected config type *ports.portConfig"))
  end.

Variable Unmarshal : string → Ports.portConfigValue + error.
Variable range_annotations :
  gmap Annotation.QualifiedName string
  → list (Annotation.QualifiedName * string).

(** The parser returns the error of [json.Unmarshal] as it is. *)
Fixpoint parse_loop (entries : list (Annotation.QualifiedName * string))
  : option any * option error :=
  match entries with
  | [] => (None, None)
  | (k, v) :: rest =>
      if decide (Annotation.Name k = ModifyHostPorts) then
        match Unmarshal v with
        | inl c =>
            (Some (portConfigPtr
                     {| Ports.qualifier := Annotation.Qualifier k;
                        Ports.cfg := Some c |}),
             None)
        | inr err => (None, Some err)
        end
      else parse_loop rest
  end.

Definition parser : Annotation.Parser :=
  λ annotations, parse_loop (range_annotations annotations).

Definition handler : Annotation.Handler :=
  {| Annotation.Mutate := Mutate; Annotation.GetParser := parser |}.

End Range.

End PortModifierHandler.

(** ** The volume handler (package [volumes]) *)

Module MountHandler.

(** The body of the loop over [m.cfg.Volumes]: the copy of one volume,
    with the names of its ConfigMap and Secret suffixed. *)
Definition process_volume (ordinal : Z) (v : Corev1.Volume.t)
  : Corev1.Volume.t :=
  let ordinalSuffix := "-" +:+ Strconv.Itoa ordinal in
  let v1 :=
    match Corev1.Volume.ConfigMap v with
    | Some c =>
        let newName := Corev1.ConfigMapVolumeSource.Name c +:+ ordinalSuffix in
        Corev1.Volume.with_ConfigMap v
          (Some (Corev1.ConfigMapVolumeSource.with_Name
                   (Corev1.ConfigMapVolumeSource.DeepCopy c) newName))
    | None => v
    end in
  match Corev1.Volume.Secret v with
  | Some s =>
      let newName := Corev1.SecretVolumeSource.SecretName s +:+ ordinalSuffix in
      Corev1.Volume.with_Secret v1
        (Some (Corev1.SecretVolumeSource.with_SecretName
                 (Corev1.SecretVolumeSource.DeepCopy s) newName))
  | None => v1
  end.

(** The inner loop over [spec.Containers], for one declared container. *)
Definition add_mounts (containers : list Corev1.Container.t)
  (source : Corev1.Container.t) : list Corev1.Container.t :=
  map (λ c,
         if decide (Corev1.Container.Name source = Corev1.Container.Name c)
         then Corev1.Container.with_VolumeMounts c
                (Corev1.Container.VolumeMounts c
                 ++ Corev1.Container.VolumeMounts source)
         else c)
      containers.

Definition Mutate (spec : Corev1.PodSpec.t) (ordinal : Z)
  (cfg : option any) : outcome (Corev1.PodSpec.t * option error) :=
  match cfg with
  | Some (mountConfigPtr m) =>
      ok ← Annotation.CommonPodQualifier ordinal (Volumes.qualifier m);
      if negb ok then Ret (spec, None)
      else
        match Volumes.cfg m with
        | None => Panic "nil pointer dereference"
        | Some v =>
            let volumes := map (process_volume ordinal) (Volumes.Volumes v) in
            let spec1 :=
              Corev1.PodSpec.with_Volumes spec
                (Corev1.PodSpec.Volumes spec ++ volumes) in
            Ret (Corev1.PodSpec.with_Containers spec1
                   (foldl add_mounts (Corev1.PodSpec.Containers spec1)
                          (Volumes.Containers v)),
                 None)
        end
  | _ =>
      Ret (spec,
           Some (errorString "unexpected config type, expected *mountConfig"))
  end.

Section Parser.

Variable Unmarshal : string → Volumes.mountConfigValue + error.
Variable range_annotations :
  gmap Annotation.QualifiedName string
  → list (Annotation.QualifiedName * string).

Fixpoint parse_loop (entries : list (Annotation.QualifiedName * string))
  : option any * option error :=
  match entries with
  | [] => (None, None)
  | (k, v) :: rest =>
      if decide (Annotation.Name k ≠ Volumes.MountVolume)
      then parse_loop rest
      else
        match Unmarshal v with
        | inr err =>
            (None,
             Some (wrapError "invalid volume mount configuration" err))
        | inl config =>
            if decide (length (Volumes.Volumes config) = 0%nat)
            then (None, None)
            else
              (Some (mountConfigPtr
                       {| Volumes.qualifier := Annotation.Qualifier k;
                          Volumes.cfg := Some config |}),
               None)
        end
  end.

Definition volumeMountParser : Annotation.Parser :=
  λ annotations, parse_loop (range_annotations annotations).

Definition handler : Annotation.Handler :=
  {| Annotation.Mutate := Mutate;
     Annotation.GetParser := volumeMountParser |}.

End Parser.

End MountHandler.

(** ** The pod identity extractor (package [identifier]) *)

Definition podNameLabel : string := "statefulset.kubernetes.io/pod-name".

(** The result of [Extract]: the StatefulSet name, the ordinal and the
    error. *)
Definition extracted : Type := (string * Z * option error)%type.

Module Identifier.

Definition ErrMissingLabel : error :=
  errorString "missing StatefulSet pod name label".
Definition ErrInvalidLabelValue : error :=
  errorString "invalid StatefulSet pod name format".
Definition ErrParsingOrdinal : error :=
  errorString "failed to parse pod ordinal".

(** [statefulsetPodNameRegex], the pattern [^(.+)-(\d+)$], by its two
    groups and the byte between them. *)
Definition statefulsetPodNameRegex (s : string) : option (list string) :=
  Regexp.FindStringSubmatch
    (Regexp.Plus Regexp.dot) "-" (Regexp.Plus Regexp.digit) s.

Definition LabelSSPodIdentifier (accessor : Corev1.Pod.t)
  : outcome extracted :=
  match Corev1.Pod.Labels accessor !! podNameLabel with
  | None => Ret (EmptyString, -1, Some ErrMissingLabel)
  | Some podName =>
      match statefulsetPodNameRegex podName with
      | None => Ret (EmptyString, -1, Some ErrInvalidLabelValue)
      | Some matches =>
          ssName ← index matches 1;
          ordinalStr ← index matches 2;
          let '(ordinal, err) := Strconv.Atoi ordinalStr in
          match err with
          | Some _ =>
              Ret (EmptyString, -1,
                   Some (wrapError "strconv.Atoi" ErrParsingOrdinal))
          | None => Ret (ssName, ordinal, None)
          end
      end
  end.

End Identifier.

(** The other source file of package [identifier]: the label is checked
    with [regexp.MatchString] on the pattern [.+-\d+], which carries no
    anchors, and split at its last hyphen. *)
Module IdentifierUnanchored.

Definition labelPattern : Regexp.Regexp :=
  Regexp.MustCompile false
    (Regexp.Cat (Regexp.Plus Regexp.dot)
       (Regexp.Cat (Regexp.Lit "-") (Regexp.Plus Regexp.digit)))
    false.

Definition LabelSSPodIdentifier (accessor : Corev1.Pod.t)
  : outcome extracted :=
  match Corev1.Pod.Labels accessor !! podNameLabel with
  | None => Ret (EmptyString, -1, Some (errorString "missing statefulset label"))
  | Some l =>
      if negb (Regexp.MatchString labelPattern l)
      then Ret (EmptyString, -1, Some (errorString "unexpected label value"))
      else
        let i := Strings.LastIndex l "-" in
        tail ← Strings.slice_from l (i + 1);
        let ordinal := (Strconv.Atoi tail).1 in
        name ← Strings.slice_to l i;
        Ret (name, ordinal, None)
  end.

End IdentifierUnanchored.

(** ** The mutation pipeline *)

Module Admission.

(** [admission.Allowed] admits the object as it was sent;
    [admission.PatchResponseFromRaw] admits it with the patch that turns
    the object sent into the mutated one. *)
Inductive Response : Type :=
| Allowed (message : string)
| PatchResponseFromRaw (mutated : Corev1.Pod.t).

End Admission.

Module Webhook.

(** The fields shared by [PodArgumentor] and [PodMutator]. *)
Record PodMutator : Type := {
  ssPodId : Corev1.Pod.t → outcome extracted;
  handlers : list Annotation.Handler;
  collector : list (string * string)
              → outcome (gmap Annotation.QualifiedName string)
}.

(** The loop of [applyHandlers], from the handler of index [i] on; the
    two source files that define [applyHandlers] agree on it. *)
Fixpoint applyHandlers_loop (hs : list Annotation.Handler) (i : Z)
  (annotations : gmap Annotation.QualifiedName string)
  (spec : Corev1.PodSpec.t) (ordinal : Z)
  : outcome (Corev1.PodSpec.t * option error) :=
  match hs with
  | [] => Ret (spec, None)
  | handler :: rest =>
      let '(config, err) := Annotation.GetParser handler annotations in
      match err with
      | Some e =>
          Ret (spec,
               Some (wrapError
                       ("handler at index " +:+ Strconv.Itoa i
                        +:+ ": parse error") e))
      | None =>
          match config with
          | None => applyHandlers_loop rest (i + 1) annotations spec ordinal
          | Some _ =>
              r ← Annotation.Mutate handler spec ordinal config;
              match r.2 with
              | Some e =>
                  Ret (r.1,
                       Some (wrapError
                               ("handler " +:+ Strconv.Itoa i
                                +:+ ": mutation error") e))
              | None =>
                  applyHandlers_loop rest (i + 1) annotations r.1 ordinal
              end
          end
      end
  end.

Definition applyHandlers (m : PodMutator) (pod : Corev1.Pod.t)
  (ordinal : Z) : outcome (Corev1.Pod.t * option error) :=
  annotations ← collector m (Corev1.Pod.Annotations pod);
  r ← applyHandlers_loop (handlers m) 0 annotations
        (Corev1.Pod.Spec pod) ordinal;
  Ret (Corev1.Pod.with_Spec pod r.1, r.2).

(** [PodMutator.Default], on an object that is a pod. *)
Definition Default (m : PodMutator) (pod : Corev1.Pod.t)
  : outcome (Corev1.Pod.t * option error) :=
  id ← ssPodId m pod;
  match id.2 with
  | Some _ => Ret (pod, None)
  | None => applyHandlers m pod id.1.2
  end.

(** [PodArgumentor.Handle] of package [webhook], on a request whose
    object decodes to [pod] and whose mutated pod can be marshalled. *)
Definition Handle (m : PodMutator) (pod : Corev1.Pod.t)
  : outcome Admission.Response :=
  id ← ssPodId m pod;
  match id.2 with
  | Some _ => Ret (Admission.Allowed "ignore non-statefulset pod")
  | None =>
      r ← applyHandlers m pod id.1.2;
      match r.2 with
      | Some _ => Ret (Admission.Allowed "mutation failed")
      | None => Ret (Admission.PatchResponseFromRaw r.1)
      end
  end.

(** [NewPodArgumentor]: a webhook without handlers. *)
Definition NewPodArgumentor (podId : Corev1.Pod.t → outcome extracted)
  (collect : list (string * string)
             → outcome (gmap Annotation.QualifiedName string))
  : PodMutator :=
  {| ssPodId := podId; handlers := []; collector := collect |}.

(** [Register] of package [webhook]: the handler is put behind the ones
    registered before it; a nil handler is not registered. *)
Definition Register (r : PodMutator) (handler : option Annotation.Handler)
  : PodMutator :=
  match handler with
  | None => r
  | Some h =>
      {| ssPodId := ssPodId r;
         handlers := handlers r ++ [h];
         collector := collector r |}
  end.

End Webhook.

(** [PodArgumentor.Handle] of package [internal]: the handlers are run by
    a loop inside [Handle] itself, and every turn of the loop collects
    the annotations of the pod anew.  Go fixes no order for the visit of
    a map, and two visits of one map need not agree: the [range] loop of
    the collector visits the annotations in the order
    [range_annotations n] in the turn of index [n].  The messages of the
    responses hold the text of an error, [Error e]; how the errors are
    worded is left open. *)
Module WebhookInternal.

Section Handle.

Variable Error : error → string.
Variable range_annotations :
  nat → list (string * string) → list (string * string).

(** [fmt.Sprintf] of a message that ends with the verb [%v], on an error
    that may be nil. *)
Definition Sprintf_v (message : string) (err : option error) : string :=
  message +:+ match err with
              | Some e => Error e
              | None => "<nil>"
              end.

Fixpoint handle_loop (hs : list Annotation.Handler) (n : nat)
  (m : Webhook.PodMutator) (pod : Corev1.Pod.t) (ordinal : Z)
  : outcome Admission.Response :=
  match hs with
  | [] => Ret (Admission.PatchResponseFromRaw pod)
  | h :: rest =>
      annotations ← Webhook.collector m
                      (range_annotations n (Corev1.Pod.Annotations pod));
      let '(c, err) := Annotation.GetParser h annotations in
      if bool_decide (err ≠ None) || bool_decide (c = None)
      then Ret (Admission.Allowed
                  (Sprintf_v "can't parse ssarg annotation " err))
      else
        r ← Annotation.Mutate h (Corev1.Pod.Spec pod) ordinal c;
        match r.2 with
        | Some e =>
            Ret (Admission.Allowed
                   (Sprintf_v "failed to mutate the pod " (Some e)))
        | None =>
            handle_loop rest (S n) m (Corev1.Pod.with_Spec pod r.1) ordinal
        end
  end.

Definition Handle (m : Webhook.PodMutator) (pod : Corev1.Pod.t)
  : outcome Admission.Response :=
  id ← Webhook.ssPodId m pod;
  match id.2 with
  | Some e =>
      Ret (Admission.Allowed
             (Sprintf_v "ignore none-statefulset pod " (Some e)))
  | None => handle_loop (Webhook.handlers m) O m pod id.1.2
  end.

End Handle.

End WebhookInternal.

(** The mutator [SetupPodWebhookWithManager] of package [v1] builds:
    the extractor that reads the pod name label, the collector, and the
    volume handler in front of the host-port handler.  What
    [json.Unmarshal] makes of a value and the orders in which the
    [range] loops of the two parsers and of [Mutate] visit the entries
    of their maps are left open. *)
Definition SetupPodWebhookWithManager
  (unmarshalMounts : string → Volumes.mountConfigValue + error)
  (unmarshalPorts : string → Ports.portConfigValue + error)
  (range_mounts range_ports :
     gmap Annotation.QualifiedName string
     → list (Annotation.QualifiedName * string))
  (range_vars : gmap string string → list (string * string))
  : Webhook.PodMutator :=
  {| Webhook.ssPodId := Identifier.LabelSSPodIdentifier;
     Webhook.handlers :=
       [MountHandler.handler unmarshalMounts range_mounts;
        HostPortHandler.handler range_vars unmarshalPorts range_ports];
     Webhook.collector := Annotation.Collector |}.

(** ** Vocabulary of the specification *)

Module Spec.

(** Every byte of [s] satisfies [p]. *)
Fixpoint all_bytes (p : ascii → bool) (s : string) : bool :=
  match s with
  | EmptyString => true
  | String c s' => p c && all_bytes p s'
  end.

(** A well-formed non-negative integer: one decimal digit or more. *)
Definition is_number (s : string) : bool :=
  match s with
  | EmptyString => false
  | _ => all_bytes Strconv.is_digit s
  end.

(** The number a digit string denotes, after the digits that gave [n]. *)
Fixpoint decimal_value (s : string) (n : Z) : Z :=
  match s with
  | EmptyString => n
  | String c s' => decimal_value s' (n * 10 + Strconv.digit_value c)
  end.

(** The grammar of qualifiers: empty, [N], [N-M], [N-] and [-M]. *)
Inductive QualifierForm : string → Prop :=
| form_all : QualifierForm EmptyString
| form_exact n : is_number n = true → QualifierForm n
| form_range n m :
    is_number n = true → is_number m = true →
    QualifierForm (n +:+ "-" +:+ m)
| form_lower n : is_number n = true → QualifierForm (n +:+ "-")
| form_upper m : is_number m = true → QualifierForm ("-" +:+ m).

(** The pod name label of a StatefulSet pod: a name that is not empty, a
    hyphen and the digits of the ordinal, up to the end of the value. *)
Definition PodNameForm (l name digits : string) : Prop :=
  l = name +:+ "-" +:+ digits ∧ name ≠ EmptyString ∧ is_number digits = true.

(** How an annotation key names a feature and a qualifier: after the
    prefix, the text before the last separator and the text behind it,
    or the whole text when there is no separator. *)
Definition no_separator (s : string) : bool :=
  all_bytes (λ c, negb (bool_decide (c = "_"%char))) s.

Definition KeyOf (k : string) (qn : Annotation.QualifiedName) : Prop :=
  ∃ remainder,
    k = Annotation.Prefix +:+ remainder
    ∧ ((no_separator remainder = true
        ∧ qn = {| Annotation.Qualifier := EmptyString;
                  Annotation.Name := remainder |})
       ∨ (∃ feature qualifier,
             remainder = feature +:+ "_" +:+ qualifier
             ∧ no_separator qualifier = true
             ∧ qn = {| Annotation.Qualifier := qualifier;
                       Annotation.Name := feature |})).

(** The value of the first variable of the given name. *)
Fixpoint env_lookup (name : string) (env : list Corev1.EnvVar.t)
  : option string :=
  match env with
  | [] => None
  | e :: rest =>
      if decide (Corev1.EnvVar.Name e = name)
      then Some (Corev1.EnvVar.Value e)
      else env_lookup name rest
  end.

(** The index of the first port of the given name. *)
Fixpoint port_index (name : string) (ports : list Corev1.ContainerPort.t)
  : option nat :=
  match ports with
  | [] => None
  | p :: rest =>
      if decide (Corev1.ContainerPort.Name p = name) then Some O
      else S <$> port_index name rest
  end.

(** The host port a declared port gets at an ordinal, the name of its
    environment variable and the value of that variable. *)
Definition effective_hostPort (port : Corev1.ContainerPort.t) (ordinal : Z)
  : Z :=
  GoInt.int32 (GoInt.int32 (Corev1.ContainerPort.HostPort port)
               + GoInt.int32 ordinal).

Definition port_var_name (port : Corev1.ContainerPort.t) : string :=
  Ports.PortPrefix +:+ Corev1.ContainerPort.Name port.

Definition port_var_value (port : Corev1.ContainerPort.t) (ordinal : Z)
  : string :=
  Strconv.Itoa (GoInt.int (effective_hostPort port ordinal)).

(** The variables collected for a container hold the variable of the
    declared port and no other variable. *)
Definition only_port_var (port : Corev1.ContainerPort.t) (ordinal : Z)
  (vars : gmap string string) : Prop :=
  <[ port_var_name port := port_var_value port ordinal ]> vars
  = {[ port_var_name port := port_var_value port ordinal ]}.

(** The ports of a container once the declared port has the host port
    [effective]: the first port of that name is overwritten in place,
    or else a copy of the declared port is put at the end. *)
Definition ports_after (port : Corev1.ContainerPort.t) (effective : Z)
  (container : Corev1.Container.t) : list Corev1.ContainerPort.t :=
  match port_index (Corev1.ContainerPort.Name port)
          (Corev1.Container.Ports container) with
  | Some j =>
      alter (λ p, Corev1.ContainerPort.with_HostPort p effective) j
        (Corev1.Container.Ports container)
  | None =>
      Corev1.Container.Ports container
      ++ [Corev1.ContainerPort.with_HostPort port effective]
  end.

(** The first port of the given name is the port [p], at index [j]. *)
Definition port_at (name : string) (ports : list Corev1.ContainerPort.t)
  (j : nat) (p : Corev1.ContainerPort.t) : Prop :=
  port_index name ports = Some j ∧ ports !! j = Some p.

(** The declared port has been given the host port [effective]: the
    first port of its name, if the container had one, is still at its
    index and differs by the host port only; or else the first port of
    that name is a copy of the declared port with that host port, behind
    the ports the container had. *)
Definition port_set (port : Corev1.ContainerPort.t) (effective : Z)
  (before after : list Corev1.ContainerPort.t) : Prop :=
  match port_index (Corev1.ContainerPort.Name port) before with
  | Some j =>
      ∃ p, before !! j = Some p
           ∧ port_at (Corev1.ContainerPort.Name port) after j
               (Corev1.ContainerPort.with_HostPort p effective)
  | None =>
      ∃ j, (length before ≤ j)%nat
           ∧ port_at (Corev1.ContainerPort.Name port) after j
               (Corev1.ContainerPort.with_HostPort port effective)
  end.

(** The first port of the given name, if any, is where and what it was. *)
Definition port_kept (name : string)
  (before after : list Corev1.ContainerPort.t) : Prop :=
  port_index name after = port_index name before
  ∧ (∀ j, port_index name before = Some j → after !! j = before !! j)
  ∧ (length before ≤ length after)%nat.

(** The variables the ports of one container configuration yield, added
    to [vars]. *)
Definition port_vars (ordinal : Z) (ports : list Corev1.ContainerPort.t)
  (vars : gmap string string) : gmap string string :=
  foldl (λ m q,
           if Corev1.ContainerPort.HostPort q <=? 0 then m
           else <[ port_var_name q := port_var_value q ordinal ]> m)
        vars ports.

(** The variables held when a container is reached are none, or those
    the ports of the configuration at hand yield. *)
Definition vars_settled (ordinal : Z) (cc : Ports.containerPortsConfig)
  (vars : gmap string string) : Prop :=
  port_vars ordinal (Ports.Ports cc) vars
  = port_vars ordinal (Ports.Ports cc) ∅.

(** What the declaration of [port] does to a container, and what the
    declarations of ports of other names do to it. *)
Definition port_applied (port : Corev1.ContainerPort.t) (ordinal : Z)
  (c c' : Corev1.Container.t) : Prop :=
  Corev1.Container.Name c' = Corev1.Container.Name c
  ∧ port_set port (effective_hostPort port ordinal)
      (Corev1.Container.Ports c) (Corev1.Container.Ports c')
  ∧ env_lookup (port_var_name port) (Corev1.Container.Env c')
    = Some (port_var_value port ordinal).

Definition port_untouched (port : Corev1.ContainerPort.t)
  (c c' : Corev1.Container.t) : Prop :=
  Corev1.Container.Name c' = Corev1.Container.Name c
  ∧ port_kept (Corev1.ContainerPort.Name port)
      (Corev1.Container.Ports c) (Corev1.Container.Ports c')
  ∧ env_lookup (port_var_name port) (Corev1.Container.Env c')
    = env_lookup (port_var_name port) (Corev1.Container.Env c).

(** The configuration declares the port [port] for the containers named
    as [cc], at the indices [a] and [b], and declares no other port of
    that name for them. *)
Definition declared_once (v : Ports.portConfigValue) (a b : nat)
  (cc : Ports.containerPortsConfig) (port : Corev1.ContainerPort.t) : Prop :=
  Ports.Containers v !! a = Some cc
  ∧ Ports.Ports cc !! b = Some port
  ∧ ∀ a' cc' b' port',
      Ports.Containers v !! a' = Some cc' →
      Ports.Name cc' = Ports.Name cc →
      Ports.Ports cc' !! b' = Some port' →
      Corev1.ContainerPort.Name port' = Corev1.ContainerPort.Name port →
      a' = a ∧ b' = b.

(** The ports named [name] that the configuration declares with a
    positive host port for the containers named [containerName], in the
    order in which [Mutate] comes to them: entry by entry and, in an
    entry, port by port. *)
Definition declarations (v : Ports.portConfigValue)
  (containerName name : string) : list Corev1.ContainerPort.t :=
  filter (λ q, Corev1.ContainerPort.Name q = name
               ∧ 0 < Corev1.ContainerPort.HostPort q)
    (Ports.Containers v ≫= λ cc,
       if decide (containerName = Ports.Name cc) then Ports.Ports cc
       else []).

(** The names of the environment variables of a container are distinct. *)
Definition env_names_distinct (container : Corev1.Container.t) : Prop :=
  NoDup (Corev1.EnvVar.Name <$> Corev1.Container.Env container).

(** A step that keeps them distinct. *)
Definition names_kept (container container' : Corev1.Container.t) : Prop :=
  env_names_distinct container → env_names_distinct container'.

(** The language of a regular expression. *)
Inductive lang : Regexp.regex → string → Prop :=
| lang_eps : lang Regexp.Eps EmptyString
| lang_class p c : p c = true → lang (Regexp.Class p) (String c EmptyString)
| lang_cat r1 r2 s1 s2 :
    lang r1 s1 → lang r2 s2 → lang (Regexp.Cat r1 r2) (s1 +:+ s2)
| lang_alt_l r1 r2 s : lang r1 s → lang (Regexp.Alt r1 r2) s
| lang_alt_r r1 r2 s : lang r2 s → lang (Regexp.Alt r1 r2) s
| lang_star_nil r : lang (Regexp.Star r) EmptyString
| lang_star_app r s1 s2 :
    lang r s1 → lang (Regexp.Star r) s2 → lang (Regexp.Star r) (s1 +:+ s2).

(** No byte of [s] is the byte [c]. *)
Definition without_byte (c : ascii) (s : string) : bool :=
  all_bytes (λ x, negb (bool_decide (x = c))) s.

(** What a handler that only sets host ports and environment variables
    leaves of a container: its name, its image and its mounts; every port
    at its index, with another host port at most; every variable at its
    index, under its name. *)
Definition container_kept (c c' : Corev1.Container.t) : Prop :=
  Corev1.Container.Name c' = Corev1.Container.Name c
  ∧ Corev1.Container.Image c' = Corev1.Container.Image c
  ∧ Corev1.Container.VolumeMounts c' = Corev1.Container.VolumeMounts c
  ∧ (∀ j p, Corev1.Container.Ports c !! j = Some p →
       ∃ hostPort,
         Corev1.Container.Ports c' !! j
         = Some (Corev1.ContainerPort.with_HostPort p hostPort))
  ∧ (∀ j e, Corev1.Container.Env c !! j = Some e →
       ∃ e', Corev1.Container.Env c' !! j = Some e'
             ∧ Corev1.EnvVar.Name e' = Corev1.EnvVar.Name e).

(** What the parser of the host-port handler makes of one entry. *)
Definition port_entry (Unmarshal : string → Ports.portConfigValue + error)
  (qn : Annotation.QualifiedName) (v : string) : option any * option error :=
  match Unmarshal v with
  | inl c =>
      (Some (portConfigPtr {| Ports.qualifier := Annotation.Qualifier qn;
                              Ports.cfg := Some c |}),
       None)
  | inr err =>
      (None, Some (wrapError "failed to parse port configuration" err))
  end.

(** What the parser of the volume handler makes of one entry. *)
Definition mount_entry (Unmarshal : string → Volumes.mountConfigValue + error)
  (qn : Annotation.QualifiedName) (v : string) : option any * option error :=
  match Unmarshal v with
  | inl config =>
      match Volumes.Volumes config with
      | [] => (None, None)
      | _ :: _ =>
          (Some (mountConfigPtr
                   {| Volumes.qualifier := Annotation.Qualifier qn;
                      Volumes.cfg := Some config |}),
           None)
      end
  | inr err =>
      (None, Some (wrapError "invalid volume mount configuration" err))
  end.

End Spec.

(** ** Lists updated by key

    The ports and the environment variables of a container are lists in
    which [Mutate] looks an element up by its name, overwrites the first
    element of that name, and appends an element when there is none. *)
Module Keyed.

Section Keyed.

Context {A K : Type} `{EqDecision K}.
Variable key : A → K.
(** [merge x a]: what becomes of the element [x] when [a] is written. *)
Variable merge : A → A → A.

Fixpoint upsert (l : list A) (a : A) : list A :=
  match l with
  | [] => [a]
  | x :: rest =>
      if decide (key x = key a) then merge x a :: rest
      else x :: upsert rest a
  end.

(** The first element of a key. *)
Fixpoint first (k : K) (l : list A) : option A :=
  match l with
  | [] => None
  | x :: rest => if decide (key x = k) then Some x else first k rest
  end.

(** The element written last under each key: [a] is written in front of
    the writes [w] holds. *)
Definition over (w : K → option A) (a : A) : K → option A :=
  λ k, if decide (k = key a) then Some (default a (w k)) else w k.

Fixpoint writers (w : K → option A) (ops : list A) : K → option A :=
  match ops with
  | [] => w
  | a :: rest => over (writers w rest) a
  end.

Definition clear (w : K → option A) (k0 : K) : K → option A :=
  λ k, if decide (k = k0) then None else w k.

(** The first element of each key, merged with the write under it. *)
Fixpoint settle (w : K → option A) (l : list A) : list A :=
  match l with
  | [] => []
  | x :: rest =>
      match w (key x) with
      | Some b => merge x b
      | None => x
      end :: settle (clear w (key x)) rest
  end.

End Keyed.

End Keyed.

(** ** What the host-port handler writes to a container *)

Module Writes.

(** What becomes of a port when a port of its name is written: it gets
    the host port of that port; and of a variable when a variable of its
    name is written: it is replaced. *)
Definition merge_port (p a : Corev1.ContainerPort.t)
  : Corev1.ContainerPort.t :=
  Corev1.ContainerPort.with_HostPort p (Corev1.ContainerPort.HostPort a).

Definition merge_env (e a : Corev1.EnvVar.t) : Corev1.EnvVar.t := a.

(** The ports the declared ports write at an ordinal. *)
Definition port_writes (ordinal : Z) (ports : list Corev1.ContainerPort.t)
  : list Corev1.ContainerPort.t :=
  (λ q, Corev1.ContainerPort.with_HostPort q
          (Spec.effective_hostPort q ordinal))
  <$> filter (λ q, 0 < Corev1.ContainerPort.HostPort q) ports.

(** The variables one entry of the configuration writes, in the order
    [range] visits the port variables. *)
Definition env_writes (range : gmap string string → list (string * string))
  (ordinal : Z) (cc : Ports.containerPortsConfig) : list Corev1.EnvVar.t :=
  Corev1.EnvVar.mk Ports.PodOrdinal (Strconv.Itoa ordinal) None
  :: ((λ kv, Corev1.EnvVar.mk kv.1 kv.2 None)
      <$> range (Spec.port_vars ordinal (Ports.Ports cc) ∅)).

(** A container after the entries of the configuration that bear its
    name have been applied. *)
Definition container_after
  (range : gmap string string → list (string * string)) (ordinal : Z)
  (configs : list Ports.containerPortsConfig) (c : Corev1.Container.t)
  : Corev1.Container.t :=
  Corev1.Container.mk (Corev1.Container.Name c) (Corev1.Container.Image c)
    (foldl (Keyed.upsert Corev1.ContainerPort.Name merge_port)
       (Corev1.Container.Ports c)
       (configs ≫= λ cc,
          if decide (Corev1.Container.Name c = Ports.Name cc)
          then port_writes ordinal (Ports.Ports cc) else []))
    (foldl (Keyed.upsert Corev1.EnvVar.Name merge_env)
       (Corev1.Container.Env c)
       (configs ≫= λ cc,
          if decide (Corev1.Container.Name c = Ports.Name cc)
          then env_writes range ordinal cc else []))
    (Corev1.Container.VolumeMounts c).

End Writes.

(** ** Objects of the tests of the repository *)

Module Fixture.

(** A pod that carries the pod name label [l] and nothing else. *)
Definition labelled (l : string) : Corev1.Pod.t :=
  Corev1.Pod.mk {[ podNameLabel := l ]} [] (Corev1.PodSpec.mk [] []).

Definition unlabelled : Corev1.Pod.t :=
  Corev1.Pod.mk ∅ [] (Corev1.PodSpec.mk [] []).

(** The test [modify hostPort and add env vars] of the host-port
    handler. *)
Definition httpPort : Corev1.ContainerPort.t :=
  Corev1.ContainerPort.mk "http" 30000 8080 EmptyString EmptyString.

Definition webSpec : Corev1.PodSpec.t :=
  Corev1.PodSpec.mk []
    [Corev1.Container.mk "web" EmptyString [httpPort] [] []].

Definition webPorts : Ports.containerPortsConfig :=
  {| Ports.Name := "web"; Ports.Ports := [httpPort] |}.

Definition webValue : Ports.portConfigValue :=
  {| Ports.Containers := [webPorts] |}.

Definition webConfig : any :=
  portConfigPtr
    {| Ports.qualifier := EmptyString; Ports.cfg := Some webValue |}.

(** Configurations that declare the port [http] twice for the container
    [web]: with the base 30000 and then with the base 31000 in one
    entry, and the other way round in two entries. *)
Definition httpPort31000 : Corev1.ContainerPort.t :=
  Corev1.ContainerPort.mk "http" 31000 9090 EmptyString EmptyString.

Definition twiceValue : Ports.portConfigValue :=
  {| Ports.Containers :=
       [{| Ports.Name := "web"; Ports.Ports := [httpPort; httpPort31000] |}]
  |}.

Definition twiceConfig : any :=
  portConfigPtr
    {| Ports.qualifier := EmptyString; Ports.cfg := Some twiceValue |}.

Definition twiceValueReversed : Ports.portConfigValue :=
  {| Ports.Containers :=
       [{| Ports.Name := "web"; Ports.Ports := [httpPort31000] |}; webPorts]
  |}.

(** The pod of the tests of the webhook: one container, no port, no
    volume. *)
Definition testSpec : Corev1.PodSpec.t :=
  Corev1.PodSpec.mk []
    [Corev1.Container.mk "test-container" "nginx" [] [] []].

(** The value of the annotation [spoditor.io/host-port] of the test
    [Should configure port forwarding based on annotations], written
    here without its quotation marks, and what [json.Unmarshal] makes of
    it. *)
Definition hostPortJSON : string :=
  "{containers:[{name:test-container,ports:[{name:http,containerPort:8080,hostPort:30000}]}]}".

Definition hostPortValue : Ports.portConfigValue :=
  {| Ports.Containers :=
       [{| Ports.Name := "test-container"; Ports.Ports := [httpPort] |}] |}.

Definition unmarshalPorts (v : string) : Ports.portConfigValue + error :=
  if decide (v = hostPortJSON) then inl hostPortValue
  else inr (errorString "invalid character").

(** The value of the annotation [spoditor.io/mount-volume] of the test
    [Should mount volumes based on annotations], likewise. *)
Definition mountJSON : string :=
  "{volumes:[{name:config-volume,configMap:{name:test-config}}],containers:[{name:test-container,volumeMounts:[{name:config-volume,mountPath:/etc/config}]}]}".

Definition mountValue : Volumes.mountConfigValue :=
  {| Volumes.Volumes :=
       [Corev1.Volume.mk "config-volume"
          (Some (Corev1.ConfigMapVolumeSource.mk "test-config" None None))
          None None];
     Volumes.Containers :=
       [Corev1.Container.mk "test-container" EmptyString [] []
          [Corev1.VolumeMount.mk "config-volume" false "/etc/config"
             EmptyString]] |}.

Definition unmarshalMounts (v : string) : Volumes.mountConfigValue + error :=
  if decide (v = mountJSON) then inl mountValue
  else inr (errorString "invalid character").

(** A pod of ordinal 2 and a volume configuration that refers to the
    ConfigMap [cfg] and mounts it in the container of the pod. *)
Definition cfgValue : Volumes.mountConfigValue :=
  {| Volumes.Volumes :=
       [Corev1.Volume.mk "data"
          (Some (Corev1.ConfigMapVolumeSource.mk "cfg" None None))
          None None];
     Volumes.Containers :=
       [Corev1.Container.mk "test-container" EmptyString [] []
          [Corev1.VolumeMount.mk "data" false "/etc/data" EmptyString]] |}.

Definition cfgSpecMutated : Corev1.PodSpec.t :=
  Corev1.PodSpec.mk
    [Corev1.Volume.mk "data"
       (Some (Corev1.ConfigMapVolumeSource.mk "cfg-2" None None))
       None None]
    [Corev1.Container.mk "test-container" "nginx" [] []
       [Corev1.VolumeMount.mk "data" false "/etc/data" EmptyString]].

(** The webhook as [SetupPodWebhookWithManager] builds it: the volume
    handler first, the host-port handler second. *)
Definition mutator : Webhook.PodMutator :=
  {| Webhook.ssPodId := Identifier.LabelSSPodIdentifier;
     Webhook.handlers :=
       [MountHandler.handler unmarshalMounts map_to_list;
        HostPortHandler.handler map_to_list unmarshalPorts map_to_list];
     Webhook.collector := Annotation.Collector |}.

(** The pod of the test on port forwarding: ordinal 2, the host-port
    annotation and no other. *)
Definition portPod : Corev1.Pod.t :=
  Corev1.Pod.mk {[ podNameLabel := "test-statefulset-2" ]}
    [("spoditor.io/host-port", hostPortJSON)] testSpec.

(** The specification the test expects after the mutation. *)
Definition portSpecMutated : Corev1.PodSpec.t :=
  Corev1.PodSpec.mk []
    [Corev1.Container.mk "test-container" "nginx"
       [Corev1.ContainerPort.mk "http" 30002 8080 EmptyString EmptyString]
       [Corev1.EnvVar.mk "POD_ORDINAL" "2" None;
        Corev1.EnvVar.mk "PORT_http" "30002" None]
       []].


Definition hostPortName : Annotation.QualifiedName :=
  {| Annotation.Qualifier := EmptyString; Annotation.Name := "host-port" |}.

Definition mountVolumeName : Annotation.QualifiedName :=
  {| Annotation.Qualifier := EmptyString; Annotation.Name := "mount-volume" |}.

Definition bothAnnotations : gmap Annotation.QualifiedName string :=
  {[ hostPortName := hostPortJSON; mountVolumeName := mountJSON ]}.

(** A pod of ordinal 2 whose host-port annotation is no JSON text. *)
Definition garbagePod : Corev1.Pod.t :=
  Corev1.Pod.mk {[ podNameLabel := "test-statefulset-2" ]}
    [("spoditor.io/host-port", "{")] testSpec.

(** The pod of the test [Should respect pod ordinal qualifiers], under
    the pod name label [l]. *)
Definition qualifiedPod (l : string) : Corev1.Pod.t :=
  Corev1.Pod.mk {[ podNameLabel := l ]}
    [("spoditor.io/mount-volume_0-2", mountJSON)] testSpec.

(** A configuration that declares the largest host port an [int32]
    holds. *)
Definition lastPort : Corev1.ContainerPort.t :=
  Corev1.ContainerPort.mk "http" 2147483647 8080 EmptyString EmptyString.

Definition lastPorts : Ports.containerPortsConfig :=
  {| Ports.Name := "web"; Ports.Ports := [lastPort] |}.

Definition lastValue : Ports.portConfigValue :=
  {| Ports.Containers := [lastPorts] |}.

End Fixture.

(** * Properties *)

(** ** Strings *)

Lemma str_app_nil_l (s : string) : EmptyString +:+ s = s.
Proof. reflexivity. Qed.

Lemma str_app_cons (c : ascii) (s t : string) :
  String c s +:+ t = String c (s +:+ t).
Proof. reflexivity. Qed.

Lemma str_app_nil_r (s : string) : s +:+ EmptyString = s.
Proof. induction s as [|c s IH]; [done|]. by rewrite str_app_cons, IH. Qed.

Lemma str_app_assoc (s t u : string) : (s +:+ t) +:+ u = s +:+ (t +:+ u).
Proof. induction s as [|c s IH]; [done|]. by rewrite !str_app_cons, IH. Qed.

Lemma str_app_eq_nil (s t : string) :
  s +:+ t = EmptyString → s = EmptyString ∧ t = EmptyString.
Proof. destruct s; [done|]. by rewrite str_app_cons. Qed.

Lemma str_length_app (s t : string) :
  String.length (s +:+ t) = (String.length s + String.length t)%nat.
Proof. induction s as [|c s IH]; [done|]. rewrite str_app_cons. simpl. lia. Qed.

Lemma drop_app_length (s t : string) :
  Strings.drop (String.length s) (s +:+ t) = t.
Proof. induction s as [|c s IH]; [done|]. by rewrite str_app_cons. Qed.

Lemma take_app_length (s t : string) :
  Strings.take (String.length s) (s +:+ t) = s.
Proof.
  induction s as [|c s IH]; [by destruct t|].
  rewrite str_app_cons. simpl. by rewrite IH.
Qed.

Lemma HasPrefix_app (p s : string) : Strings.HasPrefix (p +:+ s) p = true.
Proof.
  induction p as [|c p IH]; [by destruct s|].
  rewrite str_app_cons. simpl. by rewrite decide_True.
Qed.

Lemma HasPrefix_inv (s p : string) :
  Strings.HasPrefix s p = true → ∃ t, s = p +:+ t.
Proof.
  revert s. induction p as [|c p IH]; intros s H.
  - by exists s.
  - destruct s as [|x s]; [done|]. simpl in H.
    destruct (decide (x = c)) as [->|]; [|done].
    destruct (IH _ H) as [t ->]. by exists t.
Qed.

Lemma TrimPrefix_app (p s : string) : Strings.TrimPrefix (p +:+ s) p = s.
Proof.
  unfold Strings.TrimPrefix. by rewrite HasPrefix_app, drop_app_length.
Qed.

Lemma rev_app_rev_app (s t u : string) :
  String.rev_app (String.rev_app s t) u = String.rev_app t (s +:+ u).
Proof.
  revert t u. induction s as [|c s IH]; intros t u; [done|].
  simpl. by rewrite IH.
Qed.

Lemma rev_rev_app (s : string) :
  String.rev (String.rev_app s EmptyString) = s.
Proof. unfold String.rev. rewrite rev_app_rev_app. simpl. apply str_app_nil_r. Qed.

Lemma all_bytes_app (p : ascii → bool) (s t : string) :
  Spec.all_bytes p (s +:+ t) = Spec.all_bytes p s && Spec.all_bytes p t.
Proof.
  induction s as [|c s IH]; [done|].
  rewrite str_app_cons. simpl. by rewrite IH, andb_assoc.
Qed.
(** ** Decimal notation *)

Lemma MaxUint64_eq : GoInt.MaxUint64 = 18446744073709551615.
Proof. reflexivity. Qed.

Lemma MaxInt_eq : GoInt.MaxInt = 9223372036854775807.
Proof. reflexivity. Qed.

Lemma is_digit_range (c : ascii) :
  Strconv.is_digit c = true → 0 ≤ Strconv.digit_value c ≤ 9.
Proof. unfold Strconv.is_digit, Strconv.digit_value. lia. Qed.

Lemma is_digit_not_sign (c : ascii) :
  Strconv.is_digit c = true → c ≠ "-"%char ∧ c ≠ "+"%char.
Proof. intros H. split; intros Heq; subst c; discriminate H. Qed.

Lemma digit_char_spec (d : Z) :
  0 ≤ d ≤ 9 →
  Strconv.is_digit (Strconv.digit_char d) = true
  ∧ Strconv.digit_value (Strconv.digit_char d) = d.
Proof.
  intros Hd.
  assert (d = 0 ∨ d = 1 ∨ d = 2 ∨ d = 3 ∨ d = 4 ∨ d = 5 ∨ d = 6 ∨ d = 7
          ∨ d = 8 ∨ d = 9) as Hcases by lia.
  repeat (destruct Hcases as [Hcase|Hcases]; [subst d; by vm_compute|]).
  subst d. by vm_compute.
Qed.

Lemma is_number_spec (s : string) :
  Spec.is_number s = true
  ↔ s ≠ EmptyString ∧ Spec.all_bytes Strconv.is_digit s = true.
Proof.
  destruct s; simpl.
  - split; [done|by intros [? _]].
  - split; [intros H; by split|by intros [_ H]].
Qed.

Lemma is_number_snoc (s : string) (c : ascii) :
  Spec.all_bytes Strconv.is_digit s = true → Strconv.is_digit c = true →
  Spec.is_number (s +:+ String c EmptyString) = true.
Proof.
  intros Hs Hc. apply is_number_spec. split.
  - by destruct s.
  - rewrite all_bytes_app, Hs. simpl. by rewrite Hc.
Qed.

Lemma decimal_value_app (s t : string) (n : Z) :
  Spec.decimal_value (s +:+ t) n = Spec.decimal_value t (Spec.decimal_value s n).
Proof.
  revert n. induction s as [|c s IH]; intros n; [done|].
  rewrite str_app_cons. simpl. apply IH.
Qed.

Lemma decimal_value_ge (s : string) (n : Z) :
  Spec.all_bytes Strconv.is_digit s = true → 0 ≤ n →
  n ≤ Spec.decimal_value s n.
Proof.
  revert n. induction s as [|c s IH]; intros n Hs Hn; simpl in *; [lia|].
  apply andb_true_iff in Hs as [Hc Hs]. apply is_digit_range in Hc.
  specialize (IH (n * 10 + Strconv.digit_value c) Hs). lia.
Qed.

(** [ParseUint] on digits: the value, or the largest one past the range. *)
Lemma parseUint_loop_digits (s : string) (n : Z) :
  Spec.all_bytes Strconv.is_digit s = true → 0 ≤ n ≤ GoInt.MaxUint64 →
  Strconv.parseUint_loop s n
  = if Spec.decimal_value s n <=? GoInt.MaxUint64
    then (Spec.decimal_value s n, None)
    else (GoInt.MaxUint64, Some Strconv.ErrRange).
Proof.
  revert n. induction s as [|c s IH]; intros n Hs Hn; simpl in *.
  - rewrite (proj2 (Z.leb_le _ _)); [done|lia].
  - apply andb_true_iff in Hs as [Hc Hs]. rewrite Hc.
    pose proof (is_digit_range c Hc) as Hd.
    pose proof (decimal_value_ge s (n * 10 + Strconv.digit_value c) Hs) as Hge.
    rewrite MaxUint64_eq in *.
    change (18446744073709551615 / 10 + 1) with 1844674407370955162.
    destruct (Z.leb_spec 1844674407370955162 n).
    { rewrite (proj2 (Z.leb_gt _ _)); [done|lia]. }
    destruct (Z.ltb_spec 18446744073709551615 (n * 10 + Strconv.digit_value c)).
    { rewrite (proj2 (Z.leb_gt _ _)); [done|lia]. }
    rewrite IH by (done || lia). done.
Qed.

(** [Atoi] on a well-formed number: its value, or [MaxInt] when the value
    does not fit an [int]. *)
Lemma Atoi_number (s : string) :
  Spec.is_number s = true →
  Strconv.Atoi s
  = if Spec.decimal_value s 0 <=? GoInt.MaxInt
    then (Spec.decimal_value s 0, None)
    else (GoInt.MaxInt, Some Strconv.ErrRange).
Proof.
  intros Hs. destruct s as [|c s]; [done|].
  pose proof Hs as Hd. simpl in Hd. apply andb_true_iff in Hd as [Hc Hd].
  destruct (is_digit_not_sign c Hc) as [Hminus Hplus].
  unfold Strconv.Atoi, Strconv.ParseInt.
  rewrite !bool_decide_eq_false_2 by done. simpl orb. cbv iota.
  unfold Strconv.ParseUint.
  rewrite parseUint_loop_digits by (done || rewrite MaxUint64_eq; lia).
  rewrite MaxUint64_eq, MaxInt_eq.
  change (2 ^ (GoInt.intSize - 1)) with 9223372036854775808.
  generalize (Spec.decimal_value (String c s) 0). intros v.
  destruct (Z.leb_spec v 18446744073709551615);
    destruct (Z.leb_spec v 9223372036854775807);
    destruct (Z.leb_spec 9223372036854775808 v);
    destruct (Z.leb_spec 9223372036854775808 18446744073709551615);
    simpl; (done || lia).
Qed.

Lemma Atoi_number_value (s : string) :
  Spec.is_number s = true →
  (Strconv.Atoi s).1 = Z.min (Spec.decimal_value s 0) GoInt.MaxInt.
Proof.
  intros Hs. rewrite Atoi_number by done.
  destruct (Z.leb_spec (Spec.decimal_value s 0) GoInt.MaxInt); simpl; lia.
Qed.

(** [formatBits] writes the decimal notation of [u]. *)
Lemma formatBits_spec (f : nat) (u : Z) (a : string) :
  0 ≤ u < 2 ^ Z.of_nat (S f) →
  ∃ ds, Strconv.formatBits (S f) u a = ds +:+ a
        ∧ Spec.is_number ds = true
        ∧ Spec.decimal_value ds 0 = u.
Proof.
  revert u a. induction f as [|f IH]; intros u a Hu.
  - exists (String (Strconv.digit_char u) EmptyString).
    change (2 ^ Z.of_nat 1) with 2 in Hu.
    simpl. rewrite (proj2 (Z.ltb_lt _ _)) by lia.
    destruct (digit_char_spec u) as [Hd Hv]; [lia|].
    rewrite Hd, Hv. done.
  - remember (S f) as f' eqn:Hf'. simpl.
    destruct (Z.ltb_spec u 10) as [Hlt|Hge].
    + exists (String (Strconv.digit_char u) EmptyString).
      destruct (digit_char_spec u) as [Hd Hv]; [lia|].
      simpl. rewrite Hd, Hv. done.
    + subst f'.
      destruct (IH (u / 10) (String (Strconv.digit_char (u mod 10)) a))
        as (ds & Heq & Hnum & Hval).
      { split; [apply Z.div_pos; lia|].
        apply Z.div_lt_upper_bound; [lia|].
        rewrite (Nat2Z.inj_succ (S f)), Z.pow_succ_r in Hu by lia. lia. }
      destruct (digit_char_spec (u mod 10)) as [Hd Hv].
      { pose proof (Z.mod_pos_bound u 10). lia. }
      exists (ds +:+ String (Strconv.digit_char (u mod 10)) EmptyString).
      split; [by rewrite Heq, str_app_assoc|]. split.
      * apply is_number_snoc; [by apply is_number_spec in Hnum as [_ ?]|done].
      * rewrite decimal_value_app, Hval. simpl. rewrite Hv.
        pose proof (Z.div_mod u 10). lia.
Qed.

Lemma format_uint_spec (u : Z) :
  0 ≤ u →
  Spec.is_number (Strconv.format_uint u) = true
  ∧ Spec.decimal_value (Strconv.format_uint u) 0 = u.
Proof.
  intros Hu. unfold Strconv.format_uint.
  destruct (formatBits_spec (Z.to_nat (Z.log2 u)) u EmptyString)
    as (ds & Heq & Hnum & Hval).
  { rewrite Nat2Z.inj_succ, Z2Nat.id by apply Z.log2_nonneg.
    destruct (decide (u = 0)) as [->|]; [done|].
    pose proof (Z.log2_spec u). lia. }
  rewrite Heq, str_app_nil_r. done.
Qed.

Lemma Itoa_nonneg (n : Z) : 0 ≤ n → Strconv.Itoa n = Strconv.format_uint n.
Proof. intros Hn. unfold Strconv.Itoa. by rewrite (proj2 (Z.ltb_ge _ _)). Qed.

Lemma Itoa_number (n : Z) :
  0 ≤ n →
  Spec.is_number (Strconv.Itoa n) = true
  ∧ Spec.decimal_value (Strconv.Itoa n) 0 = n.
Proof. intros Hn. rewrite Itoa_nonneg by done. by apply format_uint_spec. Qed.

(** What [Atoi] reads back from the decimal notation of [n]. *)
Lemma Atoi_Itoa (n : Z) :
  0 ≤ n → (Strconv.Atoi (Strconv.Itoa n)).1 = Z.min n GoInt.MaxInt.
Proof.
  intros Hn. destruct (Itoa_number n Hn) as [Hnum Hval].
  by rewrite Atoi_number_value, Hval.
Qed.
(** ** Regular expressions: the matcher decides the language *)

Import Regexp.

Lemma lang_void_inv (s : string) : ¬ Spec.lang Void s.
Proof. inversion 1. Qed.

Lemma lang_eps_inv (s : string) : Spec.lang Eps s → s = EmptyString.
Proof. by inversion 1. Qed.

Lemma lang_class_inv (p : ascii → bool) (s : string) :
  Spec.lang (Class p) s → ∃ c, s = String c EmptyString ∧ p c = true.
Proof. inversion 1; eauto. Qed.

Lemma lang_cat_inv (r1 r2 : regex) (s : string) :
  Spec.lang (Cat r1 r2) s →
  ∃ s1 s2, s = s1 +:+ s2 ∧ Spec.lang r1 s1 ∧ Spec.lang r2 s2.
Proof. inversion 1; eauto. Qed.

Lemma lang_alt_inv (r1 r2 : regex) (s : string) :
  Spec.lang (Alt r1 r2) s → Spec.lang r1 s ∨ Spec.lang r2 s.
Proof. inversion 1; eauto. Qed.

Lemma nullable_lang (r : regex) :
  nullable r = true ↔ Spec.lang r EmptyString.
Proof.
  induction r as [| |p|r1 IH1 r2 IH2|r1 IH1 r2 IH2|r IH]; simpl.
  - split; [done|]. intros H. by apply lang_void_inv in H.
  - split; [constructor|done].
  - split; [done|]. intros H. by apply lang_class_inv in H as (c & ? & _).
  - rewrite andb_true_iff, IH1, IH2. split.
    + intros [H1 H2]. apply (Spec.lang_cat _ _ EmptyString EmptyString H1 H2).
    + intros H. apply lang_cat_inv in H as (s1 & s2 & Heq & H1 & H2).
      symmetry in Heq. apply str_app_eq_nil in Heq as [-> ->]. done.
  - rewrite orb_true_iff, IH1, IH2. split.
    + intros [H|H]; [by apply Spec.lang_alt_l|by apply Spec.lang_alt_r].
    + apply lang_alt_inv.
  - split; [constructor|done].
Qed.

Lemma lang_star_cons_inv (r : regex) (c : ascii) (t s : string) :
  Spec.lang (Star r) t → t = String c s →
  ∃ s1 s2, s = s1 +:+ s2 ∧ Spec.lang r (String c s1) ∧ Spec.lang (Star r) s2.
Proof.
  intros H. remember (Star r) as r' eqn:Hr'. revert Hr'.
  induction H as [| | | | | |r0 s1 s2 H1 _ H2 IH2]; intros Hr' Ht; try done.
  injection Hr' as ->. destruct s1 as [|x s1].
  - apply IH2; [done|]. by rewrite str_app_nil_l in Ht.
  - rewrite str_app_cons in Ht. injection Ht as -> <-. eauto.
Qed.

Lemma deriv_lang (c : ascii) (r : regex) (s : string) :
  Spec.lang (deriv c r) s ↔ Spec.lang r (String c s).
Proof.
  revert s.
  induction r as [| |p|r1 IH1 r2 IH2|r1 IH1 r2 IH2|r IH]; intros s; simpl.
  - split; intros H; by apply lang_void_inv in H.
  - split; intros H; [by apply lang_void_inv in H|by apply lang_eps_inv in H].
  - split.
    + destruct (p c) eqn:Hp; intros H; [|by apply lang_void_inv in H].
      apply lang_eps_inv in H as ->. by constructor.
    + intros H. apply lang_class_inv in H as (x & Heq & Hp).
      injection Heq as -> ->. rewrite Hp. constructor.
  - split.
    + intros H.
      assert (Spec.lang (Cat (deriv c r1) r2) s
              ∨ (nullable r1 = true ∧ Spec.lang (deriv c r2) s)) as [H'|[Hn H']].
      { destruct (nullable r1); [|by left].
        apply lang_alt_inv in H as [H|H]; [by left|by right]. }
      * apply lang_cat_inv in H' as (s1 & s2 & -> & H1 & H2).
        apply IH1 in H1.
        apply (Spec.lang_cat _ _ (String c s1) s2 H1 H2).
      * apply nullable_lang in Hn. apply IH2 in H'.
        apply (Spec.lang_cat _ _ EmptyString (String c s) Hn H').
    + intros H. apply lang_cat_inv in H as (s1 & s2 & Heq & H1 & H2).
      destruct s1 as [|x s1].
      * rewrite str_app_nil_l in Heq. subst s2.
        apply nullable_lang in H1. rewrite H1.
        apply Spec.lang_alt_r. by apply IH2.
      * rewrite str_app_cons in Heq. injection Heq as <- ->.
        assert (Spec.lang (Cat (deriv c r1) r2) (s1 +:+ s2)) as H'.
        { constructor; [by apply IH1|done]. }
        destruct (nullable r1); [by apply Spec.lang_alt_l|done].
  - split.
    + intros H. apply lang_alt_inv in H as [H|H].
      * apply Spec.lang_alt_l. by apply IH1.
      * apply Spec.lang_alt_r. by apply IH2.
    + intros H. apply lang_alt_inv in H as [H|H].
      * apply Spec.lang_alt_l. by apply IH1.
      * apply Spec.lang_alt_r. by apply IH2.
  - split.
    + intros H. apply lang_cat_inv in H as (s1 & s2 & -> & H1 & H2).
      apply IH in H1.
      apply (Spec.lang_star_app _ (String c s1) s2 H1 H2).
    + intros H.
      destruct (lang_star_cons_inv r c _ s H eq_refl) as (s1 & s2 & -> & H1 & H2).
      constructor; [by apply IH|done].
Qed.

Theorem matches_lang (r : regex) (s : string) :
  matches r s = true ↔ Spec.lang r s.
Proof.
  revert r. induction s as [|c s IH]; intros r; simpl.
  - apply nullable_lang.
  - rewrite IH. apply deriv_lang.
Qed.

(** The languages of the pieces the patterns are made of. *)

Lemma lang_lit (c : ascii) (s : string) :
  Spec.lang (Lit c) s ↔ s = String c EmptyString.
Proof.
  split.
  - intros H. apply lang_class_inv in H as (x & -> & Hx).
    by apply bool_decide_eq_true in Hx as ->.
  - intros ->. constructor. by apply bool_decide_eq_true.
Qed.

Lemma lang_star_class (p : ascii → bool) (s : string) :
  Spec.lang (Star (Class p)) s ↔ Spec.all_bytes p s = true.
Proof.
  split.
  - intros H. remember (Star (Class p)) as r eqn:Hr. revert Hr.
    induction H as [| | | | | |r0 s1 s2 H1 _ H2 IH2]; intros Hr; try done.
    injection Hr as ->. apply lang_class_inv in H1 as (c & -> & Hc).
    rewrite str_app_cons, str_app_nil_l. simpl. by rewrite Hc, IH2.
  - induction s as [|c s IH]; simpl; intros H; [constructor|].
    apply andb_true_iff in H as [Hc Hs].
    apply (Spec.lang_star_app _ (String c EmptyString) s); [by constructor|auto].
Qed.

Lemma lang_plus_class (p : ascii → bool) (s : string) :
  Spec.lang (Plus (Class p)) s
  ↔ s ≠ EmptyString ∧ Spec.all_bytes p s = true.
Proof.
  unfold Plus. split.
  - intros H. apply lang_cat_inv in H as (s1 & s2 & -> & H1 & H2).
    apply lang_class_inv in H1 as (c & -> & Hc). apply lang_star_class in H2.
    rewrite str_app_cons, str_app_nil_l. simpl. by rewrite Hc, H2.
  - intros [Hne H]. destruct s as [|c s]; [done|]. simpl in H.
    apply andb_true_iff in H as [Hc Hs].
    apply (Spec.lang_cat _ _ (String c EmptyString) s); [by constructor|].
    by apply lang_star_class.
Qed.

Lemma lang_number (s : string) :
  Spec.lang (Plus digit) s ↔ Spec.is_number s = true.
Proof. unfold digit. by rewrite lang_plus_class, is_number_spec. Qed.

(** A pattern anchored at both ends matches the whole text. *)
Lemma MatchString_anchored (r : regex) (s : string) :
  MatchString (MustCompile true r true) s = true ↔ Spec.lang r s.
Proof.
  unfold MatchString. simpl. rewrite matches_lang. split.
  - intros H. apply lang_cat_inv in H as (s1 & s2 & -> & H1 & H2).
    apply lang_eps_inv in H1 as ->.
    apply lang_cat_inv in H2 as (s2' & s3 & -> & H2 & H3).
    apply lang_eps_inv in H3 as ->. by rewrite str_app_nil_l, str_app_nil_r.
  - intros H. rewrite <-(str_app_nil_l s). constructor; [constructor|].
    rewrite <-(str_app_nil_r s). constructor; [done|constructor].
Qed.

Lemma rangeRegex_spec (q : string) :
  MatchString Annotation.rangeRegex q = true
  ↔ ∃ n m, q = n +:+ "-" +:+ m
           ∧ Spec.is_number n = true ∧ Spec.is_number m = true.
Proof.
  unfold Annotation.rangeRegex. rewrite MatchString_anchored. split.
  - intros H. apply lang_cat_inv in H as (n & t & -> & Hn & H).
    apply lang_cat_inv in H as (h & m & -> & Hh & Hm).
    apply lang_lit in Hh as ->. apply lang_number in Hn, Hm. eauto.
  - intros (n & m & -> & Hn & Hm). apply lang_number in Hn, Hm.
    constructor; [done|]. constructor; [by apply lang_lit|done].
Qed.

Lemma exactNumberRegex_spec (q : string) :
  MatchString Annotation.exactNumberRegex q = true ↔ Spec.is_number q = true.
Proof.
  unfold Annotation.exactNumberRegex.
  by rewrite MatchString_anchored, lang_number.
Qed.

Lemma lowerBoundRegex_spec (q : string) :
  MatchString Annotation.lowerBoundRegex q = true
  ↔ ∃ n, q = n +:+ "-" ∧ Spec.is_number n = true.
Proof.
  unfold Annotation.lowerBoundRegex. rewrite MatchString_anchored. split.
  - intros H. apply lang_cat_inv in H as (n & h & -> & Hn & Hh).
    apply lang_lit in Hh as ->. apply lang_number in Hn. eauto.
  - intros (n & -> & Hn). apply lang_number in Hn.
    constructor; [done|by apply lang_lit].
Qed.

Lemma upperBoundRegex_spec (q : string) :
  MatchString Annotation.upperBoundRegex q = true
  ↔ ∃ m, q = "-" +:+ m ∧ Spec.is_number m = true.
Proof.
  unfold Annotation.upperBoundRegex. rewrite MatchString_anchored. split.
  - intros H. apply lang_cat_inv in H as (h & m & -> & Hh & Hm).
    apply lang_lit in Hh as ->. apply lang_number in Hm. eauto.
  - intros (m & -> & Hm). apply lang_number in Hm.
    constructor; [by apply lang_lit|done].
Qed.
(** ** The ordinal qualifier matcher *)

Lemma all_digits_no_hyphen (s t : string) :
  Spec.all_bytes Strconv.is_digit (s +:+ "-" +:+ t) = false.
Proof.
  rewrite all_bytes_app. apply andb_false_iff. right. done.
Qed.

Lemma split_go_digits (d r cur : string) :
  Spec.all_bytes Strconv.is_digit d = true →
  Strings.split_go "-" (d +:+ r) O cur
  = Strings.split_go "-" r O (String.rev_app d cur).
Proof.
  revert cur. induction d as [|c d IH]; intros cur Hd; [done|].
  simpl in Hd. apply andb_true_iff in Hd as [Hc Hd].
  destruct (is_digit_not_sign c Hc) as [Hminus _].
  rewrite str_app_cons. simpl. rewrite decide_False by done. by apply IH.
Qed.

(** The two bounds of a range are the two pieces [strings.Split] finds. *)
Lemma Split_range (n m : string) :
  Spec.is_number n = true → Spec.is_number m = true →
  Strings.Split (n +:+ "-" +:+ m) "-" = [n; m].
Proof.
  intros Hn Hm.
  apply is_number_spec in Hn as [_ Hn]. apply is_number_spec in Hm as [_ Hm].
  unfold Strings.Split. rewrite decide_False by done.
  rewrite split_go_digits by done.
  rewrite str_app_cons, str_app_nil_l. simpl.
  rewrite <-(str_app_nil_r m) at 1. rewrite split_go_digits by done.
  simpl. by rewrite !rev_rev_app.
Qed.

Lemma TrimSuffix_hyphen (n : string) : Strings.TrimSuffix (n +:+ "-") "-" = n.
Proof.
  unfold Strings.TrimSuffix, Strings.HasSuffix, Strings.len.
  rewrite str_length_app. simpl String.length.
  replace (String.length n + 1 - 1)%nat with (String.length n) by lia.
  rewrite drop_app_length, take_app_length.
  rewrite bool_decide_eq_true_2 by done.
  by rewrite (proj2 (Z.leb_le _ _)) by lia.
Qed.

Section Matcher.

Variable ordinal : Z.


Lemma rangeRegex_number (n : string) :
  Spec.is_number n = true →
  MatchString Annotation.rangeRegex n = false.
Proof.
  intros Hn. apply not_true_is_false. intros H.
  apply rangeRegex_spec in H as (n' & m' & -> & _ & _).
  apply is_number_spec in Hn as [_ Hn].
  by rewrite all_digits_no_hyphen in Hn.
Qed.

Lemma CommonPodQualifier_exact (n : string) :
  Spec.is_number n = true →
  Annotation.CommonPodQualifier ordinal n
  = Ret (ordinal =? Z.min (Spec.decimal_value n 0) GoInt.MaxInt).
Proof.
  intros Hn. unfold Annotation.CommonPodQualifier.
  rewrite decide_False by (by destruct n).
  rewrite rangeRegex_number by done.
  rewrite (proj2 (exactNumberRegex_spec _)) by done.
  by rewrite Atoi_number_value.
Qed.

(** The matcher returns, whatever the qualifier. *)
Lemma CommonPodQualifier_total (qualifier : string) :
  ∃ b, Annotation.CommonPodQualifier ordinal qualifier = Ret b.
Proof.
  unfold Annotation.CommonPodQualifier.
  destruct (decide (qualifier = EmptyString)) as [_|_]; [eauto|].
  destruct (MatchString Annotation.rangeRegex qualifier) eqn:Hrange.
  { apply rangeRegex_spec in Hrange as (n & m & -> & Hn & Hm).
    rewrite Split_range by done. simpl. eauto. }
  repeat (case_match; eauto).
Qed.

(** A qualifier of none of the forms is matched by none of the patterns. *)
Lemma CommonPodQualifier_no_form (qualifier : string) :
  ¬ Spec.QualifierForm qualifier →
  Annotation.CommonPodQualifier ordinal qualifier = Ret false.
Proof.
  intros Hform. unfold Annotation.CommonPodQualifier.
  destruct (decide (qualifier = EmptyString)) as [->|_].
  { destruct Hform. constructor. }
  destruct (MatchString Annotation.rangeRegex qualifier) eqn:Hrange.
  { apply rangeRegex_spec in Hrange as (n & m & -> & Hn & Hm).
    destruct Hform. by constructor. }
  destruct (MatchString Annotation.exactNumberRegex qualifier) eqn:Hexact.
  { apply exactNumberRegex_spec in Hexact. destruct Hform. by constructor. }
  destruct (MatchString Annotation.lowerBoundRegex qualifier) eqn:Hlower.
  { apply lowerBoundRegex_spec in Hlower as (n & -> & Hn).
    destruct Hform. by constructor. }
  destruct (MatchString Annotation.upperBoundRegex qualifier) eqn:Hupper.
  { apply upperBoundRegex_spec in Hupper as (m & -> & Hm).
    destruct Hform. by constructor. }
  done.
Qed.

End Matcher.
(** The digits in front of the first hyphen are determined. *)
Lemma digits_hyphen_inj (n n' r r' : string) :
  Spec.all_bytes Strconv.is_digit n = true →
  Spec.all_bytes Strconv.is_digit n' = true →
  n +:+ "-" +:+ r = n' +:+ "-" +:+ r' → n = n' ∧ r = r'.
Proof.
  revert n'. induction n as [|c n IH]; intros [|c' n'] Hn Hn' Heq;
    repeat (rewrite str_app_cons in Heq || rewrite str_app_nil_l in Heq).
  - by injection Heq as ->.
  - injection Heq as <- _.
    by simpl in Hn'.
  - injection Heq as -> _.
    by simpl in Hn.
  - injection Heq as -> Heq.
    simpl in Hn, Hn'. apply andb_true_iff in Hn as [_ Hn].
    apply andb_true_iff in Hn' as [_ Hn'].
    destruct (IH n' Hn Hn') as [-> ->]; [|done].
    by repeat (rewrite str_app_cons || rewrite str_app_nil_l).
Qed.

Section MatcherBounds.

Variable ordinal : Z.

Lemma CommonPodQualifier_lower (n : string) :
  Spec.is_number n = true →
  Annotation.CommonPodQualifier ordinal (n +:+ "-")
  = Ret (Z.min (Spec.decimal_value n 0) GoInt.MaxInt <=? ordinal).
Proof.
  intros Hn. pose proof Hn as [_ Hdigits]%is_number_spec.
  unfold Annotation.CommonPodQualifier.
  rewrite decide_False by (by destruct n).
  assert (MatchString Annotation.rangeRegex (n +:+ "-") = false) as ->.
  { apply not_true_is_false. intros H.
    apply rangeRegex_spec in H as (n' & m' & Heq & Hn' & Hm').
    apply is_number_spec in Hn' as [_ Hn'].
    rewrite <-(str_app_nil_r (n +:+ "-")), str_app_assoc in Heq.
    apply digits_hyphen_inj in Heq as [_ <-]; done. }
  assert (MatchString Annotation.exactNumberRegex (n +:+ "-") = false) as ->.
  { apply not_true_is_false. intros H.
    apply exactNumberRegex_spec, is_number_spec in H as [_ H].
    rewrite all_bytes_app, andb_true_iff in H. by destruct H. }
  rewrite (proj2 (lowerBoundRegex_spec _)) by eauto.
  by rewrite TrimSuffix_hyphen, Atoi_number_value.
Qed.

Lemma CommonPodQualifier_upper (m : string) :
  Spec.is_number m = true →
  Annotation.CommonPodQualifier ordinal ("-" +:+ m)
  = Ret (ordinal <=? Z.min (Spec.decimal_value m 0) GoInt.MaxInt).
Proof.
  intros Hm. unfold Annotation.CommonPodQualifier.
  rewrite decide_False by done.
  assert (MatchString Annotation.rangeRegex ("-" +:+ m) = false) as ->.
  { apply not_true_is_false. intros H.
    apply rangeRegex_spec in H as ([|c n'] & m' & Heq & Hn' & _); [done|].
    rewrite str_app_cons in Heq. injection Heq as <- _. done. }
  assert (MatchString Annotation.exactNumberRegex ("-" +:+ m) = false) as ->.
  { apply not_true_is_false. intros H.
    by apply exactNumberRegex_spec in H. }
  assert (MatchString Annotation.lowerBoundRegex ("-" +:+ m) = false) as ->.
  { apply not_true_is_false. intros H.
    apply lowerBoundRegex_spec in H as ([|c n'] & Heq & Hn'); [done|].
    rewrite str_app_cons in Heq. injection Heq as <- _. done. }
  rewrite (proj2 (upperBoundRegex_spec _)) by eauto.
  by rewrite TrimPrefix_app, Atoi_number_value.
Qed.

End MatcherBounds.




(** C2, as amended.  For every ordinal [o] of type [int], the matcher
    returns true on the empty qualifier and on the decimal notation of
    [o]; when [o < MaxInt] it returns false on the decimal notation of
    [o + 1]. *)
Theorem C2_exact_qualifier (o : Z) :
  0 ≤ o ≤ GoInt.MaxInt →
  Annotation.CommonPodQualifier o EmptyString = Ret true
  ∧ Annotation.CommonPodQualifier o (Strconv.Itoa o) = Ret true
  ∧ (o < GoInt.MaxInt →
     Annotation.CommonPodQualifier o (Strconv.Itoa (o + 1)) = Ret false).
Proof.
  intros Ho. split; [done|]. split.
  - destruct (Itoa_number o) as [Hn Hv]; [lia|].
    rewrite CommonPodQualifier_exact, Hv by done. f_equal.
    apply Z.eqb_eq. lia.
  - intros Hlt. destruct (Itoa_number (o + 1)) as [Hn Hv]; [lia|].
    rewrite CommonPodQualifier_exact, Hv by done. f_equal.
    apply Z.eqb_neq. lia.
Qed.

Lemma C2_exact_qualifier_witness :
  0 ≤ 7 ≤ GoInt.MaxInt
  ∧ Annotation.CommonPodQualifier 7 "7" = Ret true
  ∧ Annotation.CommonPodQualifier 7 "8" = Ret false.
Proof.
  assert (0 ≤ 7 ≤ GoInt.MaxInt) as Ho by (rewrite MaxInt_eq; lia).
  split; [exact Ho|]. split.
  - exact (proj1 (proj2 (C2_exact_qualifier 7 Ho))).
  - refine (proj2 (proj2 (C2_exact_qualifier 7 Ho)) _). rewrite MaxInt_eq. lia.
Defined.

(** The claim as stated fails at the last ordinal: the decimal notation of
    [MaxInt + 1] is read back as [MaxInt].  The same holds for the
    notation of the wrapped sum, which is taken as an upper bound. *)
Lemma C2_counterexample :
  0 ≤ GoInt.MaxInt
  ∧ Strconv.Itoa (GoInt.MaxInt + 1) = "9223372036854775808"
  ∧ Annotation.CommonPodQualifier GoInt.MaxInt "9223372036854775808"
    = Ret true
  ∧ Strconv.Itoa (GoInt.int (GoInt.MaxInt + 1)) = "-9223372036854775808"
  ∧ Annotation.CommonPodQualifier GoInt.MaxInt "-9223372036854775808"
    = Ret true.
Proof. repeat split; by vm_compute. Qed.

(** C3.  A qualifier that has none of the forms of the grammar (empty,
    [N], [N-M], [N-], [-M], with [N] and [M] made of one decimal digit or
    more) matches no ordinal, and the matcher returns a boolean on every
    ordinal and every string: it never panics. *)
Theorem C3_other_qualifiers (o : Z) (qualifier : string) :
  (¬ Spec.QualifierForm qualifier →
   Annotation.CommonPodQualifier o qualifier = Ret false)
  ∧ (∃ b, Annotation.CommonPodQualifier o qualifier = Ret b).
Proof.
  split; [apply CommonPodQualifier_no_form|apply CommonPodQualifier_total].
Qed.

Lemma C3_other_qualifiers_witness :
  ¬ Spec.QualifierForm "x" ∧ Annotation.CommonPodQualifier 0 "x" = Ret false.
Proof.
  assert (¬ Spec.QualifierForm "x") as Hform.
  { intros H. inversion H as [|n Hn Heq|n m Hn Hm Heq|n Hn Heq|m Hm Heq].
    all: try (subst; discriminate).
    all: destruct n as [|c [|c' n]]; discriminate. }
  split; [exact Hform|].
  exact (proj1 (C3_other_qualifiers 0 "x") Hform).
Defined.
(** ** The pod identity extractor *)

Lemma find_groups_sound (g1 : regex) (c : ascii) (g2 : regex)
  (s m1 m2 : string) :
  find_groups g1 c g2 s = Some (m1, m2) →
  s = m1 +:+ String c m2 ∧ matches g1 m1 = true ∧ matches g2 m2 = true.
Proof.
  revert g1 m1 m2. induction s as [|x s IH]; intros g1 m1 m2 H; [done|].
  simpl in H.
  destruct (find_groups (deriv x g1) c g2 s) as [[m1' m2']|] eqn:Hrec.
  - injection H as <- <-. destruct (IH _ _ _ Hrec) as (-> & H1 & H2). done.
  - destruct (nullable g1) eqn:Hnull; [|done].
    destruct (bool_decide (x = c)) eqn:Hx; [|done].
    destruct (matches g2 s) eqn:H2; [|done].
    apply bool_decide_eq_true in Hx as ->. injection H as <- <-. done.
Qed.

Lemma find_groups_complete (g1 : regex) (c : ascii) (g2 : regex)
  (s m1 m2 : string) :
  s = m1 +:+ String c m2 → matches g1 m1 = true → matches g2 m2 = true →
  is_Some (find_groups g1 c g2 s).
Proof.
  revert g1 m1. induction s as [|x s IH]; intros g1 m1 Hs H1 H2.
  - by destruct m1.
  - simpl. destruct m1 as [|y m1].
    + rewrite str_app_nil_l in Hs. injection Hs as -> ->.
      simpl in H1. rewrite H1, H2, bool_decide_eq_true_2 by done.
      destruct (find_groups (deriv c g1) c g2 m2) as [[??]|]; eauto.
    + rewrite str_app_cons in Hs. injection Hs as -> ->.
      destruct (IH (deriv y g1) m1 eq_refl H1 H2) as [[m1' m2'] ->]. eauto.
Qed.

(** The groups are a name that is not empty and the digits behind the
    last hyphen. *)
Lemma statefulsetPodNameRegex_Some (l : string) (matches : list string) :
  Identifier.statefulsetPodNameRegex l = Some matches →
  ∃ name digits, matches = [l; name; digits] ∧ Spec.PodNameForm l name digits.
Proof.
  unfold Identifier.statefulsetPodNameRegex, FindStringSubmatch.
  destruct (find_groups _ _ _ l) as [[name digits]|] eqn:Hfind; [|done].
  intros [= <-]. exists name, digits. split; [done|].
  apply find_groups_sound in Hfind as (-> & Hname & Hdigits).
  apply matches_lang, lang_plus_class in Hname as [Hne _].
  apply matches_lang, lang_number in Hdigits. done.
Qed.

Section Extract.

Variable accessor : Corev1.Pod.t.

(** A label that has not the form of a pod name is an invalid label. *)
Lemma LabelSSPodIdentifier_invalid (l : string) :
  Corev1.Pod.Labels accessor !! podNameLabel = Some l →
  (∀ name digits, ¬ Spec.PodNameForm l name digits) →
  Identifier.LabelSSPodIdentifier accessor
  = Ret (EmptyString, -1, Some Identifier.ErrInvalidLabelValue).
Proof.
  intros Hl Hform. unfold Identifier.LabelSSPodIdentifier. rewrite Hl.
  destruct (Identifier.statefulsetPodNameRegex l) as [ms|] eqn:Hre; [|done].
  apply statefulsetPodNameRegex_Some in Hre as (name & digits & _ & H).
  by destruct (Hform name digits).
Qed.

Lemma LabelSSPodIdentifier_missing :
  Corev1.Pod.Labels accessor !! podNameLabel = None →
  Identifier.LabelSSPodIdentifier accessor
  = Ret (EmptyString, -1, Some Identifier.ErrMissingLabel).
Proof. intros Hl. unfold Identifier.LabelSSPodIdentifier. by rewrite Hl. Qed.

(** On success the name and the ordinal are the two parts of the label. *)
Lemma LabelSSPodIdentifier_success (ssName : string) (ordinal : Z) :
  Identifier.LabelSSPodIdentifier accessor = Ret (ssName, ordinal, None) →
  ∃ l digits,
    Corev1.Pod.Labels accessor !! podNameLabel = Some l
    ∧ Spec.PodNameForm l ssName digits
    ∧ ordinal = Spec.decimal_value digits 0
    ∧ 0 ≤ ordinal ≤ GoInt.MaxInt.
Proof.
  unfold Identifier.LabelSSPodIdentifier.
  destruct (Corev1.Pod.Labels accessor !! podNameLabel) as [l|]; [|done].
  destruct (Identifier.statefulsetPodNameRegex l) as [ms|] eqn:Hre; [|done].
  apply statefulsetPodNameRegex_Some in Hre as (name & digits & -> & Hform).
  simpl. pose proof Hform as (_ & _ & Hnum).
  rewrite Atoi_number by done.
  destruct (Z.leb_spec (Spec.decimal_value digits 0) GoInt.MaxInt) as [Hle|];
    [|done].
  intros [= <- <-]. exists l, digits.
  split; [done|]. split; [done|]. split; [done|]. split; [|done].
  apply is_number_spec in Hnum as [_ Hnum].
  by apply (decimal_value_ge digits 0).
Qed.

(** The extractor returns, whatever the labels. *)
Lemma LabelSSPodIdentifier_total :
  ∃ r, Identifier.LabelSSPodIdentifier accessor = Ret r.
Proof.
  unfold Identifier.LabelSSPodIdentifier.
  destruct (Corev1.Pod.Labels accessor !! podNameLabel) as [l|]; [|eauto].
  destruct (Identifier.statefulsetPodNameRegex l) as [ms|] eqn:Hre; [|eauto].
  apply statefulsetPodNameRegex_Some in Hre as (name & digits & -> & Hform).
  simpl. repeat (case_match; eauto).
Qed.

End Extract.

(** A label of the form of a pod name is one that a search for the
    groups, with any byte allowed in the name, finds. *)
Lemma PodNameForm_found (l name digits : string) :
  Spec.PodNameForm l name digits →
  is_Some (find_groups (Plus any_byte) "-" (Plus digit) l).
Proof.
  intros (-> & Hne & Hdigits).
  apply (find_groups_complete _ _ _ _ name digits); [done| |].
  - apply matches_lang, lang_plus_class. split; [done|].
    clear. by induction name.
  - by apply matches_lang, lang_number.
Qed.

(** The label [web-1x] has not the form of a pod name. *)
Lemma web_1x_not_PodNameForm (name digits : string) :
  ¬ Spec.PodNameForm "web-1x" name digits.
Proof.
  intros H. apply PodNameForm_found in H.
  vm_compute in H. by destruct H.
Qed.

(** C5.  On the label [web-1x], whose digits are not at the end, the
    extractor that uses the anchored pattern [^(.+)-(\d+)$] returns the
    error for an invalid label, as the claim has it, and so does either
    extractor on [web-x].  The extractor that tests the label with
    [regexp.MatchString] on [.+-\d+] accepts [web-1x]: it returns the
    name [web], the ordinal 0 and no error. *)
Theorem C5_unanchored_pattern_accepts_web_1x :
  Identifier.LabelSSPodIdentifier (Fixture.labelled "web-1x")
  = Ret (EmptyString, -1, Some Identifier.ErrInvalidLabelValue)
  ∧ Identifier.LabelSSPodIdentifier (Fixture.labelled "web-x")
    = Ret (EmptyString, -1, Some Identifier.ErrInvalidLabelValue)
  ∧ IdentifierUnanchored.LabelSSPodIdentifier (Fixture.labelled "web-x")
    = Ret (EmptyString, -1, Some (errorString "unexpected label value"))
  ∧ IdentifierUnanchored.LabelSSPodIdentifier (Fixture.labelled "web-1x")
    = Ret ("web", 0, None).
Proof. repeat split; by vm_compute. Qed.

(** C6.  Both extractors return [web] and 3 on [web-3], [redis-cluster]
    and 0 on [redis-cluster-0], and an error when the label is missing.
    The extractor that drops the error of [strconv.Atoi] succeeds on
    [web-1x] with the ordinal 0, where the label has no digits at its end,
    and on [web-99999999999999999999] with the ordinal [MaxInt], which is
    not the number the digits denote. *)
Theorem C6_unanchored_success_without_digit_run :
  Identifier.LabelSSPodIdentifier (Fixture.labelled "web-3")
  = Ret ("web", 3, None)
  ∧ Identifier.LabelSSPodIdentifier (Fixture.labelled "redis-cluster-0")
    = Ret ("redis-cluster", 0, None)
  ∧ Identifier.LabelSSPodIdentifier Fixture.unlabelled
    = Ret (EmptyString, -1, Some Identifier.ErrMissingLabel)
  ∧ IdentifierUnanchored.LabelSSPodIdentifier (Fixture.labelled "web-3")
    = Ret ("web", 3, None)
  ∧ IdentifierUnanchored.LabelSSPodIdentifier
      (Fixture.labelled "redis-cluster-0")
    = Ret ("redis-cluster", 0, None)
  ∧ IdentifierUnanchored.LabelSSPodIdentifier Fixture.unlabelled
    = Ret (EmptyString, -1, Some (errorString "missing statefulset label"))
  ∧ IdentifierUnanchored.LabelSSPodIdentifier (Fixture.labelled "web-1x")
    = Ret ("web", 0, None)
  ∧ IdentifierUnanchored.LabelSSPodIdentifier
      (Fixture.labelled "web-99999999999999999999")
    = Ret ("web", GoInt.MaxInt, None).
Proof. repeat split; by vm_compute. Qed.

(** ** The mutation pipeline *)

Section Pipeline.

Variable annotations : gmap Annotation.QualifiedName string.
Variable ordinal : Z.

(** The handlers are run one after the other, each on the specification
    the ones before it have left, until one of them fails. *)
Lemma applyHandlers_loop_app (pre post : list Annotation.Handler) (i : Z)
  (spec : Corev1.PodSpec.t) :
  Webhook.applyHandlers_loop (pre ++ post) i annotations spec ordinal
  = r ← Webhook.applyHandlers_loop pre i annotations spec ordinal;
    match r.2 with
    | Some _ => Ret r
    | None =>
        Webhook.applyHandlers_loop post (i + Z.of_nat (length pre))
          annotations r.1 ordinal
    end.
Proof.
  revert i spec. induction pre as [|h pre IH]; intros i spec.
  - simpl. by rewrite Z.add_0_r.
  - replace (i + Z.of_nat (length (h :: pre)))
      with (i + 1 + Z.of_nat (length pre)) by (simpl length; lia).
    rewrite <-app_comm_cons. simpl Webhook.applyHandlers_loop.
    destruct (Annotation.GetParser h annotations) as [config [e|]]; [done|].
    destruct config as [c|]; [|apply IH].
    destruct (Annotation.Mutate h spec ordinal (Some c)) as [[spec' [e|]]|msg];
      simpl; [done|apply IH|done].
Qed.

(** A handler without configuration is passed over: the pipeline goes on
    with the handlers behind it, on the specification as it is. *)
Lemma applyHandlers_loop_absent (h : Annotation.Handler)
  (rest : list Annotation.Handler) (i : Z) (spec : Corev1.PodSpec.t) :
  Annotation.GetParser h annotations = (None, None) →
  Webhook.applyHandlers_loop (h :: rest) i annotations spec ordinal
  = Webhook.applyHandlers_loop rest (i + 1) annotations spec ordinal.
Proof. intros Hparse. simpl. by rewrite Hparse. Qed.

Lemma applyHandlers_loop_absent_between (pre post : list Annotation.Handler)
  (h : Annotation.Handler) (i : Z) (spec : Corev1.PodSpec.t) :
  Annotation.GetParser h annotations = (None, None) →
  Webhook.applyHandlers_loop (pre ++ h :: post) i annotations spec ordinal
  = r ← Webhook.applyHandlers_loop pre i annotations spec ordinal;
    match r.2 with
    | Some _ => Ret r
    | None =>
        Webhook.applyHandlers_loop post (i + Z.of_nat (length pre) + 1)
          annotations r.1 ordinal
    end.
Proof.
  intros Hparse. rewrite applyHandlers_loop_app.
  destruct (Webhook.applyHandlers_loop pre i annotations spec ordinal)
    as [[spec' [e|]]|msg]; simpl; [done| |done].
  by rewrite Hparse.
Qed.

(** The loop inside [Handle] of package [internal] ends at the first
    handler without configuration, whatever handlers come behind it. *)
Lemma handle_loop_absent (Error : error → string)
  (range_annotations : nat → list (string * string) → list (string * string))
  (m : Webhook.PodMutator) (h : Annotation.Handler)
  (rest : list Annotation.Handler) (n : nat) (pod : Corev1.Pod.t) :
  Webhook.collector m (range_annotations n (Corev1.Pod.Annotations pod))
  = Ret annotations →
  Annotation.GetParser h annotations = (None, None) →
  WebhookInternal.handle_loop Error range_annotations (h :: rest) n m pod
    ordinal
  = Ret (Admission.Allowed "can't parse ssarg annotation <nil>").
Proof.
  intros Hcollect Hparse. simpl. by rewrite Hcollect; simpl; rewrite Hparse.
Qed.

End Pipeline.

(** C4.  The webhook holds the volume handler and the host-port handler,
    in this order; the pod has ordinal 2 and the host-port annotation
    only, so that the parser of the volume handler returns no
    configuration and no error.  [Default] and the [Handle] that calls
    [applyHandlers] pass the volume handler over and run the host-port
    handler, as the claim has it.  The loop inside [Handle] of package
    [internal] ends at the volume handler: the pod is admitted as it was
    sent and the host-port handler is neither parsed nor run, in whatever
    order the collector visits the annotations and however the errors
    are worded. *)
Theorem C4_internal_Handle_stops_at_absent :
  Annotation.GetParser (MountHandler.handler Fixture.unmarshalMounts map_to_list)
    {[ {| Annotation.Qualifier := EmptyString; Annotation.Name := "host-port" |}
       := Fixture.hostPortJSON ]}
  = (None, None)
  ∧ Webhook.Default Fixture.mutator Fixture.portPod
    = Ret (Corev1.Pod.with_Spec Fixture.portPod Fixture.portSpecMutated, None)
  ∧ Webhook.Handle Fixture.mutator Fixture.portPod
    = Ret (Admission.PatchResponseFromRaw
             (Corev1.Pod.with_Spec Fixture.portPod Fixture.portSpecMutated))
  ∧ (∀ (Error : error → string)
        (range_annotations :
           nat → list (string * string) → list (string * string)),
       (∀ n l, range_annotations n l ≡ₚ l) →
       WebhookInternal.Handle Error range_annotations Fixture.mutator
         Fixture.portPod
       = Ret (Admission.Allowed "can't parse ssarg annotation <nil>")).
Proof.
  split; [by vm_compute|]. split; [by vm_compute|]. split; [by vm_compute|].
  intros Error range_annotations Hrange.
  unfold WebhookInternal.Handle.
  replace (Webhook.ssPodId Fixture.mutator Fixture.portPod)
    with (Ret ("test-statefulset", 2, @None error) : outcome extracted)
    by (by vm_compute).
  cbn [mbind outcome_bind fst snd Webhook.handlers Fixture.mutator
       WebhookInternal.handle_loop].
  rewrite (proj1 (Permutation_singleton_r
                    (range_annotations O
                       (Corev1.Pod.Annotations Fixture.portPod))
                    ("spoditor.io/host-port", Fixture.hostPortJSON))
             (Hrange O _)).
  by vm_compute.
Qed.
(** ** The qualified annotation collector *)

Lemma LastIndex_no_separator (s : string) :
  Spec.no_separator s = true → Strings.LastIndex s "_" = -1.
Proof.
  induction s as [|c s IH]; intros H; [done|].
  simpl in H. apply andb_true_iff in H as [Hc Hs].
  apply negb_true_iff, bool_decide_eq_false in Hc.
  simpl. rewrite IH by done. simpl. by rewrite decide_False.
Qed.

Lemma LastIndex_nonneg (s : string) : -1 ≤ Strings.LastIndex s "_".
Proof.
  induction s as [|c s IH]; [done|]. simpl.
  destruct (Z.leb_spec 0 (Strings.LastIndex s "_")); [lia|].
  destruct (decide (c = "_"%char)); lia.
Qed.

Lemma LastIndex_separator (feature qualifier : string) :
  Spec.no_separator qualifier = true →
  Strings.LastIndex (feature +:+ "_" +:+ qualifier) "_"
  = Z.of_nat (String.length feature).
Proof.
  intros Hq. induction feature as [|c f IH].
  - rewrite str_app_nil_l, str_app_cons, str_app_nil_l. simpl.
    rewrite LastIndex_no_separator by done. done.
  - rewrite str_app_cons. simpl Strings.LastIndex. rewrite IH.
    rewrite (proj2 (Z.leb_le _ _)) by lia. simpl String.length. lia.
Qed.

(** Every text is without separator or splits at its last separator. *)
Lemma separator_cases (s : string) :
  Spec.no_separator s = true
  ∨ ∃ feature qualifier,
      s = feature +:+ "_" +:+ qualifier ∧ Spec.no_separator qualifier = true.
Proof.
  induction s as [|c s IH]; [by left|].
  destruct IH as [Hs|(f & q & -> & Hq)].
  - destruct (decide (c = "_"%char)) as [->|Hc].
    + right. exists EmptyString, s. done.
    + left. unfold Spec.no_separator in *. simpl.
      by rewrite Hs, bool_decide_eq_false_2.
  - right. exists (String c f), q. done.
Qed.

Lemma KeyOf_HasPrefix (k : string) (qn : Annotation.QualifiedName) :
  Spec.KeyOf k qn → Strings.HasPrefix k Annotation.Prefix = true.
Proof. intros (r & -> & _). apply HasPrefix_app. Qed.

Lemma HasPrefix_KeyOf (k : string) :
  Strings.HasPrefix k Annotation.Prefix = true → ∃ qn, Spec.KeyOf k qn.
Proof.
  intros H. apply HasPrefix_inv in H as [r ->].
  destruct (separator_cases r) as [Hr|(f & q & -> & Hq)].
  - eexists. exists r. split; [done|]. left. done.
  - eexists. exists (f +:+ "_" +:+ q). split; [done|]. right. eauto.
Qed.

Section Collector.

Variable result : gmap Annotation.QualifiedName string.

(** One round of the loop: a key without the prefix leaves the result as
    it is, a key with the prefix stores its value under the name it
    parses to. *)
Lemma collect_entry_skip (k v : string) :
  Strings.HasPrefix k Annotation.Prefix = false →
  Annotation.collect_entry result k v = Ret result.
Proof. intros H. unfold Annotation.collect_entry. by rewrite H. Qed.

Lemma collect_entry_KeyOf (k v : string) (qn : Annotation.QualifiedName) :
  Spec.KeyOf k qn →
  Annotation.collect_entry result k v = Ret (<[ qn := v ]> result).
Proof.
  intros (r & -> & Hr). unfold Annotation.collect_entry.
  rewrite HasPrefix_app, TrimPrefix_app. simpl negb. cbv iota.
  destruct Hr as [[Hr ->]|(f & q & -> & Hq & ->)].
  - by rewrite LastIndex_no_separator.
  - rewrite LastIndex_separator by done.
    rewrite (proj2 (Z.eqb_neq _ _)) by lia.
    unfold Strings.slice_from, Strings.slice_to, Strings.len.
    rewrite str_length_app. rewrite str_app_cons, str_app_nil_l.
    simpl String.length.
    rewrite !(proj2 (Z.leb_le _ _)) by lia. simpl andb. cbv iota.
    rewrite Nat2Z.id.
    replace (Z.to_nat (Z.of_nat (String.length f) + 1))
      with (String.length (f +:+ "_")) by (rewrite str_length_app; simpl; lia).
    rewrite take_app_length. change (String "_" q) with ("_" +:+ q).
    rewrite <-str_app_assoc, drop_app_length. done.
Qed.

End Collector.

(** A key parses to one name only. *)
Lemma KeyOf_functional (k : string) (qn qn' : Annotation.QualifiedName) :
  Spec.KeyOf k qn → Spec.KeyOf k qn' → qn = qn'.
Proof.
  intros H H'.
  pose proof (collect_entry_KeyOf ∅ k EmptyString qn H) as Heq.
  rewrite (collect_entry_KeyOf ∅ k EmptyString qn' H') in Heq.
  apply (f_equal (λ o, match o with
                       | Ret m => m !! qn
                       | Panic _ => None
                       end)) in Heq.
  cbv beta iota in Heq. rewrite lookup_insert_eq in Heq.
  destruct (decide (qn' = qn)) as [|Hne]; [done|].
  rewrite lookup_insert_ne in Heq by done. by rewrite lookup_empty in Heq.
Qed.

(** The loop: what was in the result stays unless a key of the same name
    is visited; what is in the result at the end was there at the start
    or is the value of a key visited; and a name all of whose keys carry
    the same value ends with that value. *)
Lemma collect_loop_spec (annotations : list (string * string))
  (result : gmap Annotation.QualifiedName string) :
  ∃ result',
    Annotation.collect_loop annotations result = Ret result'
    ∧ (∀ qn v, result' !! qn = Some v →
         result !! qn = Some v
         ∨ ∃ k, (k, v) ∈ annotations ∧ Spec.KeyOf k qn)
    ∧ (∀ qn, is_Some (result !! qn)
             ∨ (∃ k v, (k, v) ∈ annotations ∧ Spec.KeyOf k qn) →
         is_Some (result' !! qn))
    ∧ (∀ qn v,
         (∀ k' v', (k', v') ∈ annotations → Spec.KeyOf k' qn → v' = v) →
         result !! qn = Some v
         ∨ (∃ k, (k, v) ∈ annotations ∧ Spec.KeyOf k qn) →
         result' !! qn = Some v).
Proof.
  revert result.
  induction annotations as [|[k0 v0] rest IH]; intros result.
  { exists result. split; [done|]. split; [by left|]. split.
    - intros qn [H|(k & v & H & _)]; [done|]. by apply elem_of_nil in H.
    - intros qn v _ [H|(k & H & _)]; [done|]. by apply elem_of_nil in H. }
  simpl.
  destruct (Strings.HasPrefix k0 Annotation.Prefix) eqn:Hprefix.
  - destruct (HasPrefix_KeyOf k0 Hprefix) as [qn0 Hkey0].
    rewrite (collect_entry_KeyOf result k0 v0 qn0 Hkey0). simpl.
    destruct (IH (<[qn0:=v0]> result)) as (result' & Heq & Hfrom & Hsome & Hto).
    exists result'. split; [done|]. split; [|split].
    + intros qn v Hl. destruct (Hfrom qn v Hl) as [Hin|(k & Hin & Hkey)].
      * destruct (decide (qn0 = qn)) as [->|Hne].
        -- rewrite lookup_insert_eq in Hin. injection Hin as ->.
           right. exists k0. split; [apply elem_of_cons; by left|done].
        -- rewrite lookup_insert_ne in Hin by done. by left.
      * right. exists k. split; [apply elem_of_cons; by right|done].
    + intros qn H. apply Hsome.
      destruct (decide (qn0 = qn)) as [->|Hne].
      { left. rewrite lookup_insert_eq. eauto. }
      destruct H as [H|(k & v & Hin & Hkey)].
      * left. by rewrite lookup_insert_ne.
      * apply elem_of_cons in Hin as [[= -> ->]|Hin].
        -- destruct Hne. by apply (KeyOf_functional k0).
        -- right. eauto.
    + intros qn v Hsame H. apply Hto.
      { intros k' v' Hin. apply Hsame, elem_of_cons. by right. }
      destruct (decide (qn0 = qn)) as [->|Hne].
      { left. rewrite lookup_insert_eq. f_equal.
        apply (Hsame k0); [apply elem_of_cons; by left|done]. }
      destruct H as [H|(k & Hin & Hkey)].
      * left. by rewrite lookup_insert_ne.
      * apply elem_of_cons in Hin as [[= -> ->]|Hin].
        -- destruct Hne. by apply (KeyOf_functional k0).
        -- right. eauto.
  - rewrite (collect_entry_skip result k0 v0 Hprefix). simpl.
    destruct (IH result) as (result' & Heq & Hfrom & Hsome & Hto).
    assert (∀ qn, ¬ Spec.KeyOf k0 qn) as Hnokey.
    { intros qn Hkey. apply KeyOf_HasPrefix in Hkey. congruence. }
    exists result'. split; [done|]. split; [|split].
    + intros qn v Hl. destruct (Hfrom qn v Hl) as [Hin|(k & Hin & Hkey)].
      * by left.
      * right. exists k. split; [apply elem_of_cons; by right|done].
    + intros qn [H|(k & v & Hin & Hkey)]; apply Hsome; [by left|].
      apply elem_of_cons in Hin as [[= -> ->]|Hin].
      * by destruct (Hnokey qn).
      * right. eauto.
    + intros qn v Hsame H. apply Hto.
      { intros k' v' Hin. apply Hsame, elem_of_cons. by right. }
      destruct H as [H|(k & Hin & Hkey)]; [by left|].
      apply elem_of_cons in Hin as [[= -> ->]|Hin].
      * by destruct (Hnokey qn).
      * right. eauto.
Qed.

(** The loop over two parts of the annotations. *)
Lemma collect_loop_app (l1 l2 : list (string * string))
  (result : gmap Annotation.QualifiedName string) :
  Annotation.collect_loop (l1 ++ l2) result
  = result' ← Annotation.collect_loop l1 result;
    Annotation.collect_loop l2 result'.
Proof.
  revert result. induction l1 as [|[k v] l1 IH]; intros result; [done|].
  simpl. destruct (Annotation.collect_entry result k v); simpl; [apply IH|done].
Qed.

(** The key visited last among the keys that parse to a name gives the
    entry of that name its value. *)
Lemma collect_loop_last (pre post : list (string * string))
  (k v : string) (qn : Annotation.QualifiedName)
  (result : gmap Annotation.QualifiedName string) :
  Spec.KeyOf k qn →
  (∀ k' v', (k', v') ∈ post → ¬ Spec.KeyOf k' qn) →
  ∃ result',
    Annotation.collect_loop (pre ++ (k, v) :: post) result = Ret result'
    ∧ result' !! qn = Some v.
Proof.
  intros Hkey Hpost. rewrite collect_loop_app.
  destruct (collect_loop_spec pre result) as (r1 & -> & _). simpl.
  rewrite (collect_entry_KeyOf r1 k v qn Hkey). simpl.
  destruct (collect_loop_spec post (<[qn:=v]> r1))
    as (result' & -> & Hfrom & Hsome & _).
  exists result'. split; [done|].
  destruct (Hsome qn) as [v' Hv'].
  { left. rewrite lookup_insert_eq. eauto. }
  destruct (Hfrom qn v' Hv') as [Hin|(k' & Hin & Hkey')].
  - rewrite lookup_insert_eq in Hin. by injection Hin as ->.
  - by destruct (Hpost k' v' Hin).
Qed.

(** C7, as amended.  On every annotation map, in whatever order its
    entries are visited, the collector returns a map and does not panic.
    The keys that parse to a name are those that start with the prefix
    [spoditor.io/]; the name is made of the text before the last
    separator and the text behind it, or of the whole text and the empty
    qualifier when there is no separator.  Every entry returned is the
    value of such a key under the name the key parses to, and every such
    key has an entry under its name.  The entry of a name carries the
    value of the key visited last among the keys that parse to this
    name: the value of every such key, when they all carry the same
    value. *)
Theorem C7_collector (annotations : list (string * string)) :
  ∃ result,
    Annotation.defaultCollector annotations = Ret result
    ∧ (∀ k, Strings.HasPrefix k Annotation.Prefix = true
            ↔ ∃ qn, Spec.KeyOf k qn)
    ∧ (∀ qn v, result !! qn = Some v →
         ∃ k, (k, v) ∈ annotations ∧ Spec.KeyOf k qn)
    ∧ (∀ k v qn, (k, v) ∈ annotations → Spec.KeyOf k qn →
         is_Some (result !! qn)
         ∧ ((∀ k' v', (k', v') ∈ annotations → Spec.KeyOf k' qn → v' = v) →
            result !! qn = Some v))
    ∧ (∀ pre k v post qn,
         annotations = pre ++ (k, v) :: post →
         Spec.KeyOf k qn →
         (∀ k' v', (k', v') ∈ post → ¬ Spec.KeyOf k' qn) →
         result !! qn = Some v).
Proof.
  destruct (collect_loop_spec annotations ∅)
    as (result & Heq & Hfrom & Hsome & Hto).
  exists result. split; [done|]. split; [|split; [|split]].
  - intros k. split; [apply HasPrefix_KeyOf|].
    intros [qn Hkey]. by apply (KeyOf_HasPrefix k qn).
  - intros qn v Hl. destruct (Hfrom qn v Hl) as [Hin|H]; [|done].
    by rewrite lookup_empty in Hin.
  - intros k v qn Hin Hkey. split.
    + apply Hsome. right. eauto.
    + intros Hsame. apply Hto; [done|]. right. eauto.
  - intros pre k v post qn -> Hkey Hpost.
    destruct (collect_loop_last pre post k v qn ∅ Hkey Hpost)
      as (result' & Heq' & Hv).
    rewrite Heq in Heq'. by injection Heq' as <-.
Qed.

Lemma KeyOf_mount_volume_0_2 :
  Spec.KeyOf "spoditor.io/mount-volume_0-2"
    {| Annotation.Qualifier := "0-2"; Annotation.Name := "mount-volume" |}.
Proof.
  exists "mount-volume_0-2". split; [done|]. right.
  exists "mount-volume", "0-2". done.
Qed.

Lemma KeyOf_foo :
  Spec.KeyOf "spoditor.io/foo"
    {| Annotation.Qualifier := EmptyString; Annotation.Name := "foo" |}.
Proof. exists "foo". split; [done|]. by left. Qed.

Lemma KeyOf_foo_ :
  Spec.KeyOf "spoditor.io/foo_"
    {| Annotation.Qualifier := EmptyString; Annotation.Name := "foo" |}.
Proof.
  exists "foo_". split; [done|]. right. by exists "foo", EmptyString.
Qed.

Lemma C7_collector_witness :
  ∃ result,
    Annotation.defaultCollector
      [("spoditor.io/foo", "A"); ("app", "web"); ("spoditor.io/foo_", "B");
       ("spoditor.io/mount-volume_0-2", "volumes")]
    = Ret result
    ∧ result !! {| Annotation.Qualifier := "0-2";
                   Annotation.Name := "mount-volume" |}
      = Some "volumes"
    ∧ result !! {| Annotation.Qualifier := EmptyString;
                   Annotation.Name := "foo" |}
      = Some "B".
Proof.
  destruct (C7_collector
              [("spoditor.io/foo", "A"); ("app", "web");
               ("spoditor.io/foo_", "B");
               ("spoditor.io/mount-volume_0-2", "volumes")])
    as (result & Heq & _ & _ & _ & Hlast).
  exists result. split; [exact Heq|]. split.
  - refine (Hlast [("spoditor.io/foo", "A"); ("app", "web");
                   ("spoditor.io/foo_", "B")] _ _ [] _ eq_refl
              KeyOf_mount_volume_0_2 _).
    intros k' v' Hin. destruct (proj1 (elem_of_nil _) Hin).
  - refine (Hlast [("spoditor.io/foo", "A"); ("app", "web")] _ _
              [("spoditor.io/mount-volume_0-2", "volumes")] _ eq_refl
              KeyOf_foo_ _).
    intros k' v' Hin Hkey. apply list_elem_of_singleton in Hin as [= -> ->].
    pose proof (KeyOf_functional _ _ _ Hkey KeyOf_mount_volume_0_2) as [=].
Defined.

(** The claim as stated fails on a map that holds the keys
    [spoditor.io/foo] and [spoditor.io/foo_]: the keys differ and both
    start with the prefix, yet both parse to the feature [foo] with the
    empty qualifier, so that one entry is returned for the two of them,
    with the value of the key visited last. *)
Lemma C7_counterexample :
  NoDup ["spoditor.io/foo"; "spoditor.io/foo_"]
  ∧ Spec.KeyOf "spoditor.io/foo"
      {| Annotation.Qualifier := EmptyString; Annotation.Name := "foo" |}
  ∧ Spec.KeyOf "spoditor.io/foo_"
      {| Annotation.Qualifier := EmptyString; Annotation.Name := "foo" |}
  ∧ Annotation.defaultCollector
      [("spoditor.io/foo", "A"); ("spoditor.io/foo_", "B")]
    = Ret {[ {| Annotation.Qualifier := EmptyString;
                Annotation.Name := "foo" |} := "B" ]}
  ∧ Annotation.defaultCollector
      [("spoditor.io/foo_", "B"); ("spoditor.io/foo", "A")]
    = Ret {[ {| Annotation.Qualifier := EmptyString;
                Annotation.Name := "foo" |} := "A" ]}.
Proof.
  split.
  { apply NoDup_cons_2; [|apply NoDup_singleton].
    intros Hin. apply list_elem_of_singleton in Hin. discriminate Hin. }
  split; [exists "foo"; split; [done|by left]|].
  split; [exists "foo_"; split; [done|]; right; by exists "foo", EmptyString|].
  split; by vm_compute.
Qed.
(** ** The host-port handler: environment variables *)

Section EnvVars.

Implicit Types (envVars : list Corev1.EnvVar.t) (envVar : Corev1.EnvVar.t).

Lemma appendEnvVarIfNotExists_replace envVars envVar (i : nat)
  (existing : Corev1.EnvVar.t) :
  envVars !! i = Some existing →
  Corev1.EnvVar.Name existing = Corev1.EnvVar.Name envVar →
  (∀ j e, (j < i)%nat → envVars !! j = Some e →
          Corev1.EnvVar.Name e ≠ Corev1.EnvVar.Name envVar) →
  HostPortHandler.appendEnvVarIfNotExists envVars envVar
  = <[ i := envVar ]> envVars.
Proof.
  revert i. induction envVars as [|x rest IH]; intros i Hi Hname Hfirst.
  - done.
  - destruct i as [|i]; simpl in *.
    + injection Hi as ->. by rewrite decide_True.
    + rewrite decide_False by (apply (Hfirst O); [lia|done]).
      f_equal. apply IH; [done|done|].
      intros j e Hj He. apply (Hfirst (S j)); [lia|done].
Qed.

Lemma appendEnvVarIfNotExists_append envVars envVar :
  (∀ e, e ∈ envVars →
        Corev1.EnvVar.Name e ≠ Corev1.EnvVar.Name envVar) →
  HostPortHandler.appendEnvVarIfNotExists envVars envVar
  = envVars ++ [envVar].
Proof.
  induction envVars as [|x rest IH]; intros Hnone; [done|]. simpl.
  rewrite decide_False by (apply Hnone, elem_of_cons; by left).
  f_equal. apply IH. intros e He. apply Hnone, elem_of_cons. by right.
Qed.

(** The names after the call: the same, or one more that was not there. *)
Lemma appendEnvVarIfNotExists_names envVars envVar :
  (Corev1.EnvVar.Name
     <$> HostPortHandler.appendEnvVarIfNotExists envVars envVar)
  = (Corev1.EnvVar.Name <$> envVars)
  ∨ ((Corev1.EnvVar.Name envVar ∉ (Corev1.EnvVar.Name <$> envVars))
     ∧ (Corev1.EnvVar.Name
          <$> HostPortHandler.appendEnvVarIfNotExists envVars envVar)
       = (Corev1.EnvVar.Name <$> envVars) ++ [Corev1.EnvVar.Name envVar]).
Proof.
  induction envVars as [|x rest IH].
  - right. split; [apply not_elem_of_nil|done].
  - cbn [HostPortHandler.appendEnvVarIfNotExists].
    destruct (decide (Corev1.EnvVar.Name x = Corev1.EnvVar.Name envVar))
      as [Heq|Hne]; rewrite !fmap_cons.
    + left. by rewrite Heq.
    + destruct IH as [IH|[Hnotin IH]].
      * left. by rewrite IH.
      * right. rewrite IH. split; [|done].
        intros Hin. apply elem_of_cons in Hin as [Hin|Hin]; [|done].
        by destruct Hne.
Qed.

Lemma appendEnvVarIfNotExists_NoDup envVars envVar :
  NoDup (Corev1.EnvVar.Name <$> envVars) →
  NoDup (Corev1.EnvVar.Name
           <$> HostPortHandler.appendEnvVarIfNotExists envVars envVar).
Proof.
  intros Hnodup.
  destruct (appendEnvVarIfNotExists_names envVars envVar) as [->|[Hnotin ->]];
    [done|].
  apply NoDup_app. split; [done|]. split; [|apply NoDup_singleton].
  intros x Hx Hx'. apply list_elem_of_singleton in Hx' as ->. done.
Qed.

Lemma add_port_vars_NoDup envVars (vars : list (string * string)) :
  NoDup (Corev1.EnvVar.Name <$> envVars) →
  NoDup (Corev1.EnvVar.Name <$> HostPortHandler.add_port_vars envVars vars).
Proof.
  revert envVars. induction vars as [|kv vars IH]; intros envVars H; [done|].
  apply IH. by apply appendEnvVarIfNotExists_NoDup.
Qed.

Lemma env_lookup_append_eq envVars envVar :
  Spec.env_lookup (Corev1.EnvVar.Name envVar)
    (HostPortHandler.appendEnvVarIfNotExists envVars envVar)
  = Some (Corev1.EnvVar.Value envVar).
Proof.
  induction envVars as [|x rest IH]; simpl.
  - by rewrite decide_True.
  - destruct (decide (Corev1.EnvVar.Name x = Corev1.EnvVar.Name envVar));
      simpl; [by rewrite decide_True|by rewrite decide_False].
Qed.

Lemma env_lookup_append_ne envVars envVar (name : string) :
  Corev1.EnvVar.Name envVar ≠ name →
  Spec.env_lookup name
    (HostPortHandler.appendEnvVarIfNotExists envVars envVar)
  = Spec.env_lookup name envVars.
Proof.
  intros Hne. induction envVars as [|x rest IH]; simpl.
  - by rewrite decide_False.
  - destruct (decide (Corev1.EnvVar.Name x = Corev1.EnvVar.Name envVar))
      as [Heq|Hne']; simpl.
    + rewrite !decide_False by congruence. done.
    + by rewrite IH.
Qed.

End EnvVars.

(** ** The host-port handler: the loops *)

Lemma process_port_Env (ordinal : Z)
  (st : Corev1.Container.t * gmap string string)
  (portConfig : Corev1.ContainerPort.t) :
  Corev1.Container.Env (HostPortHandler.process_port ordinal st portConfig).1
  = Corev1.Container.Env st.1.
Proof.
  unfold HostPortHandler.process_port. destruct st as [container vars].
  repeat case_match; done.
Qed.

Lemma foldl_process_port_Env (ordinal : Z)
  (ports : list Corev1.ContainerPort.t)
  (st : Corev1.Container.t * gmap string string) :
  Corev1.Container.Env (foldl (HostPortHandler.process_port ordinal) st ports).1
  = Corev1.Container.Env st.1.
Proof.
  revert st. induction ports as [|p ports IH]; intros st; [done|].
  simpl. by rewrite IH, process_port_Env.
Qed.

Section Loops.

Variable range : gmap string string → list (string * string).
Variable ordinal : Z.
Variable containerConfig : Ports.containerPortsConfig.

Lemma process_container_NoDup (vars : gmap string string)
  (container : Corev1.Container.t) :
  Spec.names_kept container
    (HostPortHandler.process_container range ordinal containerConfig vars
       container).1.
Proof.
  intros Hnodup. unfold Spec.env_names_distinct in *.
  unfold HostPortHandler.process_container.
  case_decide; [done|].
  pose proof (foldl_process_port_Env ordinal (Ports.Ports containerConfig)
                (container, vars)) as Henv.
  destruct (foldl _ _ _) as [container1 vars1]. simpl in *.
  apply add_port_vars_NoDup, appendEnvVarIfNotExists_NoDup. by rewrite Henv.
Qed.

(** Every container of the result is the image of the container at the
    same place, under a state of the variables that meets any invariant
    the rounds of the loop maintain. *)
Lemma process_containers_Forall2 (I : gmap string string → Prop)
  (vars : gmap string string) (containers : list Corev1.Container.t) :
  I vars →
  (∀ vars' container, I vars' →
     I (HostPortHandler.process_container range ordinal containerConfig
          vars' container).2) →
  Forall2
    (λ container container',
       ∃ vars', I vars'
                ∧ container' = (HostPortHandler.process_container range
                                  ordinal containerConfig vars' container).1)
    containers
    (HostPortHandler.process_containers range ordinal containerConfig
       vars containers).1.
Proof.
  intros Hvars Hstep. revert vars Hvars.
  induction containers as [|c cs IH]; intros vars Hvars; simpl; [constructor|].
  specialize (Hstep vars c Hvars).
  destruct (HostPortHandler.process_container _ _ _ vars c)
    as [c' vars'] eqn:Hc.
  specialize (IH vars' Hstep).
  destruct (HostPortHandler.process_containers _ _ _ vars' cs)
    as [cs' vars''].
  simpl in *. constructor; [|done].
  exists vars. split; [done|]. by rewrite Hc.
Qed.

End Loops.

(** The variable names of a container stay distinct through a round of
    the outer loop, and through all of them. *)
Lemma process_config_names_kept
  (range : gmap string string → list (string * string)) (ordinal : Z)
  (containers : list Corev1.Container.t)
  (containerConfig : Ports.containerPortsConfig) :
  Forall2 Spec.names_kept containers
    (HostPortHandler.process_config range ordinal containers containerConfig).
Proof.
  unfold HostPortHandler.process_config.
  eapply Forall2_impl.
  - by apply (process_containers_Forall2 range ordinal containerConfig
                (λ _, True)).
  - intros c c' (vars & _ & ->) Hnodup. by apply process_container_NoDup.
Qed.

Lemma foldl_process_config_names_kept
  (range : gmap string string → list (string * string)) (ordinal : Z)
  (configs : list Ports.containerPortsConfig)
  (containers : list Corev1.Container.t) :
  Forall2 Spec.names_kept containers
    (foldl (HostPortHandler.process_config range ordinal) containers configs).
Proof.
  revert containers. induction configs as [|cc configs IH]; intros containers.
  - simpl. apply Forall2_same_length_lookup. split; [done|].
    intros i c c' Hc Hc'. rewrite Hc in Hc'. injection Hc' as ->. by intros ?.
  - simpl.
    pose proof (process_config_names_kept range ordinal containers cc) as H1.
    pose proof (IH (HostPortHandler.process_config range ordinal containers cc))
      as H2.
    eapply Forall2_trans; [|exact H1|exact H2].
    intros c1 c2 c3 H12 H23 Hnodup. by apply H23, H12.
Qed.

(** C10.  [appendEnvVarIfNotExists] puts the variable in the place of the
    first variable of the same name, and at the end of the list when no
    variable has that name; and whatever the configuration, the ordinal
    and the order in which the port variables are visited, a container
    whose variables have distinct names before [Mutate] is, at the same
    place, a container whose variables have distinct names after it. *)
Theorem C10_env_names_stay_distinct :
  (∀ (envVars : list Corev1.EnvVar.t) (envVar : Corev1.EnvVar.t),
     (∀ i existing,
        envVars !! i = Some existing →
        Corev1.EnvVar.Name existing = Corev1.EnvVar.Name envVar →
        (∀ j e, (j < i)%nat → envVars !! j = Some e →
                Corev1.EnvVar.Name e ≠ Corev1.EnvVar.Name envVar) →
        HostPortHandler.appendEnvVarIfNotExists envVars envVar
        = <[ i := envVar ]> envVars)
     ∧ ((∀ e, e ∈ envVars →
              Corev1.EnvVar.Name e ≠ Corev1.EnvVar.Name envVar) →
        HostPortHandler.appendEnvVarIfNotExists envVars envVar
        = envVars ++ [envVar]))
  ∧ (∀ (range : gmap string string → list (string * string))
       (spec : Corev1.PodSpec.t) (ordinal : Z) (cfg : option any)
       (spec' : Corev1.PodSpec.t) (err : option error)
       (i : nat) (container : Corev1.Container.t),
       HostPortHandler.Mutate range spec ordinal cfg = Ret (spec', err) →
       Corev1.PodSpec.Containers spec !! i = Some container →
       Spec.env_names_distinct container →
       ∃ container',
         Corev1.PodSpec.Containers spec' !! i = Some container'
         ∧ Spec.env_names_distinct container').
Proof.
  split.
  { intros envVars envVar. split.
    - apply appendEnvVarIfNotExists_replace.
    - apply appendEnvVarIfNotExists_append. }
  intros range spec ordinal cfg spec' err i container Hmutate Hi Hdistinct.
  assert (Forall2 Spec.names_kept (Corev1.PodSpec.Containers spec)
            (Corev1.PodSpec.Containers spec')) as Hkept.
  { assert (Forall2 Spec.names_kept (Corev1.PodSpec.Containers spec)
              (Corev1.PodSpec.Containers spec)) as Hrefl.
    { apply (foldl_process_config_names_kept range ordinal []). }
    unfold HostPortHandler.Mutate in Hmutate.
    destruct cfg as [[m| |]|]; try (injection Hmutate as <- _; exact Hrefl).
    destruct (Annotation.CommonPodQualifier ordinal (Ports.qualifier m))
      as [[|]|msg]; simpl in Hmutate; [| |done].
    - destruct (Ports.cfg m) as [v|]; [|done].
      injection Hmutate as <- _. apply foldl_process_config_names_kept.
    - injection Hmutate as <- _. exact Hrefl. }
  destruct (Forall2_lookup_l _ _ _ i container Hkept Hi)
    as (container' & Hi' & Hstep).
  exists container'. split; [done|]. by apply Hstep.
Qed.

Lemma C10_env_names_stay_distinct_witness :
  ∃ container',
    Corev1.PodSpec.Containers Fixture.portSpecMutated !! O = Some container'
    ∧ Spec.env_names_distinct container'.
Proof.
  refine (proj2 C10_env_names_stay_distinct map_to_list Fixture.testSpec 2
            (Some (portConfigPtr
                     {| Ports.qualifier := EmptyString;
                        Ports.cfg := Some Fixture.hostPortValue |}))
            Fixture.portSpecMutated None O _ _ _ _).
  - by vm_compute.
  - reflexivity.
  - apply NoDup_nil_2.
Defined.
(** ** The host-port handler: one declared port *)

Lemma set_hostPort_spec (ports : list Corev1.ContainerPort.t)
  (name : string) (newHostPort : Z) :
  HostPortHandler.set_hostPort ports name newHostPort
  = match Spec.port_index name ports with
    | Some j =>
        (alter (λ p, Corev1.ContainerPort.with_HostPort p newHostPort) j ports,
         true)
    | None => (ports, false)
    end.
Proof.
  induction ports as [|p rest IH]; [done|]. simpl.
  destruct (decide (Corev1.ContainerPort.Name p = name)); [done|].
  rewrite IH. by destruct (Spec.port_index name rest).
Qed.

Section OnePort.

Variable range : gmap string string → list (string * string).
Hypothesis range_permutation : ∀ m, range m ≡ₚ map_to_list m.

Variable ordinal : Z.
Variable port : Corev1.ContainerPort.t.
Hypothesis port_declared : 0 < Corev1.ContainerPort.HostPort port.
Variable containerName : string.

Lemma process_port_one (container : Corev1.Container.t)
  (vars : gmap string string) :
  HostPortHandler.process_port ordinal (container, vars) port
  = (Corev1.Container.with_Ports container
       (Spec.ports_after port (Spec.effective_hostPort port ordinal)
          container),
     <[ Spec.port_var_name port := Spec.port_var_value port ordinal ]> vars).
Proof.
  unfold HostPortHandler.process_port, Spec.ports_after.
  rewrite (proj2 (Z.leb_gt _ _)) by done.
  rewrite set_hostPort_spec.
  by destruct (Spec.port_index _ _).
Qed.

Lemma range_port_var :
  range {[ Spec.port_var_name port := Spec.port_var_value port ordinal ]}
  = [(Spec.port_var_name port, Spec.port_var_value port ordinal)].
Proof.
  apply Permutation_singleton_r. rewrite range_permutation.
  by rewrite map_to_list_singleton.
Qed.

(** A round of the loop over the containers of the pod. *)
Lemma process_container_one (container : Corev1.Container.t)
  (vars : gmap string string) :
  Spec.only_port_var port ordinal vars →
  HostPortHandler.process_container range ordinal
    {| Ports.Name := containerName; Ports.Ports := [port] |} vars container
  = if decide (Corev1.Container.Name container ≠ containerName)
    then (container, vars)
    else
      (Corev1.Container.with_Env
         (Corev1.Container.with_Ports container
            (Spec.ports_after port (Spec.effective_hostPort port ordinal)
               container))
         (HostPortHandler.appendEnvVarIfNotExists
            (HostPortHandler.appendEnvVarIfNotExists
               (Corev1.Container.Env container)
               (Corev1.EnvVar.mk Ports.PodOrdinal (Strconv.Itoa ordinal) None))
            (Corev1.EnvVar.mk (Spec.port_var_name port)
               (Spec.port_var_value port ordinal) None)),
       {[ Spec.port_var_name port := Spec.port_var_value port ordinal ]}).
Proof.
  intros Hvars. unfold HostPortHandler.process_container.
  cbn [Ports.Name Ports.Ports foldl].
  case_decide; [done|].
  rewrite process_port_one, Hvars, range_port_var. done.
Qed.

Lemma process_container_only_port_var (vars : gmap string string)
  (container : Corev1.Container.t) :
  Spec.only_port_var port ordinal vars →
  Spec.only_port_var port ordinal
    (HostPortHandler.process_container range ordinal
       {| Ports.Name := containerName; Ports.Ports := [port] |} vars
       container).2.
Proof.
  intros Hvars. rewrite process_container_one by done.
  case_decide; [done|]. apply insert_singleton_eq.
Qed.

(** [Mutate] on the configuration of the one port, for a container of
    the declared name: its ports and its variables afterwards. *)
Lemma Mutate_one_port (spec : Corev1.PodSpec.t) (qualifier : string)
  (i : nat) (container : Corev1.Container.t) :
  Annotation.CommonPodQualifier ordinal qualifier = Ret true →
  Corev1.PodSpec.Containers spec !! i = Some container →
  Corev1.Container.Name container = containerName →
  ∃ spec' container',
    HostPortHandler.Mutate range spec ordinal
      (Some (portConfigPtr
               {| Ports.qualifier := qualifier;
                  Ports.cfg :=
                    Some {| Ports.Containers :=
                              [{| Ports.Name := containerName;
                                  Ports.Ports := [port] |}] |} |}))
    = Ret (spec', None)
    ∧ Corev1.PodSpec.Containers spec' !! i = Some container'
    ∧ Corev1.Container.Ports container'
      = Spec.ports_after port (Spec.effective_hostPort port ordinal) container
    ∧ Spec.env_lookup (Spec.port_var_name port)
        (Corev1.Container.Env container')
      = Some (Spec.port_var_value port ordinal)
    ∧ (Spec.port_var_name port ≠ Ports.PodOrdinal →
       Spec.env_lookup Ports.PodOrdinal (Corev1.Container.Env container')
       = Some (Strconv.Itoa ordinal)).
Proof.
  intros Hq Hi Hname. unfold HostPortHandler.Mutate.
  cbn [Ports.qualifier Ports.cfg Ports.Containers]. rewrite Hq.
  cbn [mbind outcome_bind negb foldl Corev1.PodSpec.with_Containers
         Corev1.PodSpec.Containers].
  unfold HostPortHandler.process_config.
  assert (Spec.only_port_var port ordinal ∅) as Hempty.
  { apply insert_empty. }
  pose proof (process_containers_Forall2 range ordinal
                {| Ports.Name := containerName; Ports.Ports := [port] |}
                (Spec.only_port_var port ordinal) ∅
                (Corev1.PodSpec.Containers spec) Hempty
                process_container_only_port_var) as Hall.
  destruct (Forall2_lookup_l _ _ _ i container Hall Hi)
    as (container' & Hi' & vars & Hvars & ->).
  eexists _, _. split; [done|]. split; [exact Hi'|].
  rewrite process_container_one by done.
  rewrite decide_False by (by intros ?).
  cbn [fst Corev1.Container.with_Env Corev1.Container.with_Ports
         Corev1.Container.Ports Corev1.Container.Env].
  split; [done|]. split.
  - apply (env_lookup_append_eq _
             (Corev1.EnvVar.mk (Spec.port_var_name port) _ None)).
  - intros Hne.
    rewrite env_lookup_append_ne by done.
    apply (env_lookup_append_eq _
             (Corev1.EnvVar.mk Ports.PodOrdinal _ None)).
Qed.

End OnePort.

(** ** The host-port handler: a port among other declarations *)

Section PortLists.

Implicit Types (ports : list Corev1.ContainerPort.t) (name : string).

Lemma port_index_Some name ports (j : nat) :
  Spec.port_index name ports = Some j →
  ∃ p, ports !! j = Some p ∧ Corev1.ContainerPort.Name p = name.
Proof.
  revert j. induction ports as [|q rest IH]; intros j H; [done|].
  simpl in H. destruct (decide (Corev1.ContainerPort.Name q = name)).
  - injection H as <-. eauto.
  - destruct (Spec.port_index name rest) as [k|]; [|done].
    injection H as <-. by apply IH.
Qed.

Lemma port_index_alter name ports (k : nat) (v : Z) :
  Spec.port_index name
    (alter (λ p, Corev1.ContainerPort.with_HostPort p v) k ports)
  = Spec.port_index name ports.
Proof.
  revert k. induction ports as [|q rest IH]; intros k; [done|].
  destruct k as [|k]; simpl; [done|]. by rewrite <-(IH k).
Qed.

Lemma port_index_app_Some name ports (l : list Corev1.ContainerPort.t)
  (j : nat) :
  Spec.port_index name ports = Some j →
  Spec.port_index name (ports ++ l) = Some j.
Proof.
  revert j. induction ports as [|q rest IH]; intros j H; [done|].
  simpl in *. destruct (decide (Corev1.ContainerPort.Name q = name)); [done|].
  destruct (Spec.port_index name rest) as [k|]; [|done].
  by rewrite (IH k).
Qed.

Lemma port_index_app_None name ports (q : Corev1.ContainerPort.t) :
  Spec.port_index name ports = None →
  Spec.port_index name (ports ++ [q])
  = if decide (Corev1.ContainerPort.Name q = name)
    then Some (length ports) else None.
Proof.
  induction ports as [|x rest IH]; intros H; simpl.
  - by destruct (decide _).
  - simpl in H.
    destruct (decide (Corev1.ContainerPort.Name x = name)); [done|].
    destruct (Spec.port_index name rest) as [k|]; [done|].
    rewrite IH by done. by destruct (decide _).
Qed.

Lemma port_kept_refl name ports : Spec.port_kept name ports ports.
Proof. done. Qed.

Lemma port_kept_trans name ports1 ports2 ports3 :
  Spec.port_kept name ports1 ports2 → Spec.port_kept name ports2 ports3 →
  Spec.port_kept name ports1 ports3.
Proof.
  intros (Hi12 & Hl12 & Hn12) (Hi23 & Hl23 & Hn23).
  split; [congruence|]. split; [|lia].
  intros j Hj. rewrite Hl23 by congruence. by apply Hl12.
Qed.

Section Port.

Variable port : Corev1.ContainerPort.t.
Variable effective : Z.

Lemma port_kept_set ports1 ports2 ports3 :
  Spec.port_kept (Corev1.ContainerPort.Name port) ports1 ports2 →
  Spec.port_set port effective ports2 ports3 →
  Spec.port_set port effective ports1 ports3.
Proof.
  intros (Hi & Hl & Hn). unfold Spec.port_set. rewrite Hi.
  destruct (Spec.port_index _ ports1) as [j|].
  - intros (p & Hp & Hat). exists p. by rewrite <-Hl.
  - intros (j & Hj & Hat). exists j. split; [lia|done].
Qed.

Lemma port_set_kept ports1 ports2 ports3 :
  Spec.port_set port effective ports1 ports2 →
  Spec.port_kept (Corev1.ContainerPort.Name port) ports2 ports3 →
  Spec.port_set port effective ports1 ports3.
Proof.
  intros Hset (Hi & Hl & Hn). unfold Spec.port_set, Spec.port_at in *.
  destruct (Spec.port_index _ ports1) as [j|].
  - destruct Hset as (p & Hp & Hj & Hv). exists p.
    by rewrite Hi, Hl.
  - destruct Hset as (j & Hlen & Hj & Hv). exists j.
    by rewrite Hi, Hl.
Qed.

(** The list [ports_after] gives is the list with the port set. *)
Lemma ports_after_set (container : Corev1.Container.t) :
  Spec.port_set port effective (Corev1.Container.Ports container)
    (Spec.ports_after port effective container).
Proof.
  unfold Spec.port_set, Spec.ports_after, Spec.port_at.
  destruct (Spec.port_index _ _) as [j|] eqn:Hindex.
  - destruct (port_index_Some _ _ _ Hindex) as (p & Hp & _).
    exists p. split; [done|]. rewrite port_index_alter.
    by rewrite list_lookup_alter_eq, Hp.
  - exists (length (Corev1.Container.Ports container)). split; [done|].
    rewrite port_index_app_None by done. cbn. rewrite decide_True by done.
    split; [done|]. by rewrite list_lookup_middle.
Qed.

(** A port of another name that is set or added leaves the first port
    of the name at hand where it is. *)
Lemma ports_after_kept (q : Corev1.ContainerPort.t) (v : Z)
  (container : Corev1.Container.t) :
  Corev1.ContainerPort.Name q ≠ Corev1.ContainerPort.Name port →
  Spec.port_kept (Corev1.ContainerPort.Name port)
    (Corev1.Container.Ports container) (Spec.ports_after q v container).
Proof.
  intros Hne. unfold Spec.port_kept, Spec.ports_after.
  destruct (Spec.port_index (Corev1.ContainerPort.Name q) _) as [k|] eqn:Hk.
  - rewrite port_index_alter. split; [done|]. split.
    + intros j Hj. apply list_lookup_alter_ne. intros ->.
      destruct (port_index_Some _ _ _ Hk) as (p & Hp & Hpn).
      destruct (port_index_Some _ _ _ Hj) as (p' & Hp' & Hpn').
      congruence.
    + by rewrite length_alter.
  - split; [|split].
    + destruct (Spec.port_index (Corev1.ContainerPort.Name port)
                  (Corev1.Container.Ports container)) as [j|] eqn:Hj.
      * by apply port_index_app_Some.
      * rewrite port_index_app_None by done. by rewrite decide_False.
    + intros j Hj. destruct (port_index_Some _ _ _ Hj) as (p & Hp & _).
      rewrite Hp. by apply lookup_app_l_Some.
    + rewrite length_app. simpl. lia.
Qed.

End Port.

End PortLists.

Lemma port_var_name_inj (q q' : Corev1.ContainerPort.t) :
  Spec.port_var_name q = Spec.port_var_name q' →
  Corev1.ContainerPort.Name q = Corev1.ContainerPort.Name q'.
Proof. unfold Spec.port_var_name. apply (inj _). Qed.

Lemma port_var_name_not_PodOrdinal (q : Corev1.ContainerPort.t) :
  Ports.PodOrdinal ≠ Spec.port_var_name q.
Proof. unfold Spec.port_var_name. discriminate. Qed.

Section PortSteps.

Variable ordinal : Z.

Implicit Types (ports : list Corev1.ContainerPort.t)
  (container : Corev1.Container.t) (vars : gmap string string).

Lemma process_port_cases container vars (q : Corev1.ContainerPort.t) :
  HostPortHandler.process_port ordinal (container, vars) q
  = if Corev1.ContainerPort.HostPort q <=? 0 then (container, vars)
    else
      (Corev1.Container.with_Ports container
         (Spec.ports_after q (Spec.effective_hostPort q ordinal) container),
       <[ Spec.port_var_name q := Spec.port_var_value q ordinal ]> vars).
Proof.
  destruct (Z.leb_spec (Corev1.ContainerPort.HostPort q) 0) as [Hle|Hlt].
  - unfold HostPortHandler.process_port.
    by rewrite (proj2 (Z.leb_le _ _)).
  - by apply process_port_one.
Qed.

Lemma foldl_process_port_vars ports container vars :
  (foldl (HostPortHandler.process_port ordinal) (container, vars) ports).2
  = Spec.port_vars ordinal ports vars.
Proof.
  revert container vars.
  induction ports as [|q ports IH]; intros container vars; [done|].
  cbn [foldl]. rewrite process_port_cases. unfold Spec.port_vars. cbn [foldl].
  destruct (Corev1.ContainerPort.HostPort q <=? 0); apply IH.
Qed.

Lemma foldl_process_port_Name ports container vars :
  Corev1.Container.Name
    (foldl (HostPortHandler.process_port ordinal) (container, vars) ports).1
  = Corev1.Container.Name container.
Proof.
  revert container vars.
  induction ports as [|q ports IH]; intros container vars; [done|].
  cbn [foldl]. rewrite process_port_cases.
  destruct (Corev1.ContainerPort.HostPort q <=? 0); by rewrite IH.
Qed.

Section Declared.

Variable port : Corev1.ContainerPort.t.

(** Ports of other names leave the first port of this name in place. *)
Lemma process_port_kept container vars (q : Corev1.ContainerPort.t) :
  Corev1.ContainerPort.Name q ≠ Corev1.ContainerPort.Name port →
  Spec.port_kept (Corev1.ContainerPort.Name port)
    (Corev1.Container.Ports container)
    (Corev1.Container.Ports
       (HostPortHandler.process_port ordinal (container, vars) q).1).
Proof.
  intros Hne. rewrite process_port_cases.
  destruct (Corev1.ContainerPort.HostPort q <=? 0); [done|].
  by apply ports_after_kept.
Qed.

Lemma foldl_process_port_kept ports container vars :
  (∀ q, q ∈ ports →
        Corev1.ContainerPort.Name q ≠ Corev1.ContainerPort.Name port) →
  Spec.port_kept (Corev1.ContainerPort.Name port)
    (Corev1.Container.Ports container)
    (Corev1.Container.Ports
       (foldl (HostPortHandler.process_port ordinal) (container, vars)
          ports).1).
Proof.
  revert container vars.
  induction ports as [|q ports IH]; intros container vars Hother; [done|].
  cbn [foldl].
  pose proof (process_port_kept container vars q) as Hq.
  destruct (HostPortHandler.process_port ordinal (container, vars) q)
    as [container1 vars1].
  eapply port_kept_trans.
  - apply Hq, Hother, elem_of_cons. by left.
  - apply IH. intros q' Hq'. apply Hother, elem_of_cons. by right.
Qed.

Hypothesis port_declared : 0 < Corev1.ContainerPort.HostPort port.

(** The declared port among ports of other names: the port is set. *)
Lemma foldl_process_port_set (pre post : list Corev1.ContainerPort.t)
  container vars :
  (∀ q, q ∈ pre →
        Corev1.ContainerPort.Name q ≠ Corev1.ContainerPort.Name port) →
  (∀ q, q ∈ post →
        Corev1.ContainerPort.Name q ≠ Corev1.ContainerPort.Name port) →
  Spec.port_set port (Spec.effective_hostPort port ordinal)
    (Corev1.Container.Ports container)
    (Corev1.Container.Ports
       (foldl (HostPortHandler.process_port ordinal) (container, vars)
          (pre ++ port :: post)).1).
Proof.
  intros Hpre Hpost. rewrite foldl_app. cbn [foldl].
  pose proof (foldl_process_port_kept pre container vars Hpre) as H1.
  destruct (foldl _ (container, vars) pre) as [container1 vars1].
  rewrite process_port_cases, (proj2 (Z.leb_gt _ _)) by done.
  eapply port_kept_set; [exact H1|]. eapply port_set_kept.
  - apply ports_after_set.
  - apply (foldl_process_port_kept post
             (Corev1.Container.with_Ports container1 _) _ Hpost).
Qed.

End Declared.

(** The variables: those of the ports, over those that were there. *)
Lemma port_vars_union ports vars :
  Spec.port_vars ordinal ports vars = Spec.port_vars ordinal ports ∅ ∪ vars.
Proof.
  revert vars. induction ports as [|q ports IH]; intros vars.
  - unfold Spec.port_vars. cbn [foldl]. by rewrite (left_id_L ∅ (∪)).
  - unfold Spec.port_vars in *. cbn [foldl].
    destruct (Corev1.ContainerPort.HostPort q <=? 0); [apply IH|].
    rewrite IH, (IH (<[_:=_]> ∅)).
    by rewrite insert_empty, <-(assoc_L (∪)), <-insert_union_singleton_l.
Qed.

Lemma port_vars_idemp ports :
  Spec.port_vars ordinal ports (Spec.port_vars ordinal ports ∅)
  = Spec.port_vars ordinal ports ∅.
Proof. rewrite port_vars_union. apply (idemp_L (∪)). Qed.

Lemma port_vars_lookup_other ports vars (k : string) :
  (∀ q, q ∈ ports → Spec.port_var_name q ≠ k) →
  Spec.port_vars ordinal ports vars !! k = vars !! k.
Proof.
  revert vars. induction ports as [|q ports IH]; intros vars Hother; [done|].
  unfold Spec.port_vars in *. cbn [foldl].
  assert (∀ q', q' ∈ ports → Spec.port_var_name q' ≠ k) as Hrest.
  { intros q' Hq'. apply Hother, elem_of_cons. by right. }
  destruct (Corev1.ContainerPort.HostPort q <=? 0); rewrite IH by done;
    [done|].
  apply lookup_insert_ne, Hother, elem_of_cons. by left.
Qed.

Lemma port_vars_app (pre post : list Corev1.ContainerPort.t) vars :
  Spec.port_vars ordinal (pre ++ post) vars
  = Spec.port_vars ordinal post (Spec.port_vars ordinal pre vars).
Proof. unfold Spec.port_vars. apply foldl_app. Qed.

Lemma port_vars_cons (q : Corev1.ContainerPort.t) ports vars :
  Spec.port_vars ordinal (q :: ports) vars
  = Spec.port_vars ordinal ports
      (if Corev1.ContainerPort.HostPort q <=? 0 then vars
       else <[ Spec.port_var_name q := Spec.port_var_value q ordinal ]> vars).
Proof. done. Qed.

Lemma port_vars_lookup_declared (port : Corev1.ContainerPort.t)
  (pre post : list Corev1.ContainerPort.t) vars :
  0 < Corev1.ContainerPort.HostPort port →
  (∀ q, q ∈ post →
        Corev1.ContainerPort.Name q ≠ Corev1.ContainerPort.Name port) →
  Spec.port_vars ordinal (pre ++ port :: post) vars
    !! Spec.port_var_name port
  = Some (Spec.port_var_value port ordinal).
Proof.
  intros Hdeclared Hpost. rewrite port_vars_app, port_vars_cons.
  rewrite (proj2 (Z.leb_gt _ _)) by done.
  rewrite port_vars_lookup_other; [apply lookup_insert_eq|].
  intros q Hq Heq. by apply (Hpost q Hq), port_var_name_inj.
Qed.

End PortSteps.

(** The variables of the ports, put into the environment in the order
    the map is visited. *)
Section EnvRange.

Implicit Types (env : list Corev1.EnvVar.t) (l : list (string * string)).

Lemma env_lookup_add_port_vars_other env l (k : string) :
  (∀ v, (k, v) ∉ l) →
  Spec.env_lookup k (HostPortHandler.add_port_vars env l)
  = Spec.env_lookup k env.
Proof.
  revert env. induction l as [|[k' v'] l IH]; intros env Hnotin; [done|].
  unfold HostPortHandler.add_port_vars in *. cbn [foldl].
  rewrite IH.
  - apply env_lookup_append_ne. cbn. intros ->.
    apply (Hnotin v'), elem_of_cons. by left.
  - intros v Hin. apply (Hnotin v), elem_of_cons. by right.
Qed.

Lemma env_lookup_add_port_vars_in env l (k v : string) :
  NoDup l.*1 → (k, v) ∈ l →
  Spec.env_lookup k (HostPortHandler.add_port_vars env l) = Some v.
Proof.
  revert env. induction l as [|[k' v'] l IH]; intros env Hnodup Hin.
  { by apply elem_of_nil in Hin. }
  rewrite fmap_cons in Hnodup. apply NoDup_cons in Hnodup as [Hfresh Hnodup].
  apply elem_of_cons in Hin as [[= <- <-]|Hin].
  - change (HostPortHandler.add_port_vars env ((k, v) :: l))
      with (HostPortHandler.add_port_vars
              (HostPortHandler.appendEnvVarIfNotExists env
                 (Corev1.EnvVar.mk k v None)) l).
    rewrite env_lookup_add_port_vars_other.
    + apply (env_lookup_append_eq env (Corev1.EnvVar.mk k v None)).
    + intros v0 Hv0. apply Hfresh.
      apply (list_elem_of_fmap_2 fst) in Hv0. done.
  - change (HostPortHandler.add_port_vars env ((k', v') :: l))
      with (HostPortHandler.add_port_vars
              (HostPortHandler.appendEnvVarIfNotExists env
                 (Corev1.EnvVar.mk k' v' None)) l).
    by apply IH.
Qed.

Variable range : gmap string string → list (string * string).
Hypothesis range_permutation : ∀ m, range m ≡ₚ map_to_list m.

Lemma env_lookup_range env (vars : gmap string string) (k : string) :
  Spec.env_lookup k (HostPortHandler.add_port_vars env (range vars))
  = match vars !! k with
    | Some v => Some v
    | None => Spec.env_lookup k env
    end.
Proof.
  destruct (vars !! k) as [v|] eqn:Hk.
  - apply env_lookup_add_port_vars_in.
    + rewrite range_permutation. apply NoDup_fst_map_to_list.
    + rewrite range_permutation. by apply elem_of_map_to_list.
  - apply env_lookup_add_port_vars_other. intros v.
    rewrite range_permutation. intros Hin.
    apply elem_of_map_to_list in Hin. congruence.
Qed.

End EnvRange.

(** The relations on containers compose. *)
Section Compose.

Variable port : Corev1.ContainerPort.t.
Variable ordinal : Z.
Implicit Types c : Corev1.Container.t.

Lemma port_untouched_refl c : Spec.port_untouched port c c.
Proof. done. Qed.

Lemma port_untouched_trans c1 c2 c3 :
  Spec.port_untouched port c1 c2 → Spec.port_untouched port c2 c3 →
  Spec.port_untouched port c1 c3.
Proof.
  intros (Hn12 & Hp12 & He12) (Hn23 & Hp23 & He23).
  split; [congruence|]. split; [|congruence].
  by eapply port_kept_trans.
Qed.

Lemma port_untouched_applied c1 c2 c3 :
  Spec.port_untouched port c1 c2 → Spec.port_applied port ordinal c2 c3 →
  Spec.port_applied port ordinal c1 c3.
Proof.
  intros (Hn12 & Hp12 & He12) (Hn23 & Hp23 & He23).
  split; [congruence|]. split; [|done]. by eapply port_kept_set.
Qed.

Lemma port_applied_untouched c1 c2 c3 :
  Spec.port_applied port ordinal c1 c2 → Spec.port_untouched port c2 c3 →
  Spec.port_applied port ordinal c1 c3.
Proof.
  intros (Hn12 & Hp12 & He12) (Hn23 & Hp23 & He23).
  split; [congruence|]. split; [|congruence]. by eapply port_set_kept.
Qed.

End Compose.

Section DeclaredPort.

Variable range : gmap string string → list (string * string).
Hypothesis range_permutation : ∀ m, range m ≡ₚ map_to_list m.

Variable ordinal : Z.
Variable port : Corev1.ContainerPort.t.

Implicit Types (cc : Ports.containerPortsConfig)
  (c : Corev1.Container.t) (vars : gmap string string).

Lemma process_container_settled cc vars c :
  Spec.vars_settled ordinal cc vars →
  Spec.vars_settled ordinal cc
    (HostPortHandler.process_container range ordinal cc vars c).2.
Proof.
  intros Hvars. unfold HostPortHandler.process_container.
  case_decide; [done|].
  pose proof (foldl_process_port_vars ordinal (Ports.Ports cc) c vars)
    as Hfold.
  destruct (foldl _ _ _) as [c1 vars1]. cbn [snd] in *. subst vars1.
  unfold Spec.vars_settled in *. rewrite Hvars. apply port_vars_idemp.
Qed.

(** A configuration that declares no port of this name for the
    container leaves the first port of this name and its variable. *)
Lemma process_container_untouched cc vars c :
  Spec.vars_settled ordinal cc vars →
  (Corev1.Container.Name c = Ports.Name cc →
   ∀ q, q ∈ Ports.Ports cc →
        Corev1.ContainerPort.Name q ≠ Corev1.ContainerPort.Name port) →
  Spec.port_untouched port c
    (HostPortHandler.process_container range ordinal cc vars c).1.
Proof.
  intros Hsettled Hother. unfold HostPortHandler.process_container.
  case_decide as Hname; [done|].
  specialize (Hother Hname).
  pose proof (foldl_process_port_vars ordinal (Ports.Ports cc) c vars)
    as Hvars.
  pose proof (foldl_process_port_Name ordinal (Ports.Ports cc) c vars)
    as Hn.
  pose proof (foldl_process_port_Env ordinal (Ports.Ports cc) (c, vars))
    as Henv.
  pose proof (foldl_process_port_kept ordinal port (Ports.Ports cc) c vars
                Hother) as Hkept.
  destruct (foldl _ _ _) as [c1 vars1]. cbn [fst snd] in *. subst vars1.
  split; [done|]. split; [done|].
  cbn [Corev1.Container.Env Corev1.Container.with_Env].
  rewrite (env_lookup_range range range_permutation), Hsettled.
  rewrite port_vars_lookup_other, lookup_empty.
  - rewrite env_lookup_append_ne, Henv; [done|].
    apply port_var_name_not_PodOrdinal.
  - intros q Hq Heq. by apply (Hother q Hq), port_var_name_inj.
Qed.

Hypothesis port_declared : 0 < Corev1.ContainerPort.HostPort port.

(** The configuration that declares the port, once, for the container,
    applies it. *)
Lemma process_container_applied cc
  (pre post : list Corev1.ContainerPort.t) vars c :
  Ports.Ports cc = pre ++ port :: post →
  (∀ q, q ∈ pre →
        Corev1.ContainerPort.Name q ≠ Corev1.ContainerPort.Name port) →
  (∀ q, q ∈ post →
        Corev1.ContainerPort.Name q ≠ Corev1.ContainerPort.Name port) →
  Corev1.Container.Name c = Ports.Name cc →
  Spec.port_applied port ordinal c
    (HostPortHandler.process_container range ordinal cc vars c).1.
Proof.
  intros Hports Hpre Hpost Hname. unfold HostPortHandler.process_container.
  rewrite decide_False by (by intros ?). rewrite Hports.
  pose proof (foldl_process_port_vars ordinal (pre ++ port :: post) c vars)
    as Hvars.
  pose proof (foldl_process_port_Name ordinal (pre ++ port :: post) c vars)
    as Hn.
  pose proof (foldl_process_port_set ordinal port port_declared pre post c
                vars Hpre Hpost) as Hset.
  destruct (foldl _ _ _) as [c1 vars1]. cbn [fst snd] in *. subst vars1.
  split; [done|]. split; [done|].
  cbn [Corev1.Container.Env Corev1.Container.with_Env].
  rewrite (env_lookup_range range range_permutation).
  by rewrite port_vars_lookup_declared.
Qed.

(** The container at an index, after the round for one configuration. *)
Lemma process_config_lookup cc (containers : list Corev1.Container.t)
  (i : nat) c :
  containers !! i = Some c →
  ∃ vars,
    Spec.vars_settled ordinal cc vars
    ∧ HostPortHandler.process_config range ordinal containers cc !! i
      = Some (HostPortHandler.process_container range ordinal cc vars c).1.
Proof.
  intros Hi. unfold HostPortHandler.process_config.
  pose proof (process_containers_Forall2 range ordinal cc
                (Spec.vars_settled ordinal cc) ∅ containers eq_refl
                (λ vars c, process_container_settled cc vars c)) as Hall.
  destruct (Forall2_lookup_l _ _ _ i c Hall Hi)
    as (c' & Hi' & vars & Hvars & ->).
  eauto.
Qed.

Lemma foldl_process_config_untouched
  (configs : list Ports.containerPortsConfig)
  (containers : list Corev1.Container.t) (i : nat) c :
  (∀ cc, cc ∈ configs → Corev1.Container.Name c = Ports.Name cc →
         ∀ q, q ∈ Ports.Ports cc →
              Corev1.ContainerPort.Name q ≠ Corev1.ContainerPort.Name port) →
  containers !! i = Some c →
  ∃ c', foldl (HostPortHandler.process_config range ordinal) containers
          configs !! i = Some c'
        ∧ Spec.port_untouched port c c'.
Proof.
  revert containers c.
  induction configs as [|cc configs IH]; intros containers c Hother Hi.
  { exists c. done. }
  cbn [foldl].
  destruct (process_config_lookup cc containers i c Hi)
    as (vars & Hvars & Hi1).
  assert (Spec.port_untouched port c
            (HostPortHandler.process_container range ordinal cc vars c).1)
    as H1.
  { apply process_container_untouched; [done|].
    apply Hother, elem_of_cons. by left. }
  destruct (IH _ _ (λ cc' Hcc' Hn, Hother cc' (proj2 (elem_of_cons _ _ _)
                                                  (or_intror Hcc'))
                                     (eq_trans (eq_sym (proj1 H1)) Hn))
              Hi1)
    as (c' & Hi' & H2).
  exists c'. split; [done|]. by eapply port_untouched_trans.
Qed.

End DeclaredPort.

Section DeclaredOnce.

Variable v : Ports.portConfigValue.
Variables a b : nat.
Variable cc : Ports.containerPortsConfig.
Variable port : Corev1.ContainerPort.t.
Hypothesis once : Spec.declared_once v a b cc port.

Lemma declared_once_other_config (a' : nat)
  (cc' : Ports.containerPortsConfig) (q : Corev1.ContainerPort.t) :
  Ports.Containers v !! a' = Some cc' → a' ≠ a →
  Ports.Name cc' = Ports.Name cc → q ∈ Ports.Ports cc' →
  Corev1.ContainerPort.Name q ≠ Corev1.ContainerPort.Name port.
Proof.
  intros Ha' Hne Hname Hq Heq. destruct once as (_ & _ & Honce).
  apply list_elem_of_lookup in Hq as [b' Hb'].
  by destruct (Honce a' cc' b' q Ha' Hname Hb' Heq).
Qed.

Lemma declared_once_other_port (b' : nat) (q : Corev1.ContainerPort.t) :
  Ports.Ports cc !! b' = Some q → b' ≠ b →
  Corev1.ContainerPort.Name q ≠ Corev1.ContainerPort.Name port.
Proof.
  intros Hb' Hne Heq. destruct once as (Ha & _ & Honce).
  by destruct (Honce a cc b' q Ha eq_refl Hb' Heq).
Qed.

Lemma declared_once_before (cc' : Ports.containerPortsConfig)
  (q : Corev1.ContainerPort.t) :
  cc' ∈ take a (Ports.Containers v) →
  Ports.Name cc' = Ports.Name cc → q ∈ Ports.Ports cc' →
  Corev1.ContainerPort.Name q ≠ Corev1.ContainerPort.Name port.
Proof.
  intros Hin. apply list_elem_of_lookup in Hin as [a' Ha'].
  apply lookup_take_Some in Ha' as [Ha' Hlt].
  apply (declared_once_other_config a'); [done|lia].
Qed.

Lemma declared_once_behind (cc' : Ports.containerPortsConfig)
  (q : Corev1.ContainerPort.t) :
  cc' ∈ drop (S a) (Ports.Containers v) →
  Ports.Name cc' = Ports.Name cc → q ∈ Ports.Ports cc' →
  Corev1.ContainerPort.Name q ≠ Corev1.ContainerPort.Name port.
Proof.
  intros Hin. apply list_elem_of_lookup in Hin as [a' Ha'].
  rewrite lookup_drop in Ha'.
  apply (declared_once_other_config (S a + a')); [done|lia].
Qed.

Lemma declared_once_ports_before (q : Corev1.ContainerPort.t) :
  q ∈ take b (Ports.Ports cc) →
  Corev1.ContainerPort.Name q ≠ Corev1.ContainerPort.Name port.
Proof.
  intros Hin. apply list_elem_of_lookup in Hin as [b' Hb'].
  apply lookup_take_Some in Hb' as [Hb' Hlt].
  apply (declared_once_other_port b'); [done|lia].
Qed.

Lemma declared_once_ports_behind (q : Corev1.ContainerPort.t) :
  q ∈ drop (S b) (Ports.Ports cc) →
  Corev1.ContainerPort.Name q ≠ Corev1.ContainerPort.Name port.
Proof.
  intros Hin. apply list_elem_of_lookup in Hin as [b' Hb'].
  rewrite lookup_drop in Hb'.
  apply (declared_once_other_port (S b + b')); [done|lia].
Qed.

End DeclaredOnce.

(** [Mutate] on a configuration that declares the port once for the
    containers of a name, for a container of that name. *)
Lemma Mutate_declared_port
  (range : gmap string string → list (string * string))
  (ordinal : Z) (port : Corev1.ContainerPort.t)
  (spec : Corev1.PodSpec.t) (qualifier : string)
  (v : Ports.portConfigValue) (a b : nat) (cc : Ports.containerPortsConfig)
  (i : nat) (c : Corev1.Container.t) :
  (∀ m, range m ≡ₚ map_to_list m) →
  0 < Corev1.ContainerPort.HostPort port →
  Spec.declared_once v a b cc port →
  Annotation.CommonPodQualifier ordinal qualifier = Ret true →
  Corev1.PodSpec.Containers spec !! i = Some c →
  Corev1.Container.Name c = Ports.Name cc →
  ∃ spec' c',
    HostPortHandler.Mutate range spec ordinal
      (Some (portConfigPtr
               {| Ports.qualifier := qualifier; Ports.cfg := Some v |}))
    = Ret (spec', None)
    ∧ Corev1.PodSpec.Containers spec' !! i = Some c'
    ∧ Spec.port_applied port ordinal c c'.
Proof.
  intros Hrange Hdeclared Honce Hq Hi Hname.
  pose proof Honce as (Ha & Hb & _).
  unfold HostPortHandler.Mutate. cbn [Ports.qualifier Ports.cfg].
  rewrite Hq.
  cbn [mbind outcome_bind negb Corev1.PodSpec.with_Containers
         Corev1.PodSpec.Containers].
  rewrite <-(take_drop_middle (Ports.Containers v) a cc Ha).
  rewrite foldl_app. cbn [foldl].
  destruct (foldl_process_config_untouched range Hrange ordinal port
              (take a (Ports.Containers v))
              (Corev1.PodSpec.Containers spec) i c) as (c1 & Hi1 & H1);
    [|done|].
  { intros cc' Hcc' Hn q Hq'.
    apply (declared_once_before v a b cc port Honce cc' q); congruence. }
  destruct (process_config_lookup range ordinal cc _ i c1 Hi1)
    as (vars & _ & Hi2).
  assert (Spec.port_applied port ordinal c1
            (HostPortHandler.process_container range ordinal cc vars c1).1)
    as H2.
  { apply (process_container_applied range Hrange ordinal port Hdeclared cc
             (take b (Ports.Ports cc)) (drop (S b) (Ports.Ports cc))).
    - by rewrite take_drop_middle.
    - apply (declared_once_ports_before v a b cc port Honce).
    - apply (declared_once_ports_behind v a b cc port Honce).
    - destruct H1 as (Hn1 & _). congruence. }
  assert (∀ cc', cc' ∈ drop (S a) (Ports.Containers v) →
            Corev1.Container.Name
              (HostPortHandler.process_container range ordinal cc vars c1).1
            = Ports.Name cc' →
            ∀ q, q ∈ Ports.Ports cc' →
                 Corev1.ContainerPort.Name q
                 ≠ Corev1.ContainerPort.Name port) as Hbehind.
  { intros cc' Hcc' Hn q Hq'.
    apply (declared_once_behind v a b cc port Honce cc' q); [done| |done].
    destruct H1 as (Hn1 & _). destruct H2 as (Hn2 & _). congruence. }
  destruct (foldl_process_config_untouched range Hrange ordinal port
              _ _ i _ Hbehind Hi2) as (c3 & Hi3 & H3).
  eexists _, c3. split; [done|]. split; [exact Hi3|].
  eapply port_untouched_applied; [exact H1|].
  eapply port_applied_untouched; [exact H2|exact H3].
Qed.

Lemma webValue_declared_once :
  Spec.declared_once Fixture.webValue 0 0 Fixture.webPorts Fixture.httpPort.
Proof.
  split; [done|]. split; [done|].
  intros [|a'] cc' [|b'] port' Hcc' _ Hport' _; try done.
  by injection Hcc' as <-.
Qed.

(** The test of the repository: the port is overwritten in place and the
    two variables are added. *)
Example modify_hostPort_and_add_env_vars :
  HostPortHandler.Mutate map_to_list Fixture.webSpec 2
    (Some Fixture.webConfig)
  = Ret (Corev1.PodSpec.mk []
           [Corev1.Container.mk "web" EmptyString
              [Corev1.ContainerPort.mk "http" 30002 8080 EmptyString
                 EmptyString]
              [Corev1.EnvVar.mk "POD_ORDINAL" "2" None;
               Corev1.EnvVar.mk "PORT_http" "30002" None]
              []],
         None).
Proof. by vm_compute. Qed.

(** ** The volume handler *)

Section Mounts.

Variable ordinal : Z.

(** The copy of a declared volume: the names of the ConfigMap and of the
    Secret it refers to get the suffix, the rest is as declared. *)
Lemma process_volume_fields (v : Corev1.Volume.t) :
  Corev1.Volume.Name (MountHandler.process_volume ordinal v)
  = Corev1.Volume.Name v
  ∧ Corev1.Volume.HostPath (MountHandler.process_volume ordinal v)
    = Corev1.Volume.HostPath v
  ∧ Corev1.Volume.ConfigMap (MountHandler.process_volume ordinal v)
    = (λ c, Corev1.ConfigMapVolumeSource.with_Name c
              (Corev1.ConfigMapVolumeSource.Name c
               +:+ "-" +:+ Strconv.Itoa ordinal))
      <$> Corev1.Volume.ConfigMap v
  ∧ Corev1.Volume.Secret (MountHandler.process_volume ordinal v)
    = (λ s, Corev1.SecretVolumeSource.with_SecretName s
              (Corev1.SecretVolumeSource.SecretName s
               +:+ "-" +:+ Strconv.Itoa ordinal))
      <$> Corev1.Volume.Secret v.
Proof.
  unfold MountHandler.process_volume.
  destruct v as [name [c|] [s|] path]; done.
Qed.

(** The mounts a container gets: those of the declared containers of its
    name, in the order of the declaration. *)
Lemma add_mounts_lookup (containers : list Corev1.Container.t)
  (source : Corev1.Container.t) (i : nat) (c : Corev1.Container.t) :
  containers !! i = Some c →
  MountHandler.add_mounts containers source !! i
  = Some (Corev1.Container.with_VolumeMounts c
            (Corev1.Container.VolumeMounts c
             ++ mjoin (Corev1.Container.VolumeMounts
                         <$> filter (λ s, Corev1.Container.Name s
                                          = Corev1.Container.Name c)
                               [source]))).
Proof.
  intros Hi. unfold MountHandler.add_mounts.
  change (map ?f ?l) with (f <$> l). rewrite list_lookup_fmap, Hi. simpl.
  f_equal. destruct (decide (Corev1.Container.Name source
                             = Corev1.Container.Name c)) as [Heq|Hne].
  - rewrite filter_cons_True by done. rewrite filter_nil. simpl.
    by rewrite (right_id_L [] (++)).
  - rewrite filter_cons_False by done. rewrite filter_nil. simpl.
    rewrite (right_id_L [] (++)). by destruct c.
Qed.

Lemma foldl_add_mounts_lookup (sources containers : list Corev1.Container.t)
  (i : nat) (c : Corev1.Container.t) :
  containers !! i = Some c →
  foldl MountHandler.add_mounts containers sources !! i
  = Some (Corev1.Container.with_VolumeMounts c
            (Corev1.Container.VolumeMounts c
             ++ mjoin (Corev1.Container.VolumeMounts
                         <$> filter (λ s, Corev1.Container.Name s
                                          = Corev1.Container.Name c)
                               sources))).
Proof.
  revert containers c. induction sources as [|s sources IH];
    intros containers c Hi.
  - cbn [foldl]. rewrite Hi, filter_nil. simpl.
    rewrite (right_id_L [] (++)). by destruct c.
  - cbn [foldl]. rewrite (IH _ _ (add_mounts_lookup containers s i c Hi)).
    f_equal. destruct c as [name image ports env mounts]. simpl.
    unfold Corev1.Container.with_VolumeMounts. simpl. f_equal.
    destruct (decide (Corev1.Container.Name s = name)) as [Heq|Hne].
    + rewrite !filter_cons_True by done. rewrite filter_nil. simpl.
      by rewrite (right_id_L [] (++)), <-(assoc_L (++)).
    + rewrite !filter_cons_False by done. rewrite filter_nil. simpl.
      by rewrite (right_id_L [] (++)).
Qed.

End Mounts.

Lemma foldl_add_mounts_length (sources containers : list Corev1.Container.t) :
  length (foldl MountHandler.add_mounts containers sources)
  = length containers.
Proof.
  revert containers. induction sources as [|s sources IH]; intros containers;
    [done|].
  cbn [foldl]. rewrite IH. unfold MountHandler.add_mounts.
  apply length_map.
Qed.

(** C9.  When the qualifier matches the ordinal [k], [Mutate] succeeds.
    The volumes of the pod are then the volumes it had, followed by one
    volume for each declared volume, in the order of the declaration:
    that volume is the declared one, except that the name of the
    ConfigMap and the name of the Secret it refers to, if any, end in a
    hyphen and the decimal notation of [k].  The containers of the pod
    are as many as before, and each one has, behind the mounts it had,
    the mounts of every declared container of exactly its name. *)
Theorem C9_mount_volumes (spec : Corev1.PodSpec.t) (ordinal : Z)
  (qualifier : string) (v : Volumes.mountConfigValue) :
  Annotation.CommonPodQualifier ordinal qualifier = Ret true →
  ∃ spec' volumes,
    MountHandler.Mutate spec ordinal
      (Some (mountConfigPtr
               {| Volumes.qualifier := qualifier; Volumes.cfg := Some v |}))
    = Ret (spec', None)
    ∧ Corev1.PodSpec.Volumes spec' = Corev1.PodSpec.Volumes spec ++ volumes
    ∧ length volumes = length (Volumes.Volumes v)
    ∧ (∀ j declared,
         Volumes.Volumes v !! j = Some declared →
         ∃ volume,
           volumes !! j = Some volume
           ∧ Corev1.Volume.Name volume = Corev1.Volume.Name declared
           ∧ Corev1.Volume.HostPath volume = Corev1.Volume.HostPath declared
           ∧ Corev1.Volume.ConfigMap volume
             = (λ c, Corev1.ConfigMapVolumeSource.with_Name c
                       (Corev1.ConfigMapVolumeSource.Name c
                        +:+ "-" +:+ Strconv.Itoa ordinal))
               <$> Corev1.Volume.ConfigMap declared
           ∧ Corev1.Volume.Secret volume
             = (λ s, Corev1.SecretVolumeSource.with_SecretName s
                       (Corev1.SecretVolumeSource.SecretName s
                        +:+ "-" +:+ Strconv.Itoa ordinal))
               <$> Corev1.Volume.Secret declared)
    ∧ length (Corev1.PodSpec.Containers spec')
      = length (Corev1.PodSpec.Containers spec)
    ∧ (∀ i container,
         Corev1.PodSpec.Containers spec !! i = Some container →
         Corev1.PodSpec.Containers spec' !! i
         = Some (Corev1.Container.with_VolumeMounts container
                   (Corev1.Container.VolumeMounts container
                    ++ mjoin (Corev1.Container.VolumeMounts
                                <$> filter
                                      (λ s, Corev1.Container.Name s
                                            = Corev1.Container.Name container)
                                      (Volumes.Containers v))))).
Proof.
  intros Hq. unfold MountHandler.Mutate.
  cbn [Volumes.qualifier Volumes.cfg]. rewrite Hq.
  cbn [mbind outcome_bind negb].
  eexists _, (map (MountHandler.process_volume ordinal) (Volumes.Volumes v)).
  split; [done|].
  cbn [Corev1.PodSpec.Volumes Corev1.PodSpec.Containers
         Corev1.PodSpec.with_Volumes Corev1.PodSpec.with_Containers].
  split; [done|]. split; [apply length_map|]. split; [|split].
  - intros j declared Hj.
    exists (MountHandler.process_volume ordinal declared). split.
    + change (map ?f ?l) with (f <$> l). by rewrite list_lookup_fmap, Hj.
    + apply process_volume_fields.
  - apply foldl_add_mounts_length.
  - intros i container Hi. by apply foldl_add_mounts_lookup.
Qed.

Lemma C9_mount_volumes_witness :
  Annotation.CommonPodQualifier 2 "0-2" = Ret true
  ∧ ∃ spec' volumes,
      MountHandler.Mutate Fixture.testSpec 2
        (Some (mountConfigPtr
                 {| Volumes.qualifier := "0-2";
                    Volumes.cfg := Some Fixture.cfgValue |}))
      = Ret (spec', None)
      ∧ Corev1.PodSpec.Volumes spec' = [] ++ volumes
      ∧ length volumes = 1%nat.
Proof.
  split; [reflexivity|].
  destruct (C9_mount_volumes Fixture.testSpec 2 "0-2" Fixture.cfgValue
              eq_refl)
    as (spec' & volumes & Hmutate & Hvolumes & Hlength & _).
  exists spec', volumes. split; [exact Hmutate|].
  split; [exact Hvolumes|exact Hlength].
Defined.

(** The ConfigMap [cfg] at ordinal 2 becomes [cfg-2], and the container
    gains the declared mount and no other. *)
Example mount_cfg_at_ordinal_2 :
  MountHandler.Mutate Fixture.testSpec 2
    (Some (mountConfigPtr
             {| Volumes.qualifier := EmptyString;
                Volumes.cfg := Some Fixture.cfgValue |}))
  = Ret (Fixture.cfgSpecMutated, None).
Proof. by vm_compute. Qed.

(** * Further properties of the code *)

(** ** The matcher: one-sided bounds *)

(** X1.  A qualifier [N-] matches the ordinals from [N] on, as long as [N] fits
    an [int] or the ordinal is not the largest one; a bound that does not
    fit an [int] is read as [MaxInt].  [N] is any run of decimal digits,
    leading zeros included. *)
Theorem lower_bound_qualifier (o : Z) (n : string) :
  Spec.is_number n = true →
  (Spec.decimal_value n 0 ≤ GoInt.MaxInt ∨ o < GoInt.MaxInt →
   Annotation.CommonPodQualifier o (n +:+ "-")
   = Ret (bool_decide (Spec.decimal_value n 0 ≤ o)))
  ∧ (GoInt.MaxInt < Spec.decimal_value n 0 →
     Annotation.CommonPodQualifier o (n +:+ "-")
     = Ret (bool_decide (GoInt.MaxInt ≤ o))).
Proof.
  intros Hn. rewrite CommonPodQualifier_lower by done. split.
  - intros Hfit. f_equal.
    destruct (Z.leb_spec (Z.min (Spec.decimal_value n 0) GoInt.MaxInt) o);
      case_bool_decide; (done || lia).
  - intros Hbig. f_equal.
    destruct (Z.leb_spec (Z.min (Spec.decimal_value n 0) GoInt.MaxInt) o);
      case_bool_decide; (done || lia).
Qed.

Lemma lower_bound_qualifier_witness :
  Annotation.CommonPodQualifier 5 "03-" = Ret true
  ∧ Annotation.CommonPodQualifier 2 "03-" = Ret false.
Proof.
  split.
  - refine (proj1 (lower_bound_qualifier 5 "03" eq_refl) _).
    left. by vm_compute.
  - refine (proj1 (lower_bound_qualifier 2 "03" eq_refl) _).
    left. by vm_compute.
Defined.

(** X2.  A qualifier [-M] matches the ordinals up to [M]: every ordinal of type
    [int] when [M] does not fit an [int]. *)
Theorem upper_bound_qualifier (o : Z) (m : string) :
  Spec.is_number m = true → o ≤ GoInt.MaxInt →
  Annotation.CommonPodQualifier o ("-" +:+ m)
  = Ret (bool_decide (o ≤ Spec.decimal_value m 0)).
Proof.
  intros Hm Ho. rewrite CommonPodQualifier_upper by done. f_equal.
  destruct (Z.leb_spec o (Z.min (Spec.decimal_value m 0) GoInt.MaxInt));
    case_bool_decide; (done || lia).
Qed.

Lemma upper_bound_qualifier_witness :
  Annotation.CommonPodQualifier 5 "-5" = Ret true
  ∧ Annotation.CommonPodQualifier 6 "-5" = Ret false.
Proof.
  split.
  - refine (upper_bound_qualifier 5 "5" eq_refl _). by vm_compute.
  - refine (upper_bound_qualifier 6 "5" eq_refl _). by vm_compute.
Defined.

(** ** The collector: what the result does not depend on *)

Lemma collect_loop_foreign (l : list (string * string))
  (result : gmap Annotation.QualifiedName string) :
  Annotation.collect_loop l result
  = Annotation.collect_loop
      (filter (λ kv, Strings.HasPrefix kv.1 Annotation.Prefix = true) l)
      result.
Proof.
  revert result. induction l as [|[k v] l IH]; intros result; [done|].
  destruct (Strings.HasPrefix k Annotation.Prefix) eqn:Hprefix.
  - rewrite filter_cons_True by done. simpl.
    destruct (Annotation.collect_entry result k v); simpl; [apply IH|done].
  - rewrite filter_cons_False by (cbn [fst]; by rewrite Hprefix). simpl.
    rewrite collect_entry_skip by done. simpl. apply IH.
Qed.

(** X3.  The annotations whose key does not start with [spoditor.io/] have no
    part in the result: the collector returns what it returns on the map
    without them. *)
Theorem defaultCollector_foreign (annotations : list (string * string)) :
  Annotation.defaultCollector annotations
  = Annotation.defaultCollector
      (filter (λ kv, Strings.HasPrefix kv.1 Annotation.Prefix = true)
         annotations).
Proof. apply collect_loop_foreign. Qed.

(** X4.  The order in which the [range] loop visits the annotations has no
    part in the result either, provided that keys which parse to the same
    name carry the same value (as is the case when no two keys parse to
    the same name). *)
Theorem defaultCollector_order (l1 l2 : list (string * string)) :
  l1 ≡ₚ l2 →
  (∀ k1 v1 k2 v2 qn,
     (k1, v1) ∈ l1 → (k2, v2) ∈ l1 →
     Spec.KeyOf k1 qn → Spec.KeyOf k2 qn → v1 = v2) →
  Annotation.defaultCollector l1 = Annotation.defaultCollector l2.
Proof.
  intros Hperm Hsame. unfold Annotation.defaultCollector.
  destruct (collect_loop_spec l1 ∅) as (r1 & -> & Hfrom1 & Hsome1 & Hto1).
  destruct (collect_loop_spec l2 ∅) as (r2 & -> & Hfrom2 & Hsome2 & Hto2).
  f_equal. apply map_eq. intros qn.
  destruct (r1 !! qn) as [v|] eqn:H1.
  - destruct (Hfrom1 qn v H1) as [Hin|(k & Hin & Hkey)].
    { by rewrite lookup_empty in Hin. }
    symmetry. apply Hto2.
    + intros k' v' Hin' Hkey'. rewrite <-Hperm in Hin'.
      by apply (Hsame k' v' k v qn).
    + right. exists k. by rewrite <-Hperm.
  - destruct (r2 !! qn) as [v|] eqn:H2; [|done].
    destruct (Hfrom2 qn v H2) as [Hin|(k & Hin & Hkey)].
    { by rewrite lookup_empty in Hin. }
    rewrite <-Hperm in Hin.
    destruct (Hsome1 qn) as [v' Hv']; [right; eauto|]. congruence.
Qed.

Lemma defaultCollector_order_witness :
  Annotation.defaultCollector
    [("spoditor.io/host-port", "a"); ("app", "web")]
  = Annotation.defaultCollector
      [("app", "web"); ("spoditor.io/host-port", "a")].
Proof.
  apply defaultCollector_order.
  - apply Permutation_swap.
  - intros k1 v1 k2 v2 qn H1 H2 Hk1 Hk2.
    apply KeyOf_HasPrefix in Hk1, Hk2.
    apply elem_of_cons in H1 as [[= -> ->]|H1];
      [|apply list_elem_of_singleton in H1 as [= -> ->]; discriminate Hk1].
    apply elem_of_cons in H2 as [[= -> ->]|H2];
      [|apply list_elem_of_singleton in H2 as [= -> ->]; discriminate Hk2].
    reflexivity.
Defined.

(** What the collector returns on a pod whose only annotation with the
    prefix parses to [qn]. *)
Lemma defaultCollector_single (annotations : list (string * string))
  (key v : string) (qn : Annotation.QualifiedName) :
  filter (λ kv, Strings.HasPrefix kv.1 Annotation.Prefix = true) annotations
  = [(key, v)] →
  Spec.KeyOf key qn →
  Annotation.defaultCollector annotations = Ret {[ qn := v ]}.
Proof.
  intros Hfilter Hkey. unfold Annotation.defaultCollector.
  rewrite collect_loop_foreign, Hfilter. simpl.
  rewrite (collect_entry_KeyOf ∅ key v qn Hkey). simpl.
  by rewrite insert_empty.
Qed.

(** Likewise on two annotations with the prefix. *)
Lemma defaultCollector_two (k1 v1 k2 v2 : string)
  (qn1 qn2 : Annotation.QualifiedName) :
  Spec.KeyOf k1 qn1 → Spec.KeyOf k2 qn2 →
  Annotation.defaultCollector [(k1, v1); (k2, v2)]
  = Ret (<[ qn2 := v2 ]> {[ qn1 := v1 ]}).
Proof.
  intros Hk1 Hk2. unfold Annotation.defaultCollector. simpl.
  rewrite (collect_entry_KeyOf ∅ k1 v1 qn1 Hk1). simpl.
  rewrite (collect_entry_KeyOf _ k2 v2 qn2 Hk2). simpl.
  by rewrite insert_empty.
Qed.

Lemma KeyOf_host_port :
  Spec.KeyOf "spoditor.io/host-port" Fixture.hostPortName.
Proof. exists "host-port". split; [done|]. by left. Qed.


(** ** The pod identity extractor: every label *)

(** The last instance of a byte. *)
Lemma LastIndex_byte_absent (c : ascii) (s : string) :
  Spec.without_byte c s = true →
  Strings.LastIndex s (String c EmptyString) = -1.
Proof.
  induction s as [|x s IH]; intros H; [done|].
  cbn in H. apply andb_true_iff in H as [Hx Hs].
  apply negb_true_iff, bool_decide_eq_false in Hx.
  simpl. rewrite IH by done. simpl. by rewrite decide_False.
Qed.

Lemma LastIndex_byte_last (c : ascii) (f q : string) :
  Spec.without_byte c q = true →
  Strings.LastIndex (f +:+ String c q) (String c EmptyString)
  = Z.of_nat (String.length f).
Proof.
  intros Hq. induction f as [|x f IH].
  - rewrite str_app_nil_l. simpl.
    rewrite LastIndex_byte_absent by done. simpl. by rewrite decide_True.
  - rewrite str_app_cons. simpl Strings.LastIndex. rewrite IH.
    rewrite (proj2 (Z.leb_le _ _)) by lia. simpl String.length. lia.
Qed.

(** A text is without the byte or splits at the last instance of it. *)
Lemma byte_cases (c : ascii) (s : string) :
  Spec.without_byte c s = true
  ∨ ∃ f q, s = f +:+ String c q ∧ Spec.without_byte c q = true.
Proof.
  induction s as [|x s IH]; [by left|].
  destruct IH as [Hs|(f & q & -> & Hq)].
  - destruct (decide (x = c)) as [->|Hx].
    + right. exists EmptyString, s. done.
    + left. unfold Spec.without_byte in *. simpl.
      by rewrite Hs, bool_decide_eq_false_2.
  - right. exists (String x f), q. done.
Qed.

Lemma without_byte_app (c : ascii) (s t : string) :
  Spec.without_byte c (s +:+ t)
  = Spec.without_byte c s && Spec.without_byte c t.
Proof. apply all_bytes_app. Qed.

Lemma digits_without_hyphen (d : string) :
  Spec.all_bytes Strconv.is_digit d = true → Spec.without_byte "-" d = true.
Proof.
  unfold Spec.without_byte.
  induction d as [|x d IH]; [done|]. simpl. intros H.
  apply andb_true_iff in H as [Hx Hd].
  destruct (is_digit_not_sign x Hx) as [Hminus _].
  by rewrite bool_decide_eq_false_2, IH.
Qed.

(** The two slices at the last hyphen. *)
Lemma slices_at_byte (c : ascii) (f q : string) :
  Strings.slice_from (f +:+ String c q) (Z.of_nat (String.length f) + 1)
  = Ret q
  ∧ Strings.slice_to (f +:+ String c q) (Z.of_nat (String.length f)) = Ret f.
Proof.
  unfold Strings.slice_from, Strings.slice_to, Strings.len.
  rewrite str_length_app. simpl String.length.
  rewrite !(proj2 (Z.leb_le _ _)) by lia. simpl andb. cbv iota.
  rewrite Nat2Z.id, take_app_length. split; [|done]. f_equal.
  replace (Z.to_nat (Z.of_nat (String.length f) + 1))
    with (String.length (f +:+ String c EmptyString))
    by (rewrite str_length_app; simpl; lia).
  change (String c q) with (String c EmptyString +:+ q).
  by rewrite <-str_app_assoc, drop_app_length.
Qed.

(** The name in front of the last hyphen and the digits behind it are
    determined by the label. *)
Lemma name_digits_inj (n n' d d' : string) :
  Spec.all_bytes Strconv.is_digit d = true →
  Spec.all_bytes Strconv.is_digit d' = true →
  n +:+ String "-" d = n' +:+ String "-" d' → n = n' ∧ d = d'.
Proof.
  intros Hd Hd' Heq.
  pose proof (LastIndex_byte_last "-" n d (digits_without_hyphen d Hd)) as H.
  rewrite Heq, (LastIndex_byte_last "-" n' d' (digits_without_hyphen d' Hd'))
    in H.
  apply Nat2Z.inj in H.
  pose proof (take_app_length n (String "-" d)) as Hn.
  rewrite Heq, <-H, take_app_length in Hn. subst n'.
  split; [done|].
  pose proof (drop_app_length n (String "-" d)) as Hdrop.
  rewrite Heq, drop_app_length in Hdrop. by injection Hdrop as ->.
Qed.

(** What the pattern [^(.+)-(\d+)$] finds in a label made of a name,
    a hyphen and digits. *)
Lemma statefulsetPodNameRegex_name_digits (name digits : string) :
  name ≠ EmptyString → Spec.without_byte "010" name = true →
  Spec.is_number digits = true →
  Identifier.statefulsetPodNameRegex (name +:+ "-" +:+ digits)
  = Some [name +:+ "-" +:+ digits; name; digits].
Proof.
  intros Hne Hname Hdigits.
  unfold Identifier.statefulsetPodNameRegex, FindStringSubmatch.
  assert (matches (Plus dot) name = true) as Hm1.
  { apply matches_lang, lang_plus_class. done. }
  assert (matches (Plus digit) digits = true) as Hm2.
  { by apply matches_lang, lang_number. }
  destruct (find_groups_complete (Plus dot) "-" (Plus digit)
              (name +:+ "-" +:+ digits) name digits eq_refl Hm1 Hm2)
    as [[m1 m2] Hfind].
  rewrite Hfind.
  apply find_groups_sound in Hfind as (Heq & _ & H2).
  apply matches_lang, lang_number, is_number_spec in H2 as [_ H2].
  apply is_number_spec in Hdigits as [_ Hdigits].
  symmetry in Heq. apply name_digits_inj in Heq as [-> ->]; done.
Qed.

(** X5.  A label made of a name, a hyphen and digits: the name has no line
    feed and is not empty, the digits may start with zeros.  The
    extractor returns the name and the number the digits denote, or the
    error for an ordinal that cannot be parsed when that number does not
    fit an [int]. *)
Theorem LabelSSPodIdentifier_name_digits (accessor : Corev1.Pod.t)
  (name digits : string) :
  name ≠ EmptyString → Spec.without_byte "010" name = true →
  Spec.is_number digits = true →
  Corev1.Pod.Labels accessor !! podNameLabel
  = Some (name +:+ "-" +:+ digits) →
  (Spec.decimal_value digits 0 ≤ GoInt.MaxInt →
   Identifier.LabelSSPodIdentifier accessor
   = Ret (name, Spec.decimal_value digits 0, None))
  ∧ (GoInt.MaxInt < Spec.decimal_value digits 0 →
     ∃ msg,
       Identifier.LabelSSPodIdentifier accessor
       = Ret (EmptyString, -1,
              Some (wrapError msg Identifier.ErrParsingOrdinal))).
Proof.
  intros Hne Hname Hdigits Hl. unfold Identifier.LabelSSPodIdentifier.
  rewrite Hl, statefulsetPodNameRegex_name_digits by done. simpl.
  rewrite Atoi_number by done.
  destruct (Z.leb_spec (Spec.decimal_value digits 0) GoInt.MaxInt).
  - split; [done|lia].
  - split; [lia|]. intros _. by eexists.
Qed.

Lemma LabelSSPodIdentifier_name_digits_witness :
  Identifier.LabelSSPodIdentifier (Fixture.labelled "web-007")
  = Ret ("web", 7, None)
  ∧ ∃ msg,
      Identifier.LabelSSPodIdentifier
        (Fixture.labelled "web-9223372036854775808")
      = Ret (EmptyString, -1,
             Some (wrapError msg Identifier.ErrParsingOrdinal)).
Proof.
  split.
  - refine (proj1 (LabelSSPodIdentifier_name_digits
                     (Fixture.labelled "web-007") "web" "007"
                     ltac:(discriminate) eq_refl eq_refl eq_refl) _).
    by vm_compute.
  - refine (proj2 (LabelSSPodIdentifier_name_digits
                     (Fixture.labelled "web-9223372036854775808")
                     "web" "9223372036854775808" ltac:(discriminate)
                     eq_refl eq_refl eq_refl) _).
    by vm_compute.
Defined.

(** X6.  The label the StatefulSet controller writes for the pod of ordinal
    [k] of the set [name] is read back as [name] and [k]. *)
Theorem LabelSSPodIdentifier_round_trip (accessor : Corev1.Pod.t)
  (name : string) (k : Z) :
  name ≠ EmptyString → Spec.without_byte "010" name = true →
  0 ≤ k ≤ GoInt.MaxInt →
  Corev1.Pod.Labels accessor !! podNameLabel
  = Some (name +:+ "-" +:+ Strconv.Itoa k) →
  Identifier.LabelSSPodIdentifier accessor = Ret (name, k, None).
Proof.
  intros Hne Hname Hk Hl.
  destruct (Itoa_number k) as [Hnum Hval]; [lia|].
  unfold Identifier.LabelSSPodIdentifier.
  rewrite Hl, statefulsetPodNameRegex_name_digits by done. simpl.
  rewrite Atoi_number, Hval by done.
  by rewrite (proj2 (Z.leb_le _ _)) by lia.
Qed.

Lemma LabelSSPodIdentifier_round_trip_witness :
  Identifier.LabelSSPodIdentifier (Fixture.labelled "redis-cluster-12")
  = Ret ("redis-cluster", 12, None).
Proof.
  refine (LabelSSPodIdentifier_round_trip
            (Fixture.labelled "redis-cluster-12") "redis-cluster" 12
            ltac:(discriminate) eq_refl _ eq_refl).
  by vm_compute.
Defined.

(** ** The two extractors *)

Lemma labelPattern_match (name digits : string) :
  matches (Plus dot) name = true → matches (Plus digit) digits = true →
  MatchString IdentifierUnanchored.labelPattern (name +:+ String "-" digits)
  = true.
Proof.
  intros Hname Hdigits. unfold MatchString. cbn [bol body eol
    IdentifierUnanchored.labelPattern].
  apply matches_lang. apply matches_lang in Hname, Hdigits.
  rewrite <-(str_app_nil_l (name +:+ String "-" digits)).
  constructor; [constructor|].
  rewrite <-(str_app_nil_r (name +:+ String "-" digits)).
  constructor; [|constructor].
  constructor; [done|].
  change (String "-" digits) with (String "-" EmptyString +:+ digits).
  constructor; [by apply lang_lit|done].
Qed.

(** X7.  Whenever the extractor with the anchored pattern returns a name and
    an ordinal, the extractor that tests the label with [.+-\d+] and
    splits it at the last hyphen returns the same name and ordinal. *)
Theorem extractors_agree_on_success (accessor : Corev1.Pod.t)
  (ssName : string) (ordinal : Z) :
  Identifier.LabelSSPodIdentifier accessor = Ret (ssName, ordinal, None) →
  IdentifierUnanchored.LabelSSPodIdentifier accessor
  = Ret (ssName, ordinal, None).
Proof.
  unfold Identifier.LabelSSPodIdentifier,
    IdentifierUnanchored.LabelSSPodIdentifier.
  destruct (Corev1.Pod.Labels accessor !! podNameLabel) as [l|]; [|done].
  unfold Identifier.statefulsetPodNameRegex, FindStringSubmatch.
  destruct (find_groups _ _ _ l) as [[name digits]|] eqn:Hfind; [|done].
  apply find_groups_sound in Hfind as (-> & Hname & Hdigits).
  simpl. rewrite labelPattern_match by done. simpl.
  pose proof Hdigits as Hnum. apply matches_lang, lang_number in Hnum.
  pose proof Hnum as [_ Hd]%is_number_spec.
  rewrite LastIndex_byte_last by (by apply digits_without_hyphen).
  destruct (slices_at_byte "-" name digits) as [-> ->]. simpl.
  rewrite Atoi_number by done.
  destruct (Spec.decimal_value digits 0 <=? GoInt.MaxInt); [|done].
  simpl. by intros [= <- <-].
Qed.

Lemma extractors_agree_on_success_witness :
  IdentifierUnanchored.LabelSSPodIdentifier (Fixture.labelled "web-3")
  = Ret ("web", 3, None).
Proof.
  exact (extractors_agree_on_success (Fixture.labelled "web-3") "web" 3
           eq_refl).
Defined.

Lemma labelPattern_hyphen (l : string) :
  MatchString IdentifierUnanchored.labelPattern l = true →
  Spec.without_byte "-" l = false.
Proof.
  unfold MatchString. cbn [bol body eol IdentifierUnanchored.labelPattern].
  intros H. apply matches_lang in H.
  apply lang_cat_inv in H as (s1 & s2 & -> & _ & H).
  apply lang_cat_inv in H as (s2' & s3 & -> & H & _).
  apply lang_cat_inv in H as (n & s4 & -> & _ & H).
  apply lang_cat_inv in H as (h & d & -> & H & _).
  apply lang_lit in H as ->.
  rewrite !without_byte_app. cbn.
  by rewrite !andb_false_r, ?andb_false_l.
Qed.

(** X8.  The extractor that splits the label at its last hyphen returns on
    every pod: a label the pattern [.+-\d+] accepts holds a hyphen, so
    that the two slice expressions are within bounds.  On success the
    name is the label up to its last hyphen and the ordinal is what
    [strconv.Atoi] makes of the rest, 0 when the rest is no number. *)
Theorem IdentifierUnanchored_returns (accessor : Corev1.Pod.t) :
  ∃ ssName ordinal err,
    IdentifierUnanchored.LabelSSPodIdentifier accessor
    = Ret (ssName, ordinal, err)
    ∧ (err = None →
       ∃ rest,
         Corev1.Pod.Labels accessor !! podNameLabel
         = Some (ssName +:+ "-" +:+ rest)
         ∧ Spec.without_byte "-" rest = true
         ∧ ordinal = (Strconv.Atoi rest).1).
Proof.
  unfold IdentifierUnanchored.LabelSSPodIdentifier.
  destruct (Corev1.Pod.Labels accessor !! podNameLabel) as [l|];
    [|by eexists _, _, _].
  destruct (MatchString IdentifierUnanchored.labelPattern l) eqn:Hmatch;
    simpl; [|by eexists _, _, _].
  apply labelPattern_hyphen in Hmatch.
  destruct (byte_cases "-" l) as [Hl|(f & q & -> & Hq)]; [congruence|].
  rewrite LastIndex_byte_last by done.
  destruct (slices_at_byte "-" f q) as [-> ->]. simpl.
  eexists _, _, _. split; [done|]. intros _. exists q. done.
Qed.

(** ** The pipeline: pods that are left alone *)

Lemma with_Spec_Spec (pod : Corev1.Pod.t) :
  Corev1.Pod.with_Spec pod (Corev1.Pod.Spec pod) = pod.
Proof. by destruct pod. Qed.

(** X9.  A pod without the pod name label, or with a label that has not the
    form of a pod name, is left as it is by [Default], whatever handlers
    are registered, and is admitted without a patch by either [Handle]. *)
Theorem other_pods_are_ignored (m : Webhook.PodMutator)
  (pod : Corev1.Pod.t) :
  Webhook.ssPodId m = Identifier.LabelSSPodIdentifier →
  (∀ l name digits,
     Corev1.Pod.Labels pod !! podNameLabel = Some l →
     ¬ Spec.PodNameForm l name digits) →
  Webhook.Default m pod = Ret (pod, None)
  ∧ (∃ msg, Webhook.Handle m pod = Ret (Admission.Allowed msg))
  ∧ (∀ Error range_annotations,
       ∃ msg, WebhookInternal.Handle Error range_annotations m pod
              = Ret (Admission.Allowed msg)).
Proof.
  intros Hid Hform.
  assert (∃ e, Identifier.LabelSSPodIdentifier pod
               = Ret (EmptyString, -1, Some e)) as [e He].
  { destruct (Corev1.Pod.Labels pod !! podNameLabel) as [l|] eqn:Hl.
    - eexists. apply (LabelSSPodIdentifier_invalid pod l Hl).
      intros name digits. by apply Hform.
    - eexists. by apply LabelSSPodIdentifier_missing. }
  unfold Webhook.Default, Webhook.Handle, WebhookInternal.Handle.
  rewrite Hid, He. split; [done|]. split; [by eexists|].
  intros Error range_annotations. by eexists.
Qed.

Lemma other_pods_are_ignored_witness :
  Webhook.Default Fixture.mutator Fixture.unlabelled
  = Ret (Fixture.unlabelled, None).
Proof.
  refine (proj1 (other_pods_are_ignored Fixture.mutator Fixture.unlabelled
                   eq_refl _)).
  intros l name digits Hl. discriminate Hl.
Defined.

(** ** The pipeline: the first handler that fails *)

(** X10.  When the handlers in front of a handler have run without error, a
    parse error of that handler, or an error of its [Mutate], ends
    [applyHandlers]: the error returned wraps it (and, for an error of
    [Mutate], names the index of the handler), no handler behind it is
    parsed or run, and the pod keeps what the handlers before it, and the
    failed [Mutate], have written. *)
Theorem applyHandlers_first_failure (m : Webhook.PodMutator)
  (pre post : list Annotation.Handler) (h : Annotation.Handler)
  (pod : Corev1.Pod.t) (ordinal : Z)
  (annotations : gmap Annotation.QualifiedName string)
  (spec1 : Corev1.PodSpec.t) :
  Webhook.handlers m = pre ++ h :: post →
  Webhook.collector m (Corev1.Pod.Annotations pod) = Ret annotations →
  Webhook.applyHandlers_loop pre 0 annotations (Corev1.Pod.Spec pod) ordinal
  = Ret (spec1, None) →
  (∀ config e,
     Annotation.GetParser h annotations = (config, Some e) →
     ∃ msg,
       Webhook.applyHandlers m pod ordinal
       = Ret (Corev1.Pod.with_Spec pod spec1, Some (wrapError msg e)))
  ∧ (∀ c spec2 e,
       Annotation.GetParser h annotations = (Some c, None) →
       Annotation.Mutate h spec1 ordinal (Some c) = Ret (spec2, Some e) →
       Webhook.applyHandlers m pod ordinal
       = Ret (Corev1.Pod.with_Spec pod spec2,
              Some (wrapError
                      ("handler " +:+ Strconv.Itoa (Z.of_nat (length pre))
                       +:+ ": mutation error") e))).
Proof.
  intros Hhandlers Hcollect Hpre.
  unfold Webhook.applyHandlers. rewrite Hhandlers, Hcollect.
  cbn [mbind outcome_bind]. rewrite applyHandlers_loop_app, Hpre.
  cbn [mbind outcome_bind fst snd Webhook.applyHandlers_loop Z.add].
  split.
  - intros config e ->. by eexists.
  - intros c spec2 e -> Hmutate. by rewrite Hmutate.
Qed.

Lemma applyHandlers_first_failure_witness :
  ∃ msg,
    Webhook.applyHandlers Fixture.mutator Fixture.garbagePod 2
    = Ret (Fixture.garbagePod,
           Some (wrapError msg
                   (wrapError "failed to parse port configuration"
                      (errorString "invalid character")))).
Proof.
  refine (proj1 (applyHandlers_first_failure Fixture.mutator
                   [MountHandler.handler Fixture.unmarshalMounts map_to_list]
                   []
                   (HostPortHandler.handler map_to_list Fixture.unmarshalPorts
                      map_to_list)
                   Fixture.garbagePod 2
                   {[ Fixture.hostPortName := "{" ]}
                   Fixture.testSpec _ _ _)
            None _ _).
  - reflexivity.
  - by apply (defaultCollector_single _ "spoditor.io/host-port" "{"),
      KeyOf_host_port.
  - by vm_compute.
  - by vm_compute.
Defined.

(** ** The pipeline: annotations of other features *)

Lemma MountHandler_parse_loop_absent
  (Unmarshal : string → Volumes.mountConfigValue + error)
  (entries : list (Annotation.QualifiedName * string)) :
  (∀ k v, (k, v) ∈ entries → Annotation.Name k ≠ Volumes.MountVolume) →
  MountHandler.parse_loop Unmarshal entries = (None, None).
Proof.
  induction entries as [|[k v] entries IH]; intros Hother; [done|].
  simpl. rewrite decide_True by (apply (Hother k v), elem_of_cons; by left).
  apply IH. intros k' v' Hin. apply (Hother k' v'), elem_of_cons. by right.
Qed.

Lemma HostPortHandler_parse_loop_absent
  (Unmarshal : string → Ports.portConfigValue + error)
  (entries : list (Annotation.QualifiedName * string)) :
  (∀ k v, (k, v) ∈ entries → Annotation.Name k ≠ Ports.HostPort) →
  HostPortHandler.parse_loop Unmarshal entries = (None, None).
Proof.
  induction entries as [|[k v] entries IH]; intros Hother; [done|].
  simpl. rewrite decide_True by (apply (Hother k v), elem_of_cons; by left).
  apply IH. intros k' v' Hin. apply (Hother k' v'), elem_of_cons. by right.
Qed.

Section Setup.

Variable unmarshalMounts : string → Volumes.mountConfigValue + error.
Variable unmarshalPorts : string → Ports.portConfigValue + error.
Variables range_mounts range_ports :
  gmap Annotation.QualifiedName string
  → list (Annotation.QualifiedName * string).
Variable range_vars : gmap string string → list (string * string).
Hypothesis range_mounts_permutation : ∀ m, range_mounts m ≡ₚ map_to_list m.
Hypothesis range_ports_permutation : ∀ m, range_ports m ≡ₚ map_to_list m.

Lemma volumeMountParser_absent
  (annotations : gmap Annotation.QualifiedName string) :
  (∀ qn, is_Some (annotations !! qn) →
         Annotation.Name qn ≠ Volumes.MountVolume) →
  MountHandler.volumeMountParser unmarshalMounts range_mounts annotations
  = (None, None).
Proof.
  intros Hother. apply MountHandler_parse_loop_absent.
  intros k v Hin. rewrite range_mounts_permutation in Hin.
  apply elem_of_map_to_list in Hin. apply Hother. eauto.
Qed.

Lemma parser_absent (annotations : gmap Annotation.QualifiedName string) :
  (∀ qn, is_Some (annotations !! qn) →
         Annotation.Name qn ≠ Ports.HostPort) →
  HostPortHandler.parser unmarshalPorts range_ports annotations
  = (None, None).
Proof.
  intros Hother. apply HostPortHandler_parse_loop_absent.
  intros k v Hin. rewrite range_ports_permutation in Hin.
  apply elem_of_map_to_list in Hin. apply Hother. eauto.
Qed.

Lemma range_mounts_singleton (qn : Annotation.QualifiedName) (v : string) :
  range_mounts {[ qn := v ]} = [(qn, v)].
Proof.
  apply Permutation_singleton_r. rewrite range_mounts_permutation.
  by rewrite map_to_list_singleton.
Qed.

Lemma range_ports_singleton (qn : Annotation.QualifiedName) (v : string) :
  range_ports {[ qn := v ]} = [(qn, v)].
Proof.
  apply Permutation_singleton_r. rewrite range_ports_permutation.
  by rewrite map_to_list_singleton.
Qed.

End Setup.

(** X11.  A pod none of whose annotations names the feature [mount-volume] or
    the feature [host-port] is left as it is by the webhook, whatever its
    labels: annotations without the prefix and annotations of other
    features are passed over. *)
Theorem Default_other_features
  (unmarshalMounts : string → Volumes.mountConfigValue + error)
  (unmarshalPorts : string → Ports.portConfigValue + error)
  (range_mounts range_ports :
     gmap Annotation.QualifiedName string
     → list (Annotation.QualifiedName * string))
  (range_vars : gmap string string → list (string * string))
  (pod : Corev1.Pod.t) :
  (∀ m, range_mounts m ≡ₚ map_to_list m) →
  (∀ m, range_ports m ≡ₚ map_to_list m) →
  (∀ k v qn,
     (k, v) ∈ Corev1.Pod.Annotations pod → Spec.KeyOf k qn →
     Annotation.Name qn ≠ Volumes.MountVolume
     ∧ Annotation.Name qn ≠ Ports.HostPort) →
  Webhook.Default
    (SetupPodWebhookWithManager unmarshalMounts unmarshalPorts
       range_mounts range_ports range_vars) pod
  = Ret (pod, None).
Proof.
  intros Hmounts Hports Hother. unfold Webhook.Default.
  cbn [Webhook.ssPodId SetupPodWebhookWithManager].
  destruct (LabelSSPodIdentifier_total pod) as [[[ssName ordinal] err] ->].
  cbn [mbind outcome_bind fst snd]. destruct err as [e|]; [done|].
  unfold Webhook.applyHandlers.
  cbn [Webhook.collector Webhook.handlers SetupPodWebhookWithManager].
  unfold Annotation.Collector, Annotation.defaultCollector.
  destruct (collect_loop_spec (Corev1.Pod.Annotations pod) ∅)
    as (result & -> & Hfrom & _ & _).
  cbn [mbind outcome_bind].
  assert (∀ qn, is_Some (result !! qn) →
            Annotation.Name qn ≠ Volumes.MountVolume
            ∧ Annotation.Name qn ≠ Ports.HostPort) as Hnames.
  { intros qn [v Hv]. destruct (Hfrom qn v Hv) as [Hin|(k & Hin & Hkey)].
    - by rewrite lookup_empty in Hin.
    - by apply (Hother k v qn). }
  cbn [Webhook.applyHandlers_loop Annotation.GetParser MountHandler.handler
         HostPortHandler.handler].
  rewrite (volumeMountParser_absent _ _ Hmounts)
    by (intros qn Hqn; by apply Hnames).
  rewrite (parser_absent _ _ Hports) by (intros qn Hqn; by apply Hnames).
  cbn [mbind outcome_bind fst snd]. by rewrite with_Spec_Spec.
Qed.

(** X12.  The pod is labelled as the pod of ordinal [k] of a StatefulSet and
    its only annotation with the prefix names the feature [mount-volume]
    with the qualifier [q]; the value of the annotation decodes to a
    configuration that declares a volume.  The webhook then does to the
    pod what [MountHandler.Mutate] does to its specification at the
    ordinal [k] under the qualifier [q], and nothing else. *)
Theorem Default_mount_volume
  (unmarshalMounts : string → Volumes.mountConfigValue + error)
  (unmarshalPorts : string → Ports.portConfigValue + error)
  (range_mounts range_ports :
     gmap Annotation.QualifiedName string
     → list (Annotation.QualifiedName * string))
  (range_vars : gmap string string → list (string * string))
  (pod : Corev1.Pod.t) (name : string) (k : Z)
  (key q v : string) (config : Volumes.mountConfigValue) :
  (∀ m, range_mounts m ≡ₚ map_to_list m) →
  (∀ m, range_ports m ≡ₚ map_to_list m) →
  name ≠ EmptyString → Spec.without_byte "010" name = true →
  0 ≤ k ≤ GoInt.MaxInt →
  Corev1.Pod.Labels pod !! podNameLabel
  = Some (name +:+ "-" +:+ Strconv.Itoa k) →
  filter (λ kv, Strings.HasPrefix kv.1 Annotation.Prefix = true)
    (Corev1.Pod.Annotations pod)
  = [(key, v)] →
  Spec.KeyOf key {| Annotation.Qualifier := q;
                    Annotation.Name := Volumes.MountVolume |} →
  unmarshalMounts v = inl config →
  Volumes.Volumes config ≠ [] →
  Webhook.Default
    (SetupPodWebhookWithManager unmarshalMounts unmarshalPorts
       range_mounts range_ports range_vars) pod
  = r ← MountHandler.Mutate (Corev1.Pod.Spec pod) k
          (Some (mountConfigPtr
                   {| Volumes.qualifier := q; Volumes.cfg := Some config |}));
    Ret (Corev1.Pod.with_Spec pod r.1, None).
Proof.
  intros Hmounts Hports Hne Hname Hk Hl Hfilter Hkey Hconfig Hvolumes.
  unfold Webhook.Default.
  cbn [Webhook.ssPodId SetupPodWebhookWithManager].
  destruct (Itoa_number k) as [Hnum Hval]; [lia|].
  unfold Identifier.LabelSSPodIdentifier.
  rewrite Hl, statefulsetPodNameRegex_name_digits by done.
  cbn [index lookup list_lookup mbind outcome_bind].
  rewrite Atoi_number, Hval, (proj2 (Z.leb_le _ _)) by (done || lia).
  cbn [mbind outcome_bind fst snd]. unfold Webhook.applyHandlers.
  cbn [Webhook.collector Webhook.handlers SetupPodWebhookWithManager].
  unfold Annotation.Collector.
  rewrite (defaultCollector_single _ key v _ Hfilter Hkey).
  cbn [mbind outcome_bind Webhook.applyHandlers_loop Annotation.GetParser
         Annotation.Mutate MountHandler.handler HostPortHandler.handler].
  unfold MountHandler.volumeMountParser at 1.
  rewrite (range_mounts_singleton _ Hmounts).
  cbn [MountHandler.parse_loop Annotation.Name Annotation.Qualifier].
  rewrite decide_False by (by intros ?). rewrite Hconfig.
  rewrite decide_False by (by destruct (Volumes.Volumes config)).
  rewrite (parser_absent _ _ Hports).
  2:{ intros qn [v' Hv']. apply lookup_singleton_Some in Hv' as [<- _].
      done. }
  unfold MountHandler.Mutate. cbn [Volumes.qualifier Volumes.cfg].
  destruct (Annotation.CommonPodQualifier k q) as [[|]|msg];
    cbn [mbind outcome_bind negb fst snd]; done.
Qed.

(** X13.  Likewise for the feature [host-port]: the volume handler finds no
    configuration and is passed over, and the webhook does to the pod
    what [HostPortHandler.Mutate] does to its specification. *)
Theorem Default_host_port
  (unmarshalMounts : string → Volumes.mountConfigValue + error)
  (unmarshalPorts : string → Ports.portConfigValue + error)
  (range_mounts range_ports :
     gmap Annotation.QualifiedName string
     → list (Annotation.QualifiedName * string))
  (range_vars : gmap string string → list (string * string))
  (pod : Corev1.Pod.t) (name : string) (k : Z)
  (key q v : string) (config : Ports.portConfigValue) :
  (∀ m, range_mounts m ≡ₚ map_to_list m) →
  (∀ m, range_ports m ≡ₚ map_to_list m) →
  name ≠ EmptyString → Spec.without_byte "010" name = true →
  0 ≤ k ≤ GoInt.MaxInt →
  Corev1.Pod.Labels pod !! podNameLabel
  = Some (name +:+ "-" +:+ Strconv.Itoa k) →
  filter (λ kv, Strings.HasPrefix kv.1 Annotation.Prefix = true)
    (Corev1.Pod.Annotations pod)
  = [(key, v)] →
  Spec.KeyOf key {| Annotation.Qualifier := q;
                    Annotation.Name := Ports.HostPort |} →
  unmarshalPorts v = inl config →
  Webhook.Default
    (SetupPodWebhookWithManager unmarshalMounts unmarshalPorts
       range_mounts range_ports range_vars) pod
  = r ← HostPortHandler.Mutate range_vars (Corev1.Pod.Spec pod) k
          (Some (portConfigPtr
                   {| Ports.qualifier := q; Ports.cfg := Some config |}));
    Ret (Corev1.Pod.with_Spec pod r.1, None).
Proof.
  intros Hmounts Hports Hne Hname Hk Hl Hfilter Hkey Hconfig.
  unfold Webhook.Default.
  cbn [Webhook.ssPodId SetupPodWebhookWithManager].
  destruct (Itoa_number k) as [Hnum Hval]; [lia|].
  unfold Identifier.LabelSSPodIdentifier.
  rewrite Hl, statefulsetPodNameRegex_name_digits by done.
  cbn [index lookup list_lookup mbind outcome_bind].
  rewrite Atoi_number, Hval, (proj2 (Z.leb_le _ _)) by (done || lia).
  cbn [mbind outcome_bind fst snd]. unfold Webhook.applyHandlers.
  cbn [Webhook.collector Webhook.handlers SetupPodWebhookWithManager].
  unfold Annotation.Collector.
  rewrite (defaultCollector_single _ key v _ Hfilter Hkey).
  cbn [mbind outcome_bind Webhook.applyHandlers_loop Annotation.GetParser
         Annotation.Mutate MountHandler.handler HostPortHandler.handler].
  rewrite (volumeMountParser_absent _ _ Hmounts).
  2:{ intros qn [v' Hv']. apply lookup_singleton_Some in Hv' as [<- _].
      done. }
  unfold HostPortHandler.parser at 1.
  rewrite (range_ports_singleton _ Hports).
  cbn [HostPortHandler.parse_loop Annotation.Name Annotation.Qualifier].
  rewrite decide_False by (by intros ?). rewrite Hconfig.
  unfold HostPortHandler.Mutate. cbn [Ports.qualifier Ports.cfg].
  destruct (Annotation.CommonPodQualifier k q) as [[|]|msg];
    cbn [mbind outcome_bind negb fst snd]; done.
Qed.

Lemma Default_mount_volume_witness :
  Webhook.Default Fixture.mutator (Fixture.qualifiedPod "test-statefulset-1")
  = r ← MountHandler.Mutate Fixture.testSpec 1
          (Some (mountConfigPtr
                   {| Volumes.qualifier := "0-2";
                      Volumes.cfg := Some Fixture.mountValue |}));
    Ret (Corev1.Pod.with_Spec (Fixture.qualifiedPod "test-statefulset-1") r.1, None).
Proof.
  refine (Default_mount_volume Fixture.unmarshalMounts Fixture.unmarshalPorts
            map_to_list map_to_list map_to_list
            (Fixture.qualifiedPod "test-statefulset-1") "test-statefulset" 1
            "spoditor.io/mount-volume_0-2" "0-2" Fixture.mountJSON
            Fixture.mountValue
            (λ m, reflexivity (map_to_list m))
            (λ m, reflexivity (map_to_list m))
            _ _ _ _ _ KeyOf_mount_volume_0_2 _ _).
  - discriminate.
  - reflexivity.
  - by vm_compute.
  - reflexivity.
  - reflexivity.
  - reflexivity.
  - discriminate.
Defined.

Lemma Default_host_port_witness :
  Webhook.Default Fixture.mutator Fixture.portPod
  = r ← HostPortHandler.Mutate map_to_list Fixture.testSpec 2
          (Some (portConfigPtr
                   {| Ports.qualifier := EmptyString;
                      Ports.cfg := Some Fixture.hostPortValue |}));
    Ret (Corev1.Pod.with_Spec Fixture.portPod r.1, None).
Proof.
  refine (Default_host_port Fixture.unmarshalMounts Fixture.unmarshalPorts
            map_to_list map_to_list map_to_list
            Fixture.portPod "test-statefulset" 2
            "spoditor.io/host-port" EmptyString Fixture.hostPortJSON
            Fixture.hostPortValue
            (λ m, reflexivity (map_to_list m))
            (λ m, reflexivity (map_to_list m))
            _ _ _ _ _ KeyOf_host_port _).
  - discriminate.
  - reflexivity.
  - by vm_compute.
  - reflexivity.
  - reflexivity.
  - reflexivity.
Defined.

Lemma Default_other_features_witness :
  Webhook.Default Fixture.mutator
    (Corev1.Pod.mk {[ podNameLabel := "test-statefulset-0" ]}
       [("app", "web")] Fixture.testSpec)
  = Ret (Corev1.Pod.mk {[ podNameLabel := "test-statefulset-0" ]}
           [("app", "web")] Fixture.testSpec, None).
Proof.
  refine (Default_other_features Fixture.unmarshalMounts Fixture.unmarshalPorts
            map_to_list map_to_list map_to_list _
            (λ m, reflexivity (map_to_list m))
            (λ m, reflexivity (map_to_list m)) _).
  intros k v qn Hin Hkey. apply list_elem_of_singleton in Hin as [= -> ->].
  apply KeyOf_HasPrefix in Hkey. discriminate Hkey.
Defined.

(** ** The two webhooks *)






(** ** Registration *)

(** X15.  [Register] puts the handler behind the handlers registered
    before it and leaves the rest of the webhook as it is: [applyHandlers]
    of the new webhook does what [applyHandlers] of the old one does and,
    when that ends without error, parses and runs the new handler, under
    the index that is the number of the handlers registered before, on
    the specification they have left.  A nil handler is not
    registered. *)
Theorem Register_runs_last (r : Webhook.PodMutator) (h : Annotation.Handler)
  (pod : Corev1.Pod.t) (ordinal : Z)
  (annotations : gmap Annotation.QualifiedName string) :
  Webhook.collector r (Corev1.Pod.Annotations pod) = Ret annotations →
  Webhook.applyHandlers (Webhook.Register r (Some h)) pod ordinal
  = (before ← Webhook.applyHandlers r pod ordinal;
     match before.2 with
     | Some _ => Ret before
     | None =>
         after ← Webhook.applyHandlers_loop [h]
                   (Z.of_nat (length (Webhook.handlers r))) annotations
                   (Corev1.Pod.Spec before.1) ordinal;
         Ret (Corev1.Pod.with_Spec pod after.1, after.2)
     end)
  ∧ Webhook.ssPodId (Webhook.Register r (Some h)) = Webhook.ssPodId r
  ∧ Webhook.collector (Webhook.Register r (Some h)) = Webhook.collector r
  ∧ Webhook.Register r None = r.
Proof.
  intros Hcollect. split; [|done].
  unfold Webhook.applyHandlers, Webhook.Register.
  cbn [Webhook.collector Webhook.handlers]. rewrite Hcollect.
  cbn [mbind outcome_bind]. rewrite applyHandlers_loop_app.
  destruct (Webhook.applyHandlers_loop (Webhook.handlers r) 0 annotations
              (Corev1.Pod.Spec pod) ordinal) as [[spec' [e|]]|msg];
    cbn [mbind outcome_bind fst snd]; [done| |done].
  by destruct pod.
Qed.

Lemma Register_runs_last_witness :
  Webhook.applyHandlers
    (Webhook.Register
       (Webhook.Register
          (Webhook.NewPodArgumentor Identifier.LabelSSPodIdentifier
             Annotation.Collector)
          (Some (MountHandler.handler Fixture.unmarshalMounts map_to_list)))
       (Some (HostPortHandler.handler map_to_list Fixture.unmarshalPorts
                map_to_list)))
    Fixture.portPod 2
  = Ret (Corev1.Pod.with_Spec Fixture.portPod Fixture.portSpecMutated, None).
Proof.
  refine (eq_trans
            (proj1 (Register_runs_last
                      (Webhook.Register
                         (Webhook.NewPodArgumentor
                            Identifier.LabelSSPodIdentifier
                            Annotation.Collector)
                         (Some (MountHandler.handler Fixture.unmarshalMounts
                                  map_to_list)))
                      (HostPortHandler.handler map_to_list
                         Fixture.unmarshalPorts map_to_list)
                      Fixture.portPod 2
                      {[ Fixture.hostPortName := Fixture.hostPortJSON ]} _))
            _).
  - by apply (defaultCollector_single _ "spoditor.io/host-port"),
      KeyOf_host_port.
  - by vm_compute.
Defined.

(** ** The host-port handler: what [Mutate] keeps *)

Lemma with_HostPort_HostPort (p : Corev1.ContainerPort.t) :
  Corev1.ContainerPort.with_HostPort p (Corev1.ContainerPort.HostPort p) = p.
Proof. by destruct p. Qed.

Lemma with_HostPort_with_HostPort (p : Corev1.ContainerPort.t) (v w : Z) :
  Corev1.ContainerPort.with_HostPort
    (Corev1.ContainerPort.with_HostPort p v) w
  = Corev1.ContainerPort.with_HostPort p w.
Proof. done. Qed.

Lemma container_kept_refl (c : Corev1.Container.t) : Spec.container_kept c c.
Proof.
  split; [done|]. split; [done|]. split; [done|]. split.
  - intros j p Hp. exists (Corev1.ContainerPort.HostPort p).
    by rewrite with_HostPort_HostPort.
  - intros j e He. eauto.
Qed.

Lemma container_kept_trans (c1 c2 c3 : Corev1.Container.t) :
  Spec.container_kept c1 c2 → Spec.container_kept c2 c3 → Spec.container_kept c1 c3.
Proof.
  intros (Hn12 & Hi12 & Hm12 & Hp12 & He12) (Hn23 & Hi23 & Hm23 & Hp23 & He23).
  split; [congruence|]. split; [congruence|]. split; [congruence|]. split.
  - intros j p Hp. destruct (Hp12 j p Hp) as [v Hv].
    destruct (Hp23 j _ Hv) as [w Hw]. exists w.
    by rewrite Hw, with_HostPort_with_HostPort.
  - intros j e He. destruct (He12 j e He) as (e' & He' & Hn').
    destruct (He23 j e' He') as (e'' & He'' & Hn'').
    exists e''. split; [done|congruence].
Qed.

Lemma ports_after_lookup (q : Corev1.ContainerPort.t) (v : Z)
  (c : Corev1.Container.t) (j : nat) (p : Corev1.ContainerPort.t) :
  Corev1.Container.Ports c !! j = Some p →
  ∃ hostPort,
    Spec.ports_after q v c !! j
    = Some (Corev1.ContainerPort.with_HostPort p hostPort).
Proof.
  intros Hp. unfold Spec.ports_after.
  destruct (Spec.port_index _ _) as [k|].
  - destruct (decide (k = j)) as [->|Hne].
    + exists v. by rewrite list_lookup_alter_eq, Hp.
    + exists (Corev1.ContainerPort.HostPort p).
      by rewrite list_lookup_alter_ne, Hp, with_HostPort_HostPort.
  - exists (Corev1.ContainerPort.HostPort p).
    rewrite with_HostPort_HostPort. by apply lookup_app_l_Some.
Qed.

Lemma appendEnvVarIfNotExists_lookup (envVars : list Corev1.EnvVar.t)
  (envVar : Corev1.EnvVar.t) (j : nat) (e : Corev1.EnvVar.t) :
  envVars !! j = Some e →
  ∃ e', HostPortHandler.appendEnvVarIfNotExists envVars envVar !! j = Some e'
        ∧ Corev1.EnvVar.Name e' = Corev1.EnvVar.Name e.
Proof.
  revert j. induction envVars as [|x rest IH]; intros j He; [done|].
  simpl. destruct (decide (Corev1.EnvVar.Name x = Corev1.EnvVar.Name envVar))
    as [Heq|Hne].
  - destruct j as [|j]; simpl in *; [|eauto].
    injection He as <-. eauto.
  - destruct j as [|j]; simpl in *; [eauto|]. by apply IH.
Qed.

Lemma add_port_vars_lookup (vars : list (string * string))
  (envVars : list Corev1.EnvVar.t) (j : nat) (e : Corev1.EnvVar.t) :
  envVars !! j = Some e →
  ∃ e', HostPortHandler.add_port_vars envVars vars !! j = Some e'
        ∧ Corev1.EnvVar.Name e' = Corev1.EnvVar.Name e.
Proof.
  revert envVars e. induction vars as [|kv vars IH]; intros envVars e He;
    [eauto|].
  unfold HostPortHandler.add_port_vars in *. cbn [foldl].
  destruct (appendEnvVarIfNotExists_lookup envVars
              (Corev1.EnvVar.mk kv.1 kv.2 None) j e He) as (e1 & He1 & Hn1).
  destruct (IH _ _ He1) as (e2 & He2 & Hn2).
  exists e2. split; [done|congruence].
Qed.

Lemma process_port_container_kept (ordinal : Z) (c : Corev1.Container.t)
  (vars : gmap string string) (q : Corev1.ContainerPort.t) :
  Spec.container_kept c (HostPortHandler.process_port ordinal (c, vars) q).1.
Proof.
  rewrite process_port_cases.
  destruct (Corev1.ContainerPort.HostPort q <=? 0);
    [apply container_kept_refl|].
  split; [done|]. split; [done|]. split; [done|]. split.
  - intros j p Hp. by apply ports_after_lookup.
  - intros j e He. eauto.
Qed.

Lemma foldl_process_port_container_kept (ordinal : Z)
  (ports : list Corev1.ContainerPort.t) (c : Corev1.Container.t)
  (vars : gmap string string) :
  Spec.container_kept c
    (foldl (HostPortHandler.process_port ordinal) (c, vars) ports).1.
Proof.
  revert c vars. induction ports as [|q ports IH]; intros c vars.
  - apply container_kept_refl.
  - cbn [foldl].
    pose proof (process_port_container_kept ordinal c vars q) as H1.
    destruct (HostPortHandler.process_port ordinal (c, vars) q) as [c1 vars1].
    eapply container_kept_trans; [exact H1|apply IH].
Qed.

Section Keeps.

Variable range : gmap string string → list (string * string).
Variable ordinal : Z.

Lemma process_container_kept (cc : Ports.containerPortsConfig)
  (vars : gmap string string) (c : Corev1.Container.t) :
  Spec.container_kept c
    (HostPortHandler.process_container range ordinal cc vars c).1.
Proof.
  unfold HostPortHandler.process_container.
  case_decide; [apply container_kept_refl|].
  pose proof (foldl_process_port_container_kept ordinal (Ports.Ports cc) c
                vars) as (Hn & Hi & Hm & Hp & He).
  destruct (foldl _ _ _) as [c1 vars1]. cbn [fst] in *.
  split; [done|]. split; [done|]. split; [done|]. split; [done|].
  intros j e Hj. destruct (He j e Hj) as (e1 & He1 & Hn1).
  cbn [Corev1.Container.Env Corev1.Container.with_Env].
  destruct (appendEnvVarIfNotExists_lookup (Corev1.Container.Env c1)
              (Corev1.EnvVar.mk Ports.PodOrdinal (Strconv.Itoa ordinal) None)
              j e1 He1) as (e2 & He2 & Hn2).
  destruct (add_port_vars_lookup (range vars1) _ j e2 He2)
    as (e3 & He3 & Hn3).
  exists e3. split; [done|congruence].
Qed.

Lemma process_config_kept (containers : list Corev1.Container.t)
  (cc : Ports.containerPortsConfig) :
  Forall2 Spec.container_kept containers
    (HostPortHandler.process_config range ordinal containers cc).
Proof.
  unfold HostPortHandler.process_config.
  eapply Forall2_impl.
  - by apply (process_containers_Forall2 range ordinal cc (λ _, True)).
  - intros c c' (vars & _ & ->). apply process_container_kept.
Qed.

Lemma Forall2_container_kept_refl (containers : list Corev1.Container.t) :
  Forall2 Spec.container_kept containers containers.
Proof.
  apply Forall2_same_length_lookup. split; [done|].
  intros i c c' Hc Hc'. rewrite Hc in Hc'. injection Hc' as ->.
  apply container_kept_refl.
Qed.

Lemma foldl_process_config_kept (configs : list Ports.containerPortsConfig)
  (containers : list Corev1.Container.t) :
  Forall2 Spec.container_kept containers
    (foldl (HostPortHandler.process_config range ordinal) containers configs).
Proof.
  revert containers. induction configs as [|cc configs IH]; intros containers.
  - apply Forall2_container_kept_refl.
  - cbn [foldl]. eapply Forall2_trans; [|apply process_config_kept|apply IH].
    intros c1 c2 c3. apply container_kept_trans.
Qed.

(** A container no configuration names comes out as it went in. *)
Lemma process_config_undeclared (containers : list Corev1.Container.t)
  (cc : Ports.containerPortsConfig) (i : nat) (c : Corev1.Container.t) :
  containers !! i = Some c →
  Ports.Name cc ≠ Corev1.Container.Name c →
  HostPortHandler.process_config range ordinal containers cc !! i = Some c.
Proof.
  intros Hi Hname. unfold HostPortHandler.process_config.
  pose proof (process_containers_Forall2 range ordinal cc (λ _, True) ∅
                containers I (λ _ _ _, I)) as Hall.
  destruct (Forall2_lookup_l _ _ _ i c Hall Hi) as (c' & Hi' & vars & _ & ->).
  rewrite Hi'. unfold HostPortHandler.process_container.
  by rewrite decide_True by congruence.
Qed.

Lemma foldl_process_config_undeclared
  (configs : list Ports.containerPortsConfig)
  (containers : list Corev1.Container.t) (i : nat) (c : Corev1.Container.t) :
  containers !! i = Some c →
  (∀ cc, cc ∈ configs → Ports.Name cc ≠ Corev1.Container.Name c) →
  foldl (HostPortHandler.process_config range ordinal) containers configs
    !! i = Some c.
Proof.
  revert containers. induction configs as [|cc configs IH];
    intros containers Hi Hnames; [done|].
  cbn [foldl]. apply IH.
  - apply process_config_undeclared; [done|].
    apply Hnames, elem_of_cons. by left.
  - intros cc' Hcc'. apply Hnames, elem_of_cons. by right.
Qed.

End Keeps.

(** X16.  Whatever the configuration, the ordinal and the order in which the
    port variables are visited, [Mutate] leaves the volumes of the pod
    and the number of its containers as they are, and of each container
    its name, its image and its mounts; no port and no variable is
    removed or moved: every port is still at its index, with another host
    port at most, and every variable is still at its index, under its
    name. *)
Theorem HostPort_Mutate_keeps
  (range : gmap string string → list (string * string))
  (spec : Corev1.PodSpec.t) (ordinal : Z) (cfg : option any)
  (spec' : Corev1.PodSpec.t) (err : option error) :
  HostPortHandler.Mutate range spec ordinal cfg = Ret (spec', err) →
  Corev1.PodSpec.Volumes spec' = Corev1.PodSpec.Volumes spec
  ∧ Forall2 Spec.container_kept
      (Corev1.PodSpec.Containers spec) (Corev1.PodSpec.Containers spec').
Proof.
  unfold HostPortHandler.Mutate. intros Hmutate.
  assert (Corev1.PodSpec.Volumes spec = Corev1.PodSpec.Volumes spec
          ∧ Forall2 Spec.container_kept (Corev1.PodSpec.Containers spec)
              (Corev1.PodSpec.Containers spec)) as Hrefl.
  { split; [done|apply Forall2_container_kept_refl]. }
  destruct cfg as [[m| |]|]; try (injection Hmutate as <- _; exact Hrefl).
  destruct (Annotation.CommonPodQualifier ordinal (Ports.qualifier m))
    as [[|]|msg]; simpl in Hmutate; [| |done].
  - destruct (Ports.cfg m) as [v|]; [|done].
    injection Hmutate as <- _. split; [done|].
    apply foldl_process_config_kept.
  - injection Hmutate as <- _. exact Hrefl.
Qed.

Lemma HostPort_Mutate_keeps_witness :
  Corev1.PodSpec.Volumes Fixture.portSpecMutated
  = Corev1.PodSpec.Volumes Fixture.testSpec
  ∧ Forall2 Spec.container_kept
      (Corev1.PodSpec.Containers Fixture.testSpec)
      (Corev1.PodSpec.Containers Fixture.portSpecMutated).
Proof.
  refine (HostPort_Mutate_keeps map_to_list Fixture.testSpec 2
            (Some (portConfigPtr
                     {| Ports.qualifier := EmptyString;
                        Ports.cfg := Some Fixture.hostPortValue |}))
            Fixture.portSpecMutated None _).
  by vm_compute.
Defined.

(** X17.  A container whose name no entry of the configuration bears comes out
    of [Mutate] as it went in. *)
Theorem HostPort_Mutate_undeclared
  (range : gmap string string → list (string * string))
  (spec : Corev1.PodSpec.t) (ordinal : Z) (m : Ports.portConfig)
  (v : Ports.portConfigValue)
  (spec' : Corev1.PodSpec.t) (err : option error)
  (i : nat) (c : Corev1.Container.t) :
  HostPortHandler.Mutate range spec ordinal (Some (portConfigPtr m))
  = Ret (spec', err) →
  Ports.cfg m = Some v →
  Corev1.PodSpec.Containers spec !! i = Some c →
  (∀ cc, cc ∈ Ports.Containers v →
         Ports.Name cc ≠ Corev1.Container.Name c) →
  Corev1.PodSpec.Containers spec' !! i = Some c.
Proof.
  unfold HostPortHandler.Mutate. intros Hmutate Hv Hi Hnames.
  destruct (Annotation.CommonPodQualifier ordinal (Ports.qualifier m))
    as [[|]|msg]; simpl in Hmutate; [| |done].
  - rewrite Hv in Hmutate. injection Hmutate as <- _.
    by apply foldl_process_config_undeclared.
  - by injection Hmutate as <- _.
Qed.

Lemma HostPort_Mutate_undeclared_witness :
  Corev1.PodSpec.Containers Fixture.webSpec !! O
  = Some (Corev1.Container.mk "web" EmptyString [Fixture.httpPort] [] []).
Proof.
  refine (HostPort_Mutate_undeclared map_to_list Fixture.webSpec 2
            {| Ports.qualifier := EmptyString;
               Ports.cfg := Some Fixture.hostPortValue |}
            Fixture.hostPortValue Fixture.webSpec None O _ _ eq_refl eq_refl
            _).
  - by vm_compute.
  - intros cc Hcc. apply list_elem_of_singleton in Hcc as ->. discriminate.
Defined.

(** ** The host-port handler: the variable [POD_ORDINAL] *)

Section PodOrdinal.

Variable range : gmap string string → list (string * string).
Hypothesis range_permutation : ∀ m, range m ≡ₚ map_to_list m.
Variable ordinal : Z.

Implicit Types (cc : Ports.containerPortsConfig)
  (c : Corev1.Container.t) (vars : gmap string string).

Lemma process_container_PodOrdinal_set cc vars c :
  Spec.vars_settled ordinal cc vars →
  Corev1.Container.Name c = Ports.Name cc →
  Spec.env_lookup Ports.PodOrdinal
    (Corev1.Container.Env
       (HostPortHandler.process_container range ordinal cc vars c).1)
  = Some (Strconv.Itoa ordinal).
Proof.
  intros Hsettled Hname. unfold HostPortHandler.process_container.
  rewrite decide_False by (by intros ?).
  pose proof (foldl_process_port_vars ordinal (Ports.Ports cc) c vars)
    as Hvars.
  destruct (foldl _ _ _) as [c1 vars1]. cbn [fst snd] in *. subst vars1.
  cbn [Corev1.Container.Env Corev1.Container.with_Env].
  rewrite (env_lookup_range range range_permutation), Hsettled.
  rewrite port_vars_lookup_other, lookup_empty.
  - apply (env_lookup_append_eq _
             (Corev1.EnvVar.mk Ports.PodOrdinal _ None)).
  - intros q _ Heq. by apply (port_var_name_not_PodOrdinal q).
Qed.

Lemma process_container_PodOrdinal_kept cc vars c :
  Spec.vars_settled ordinal cc vars →
  Spec.env_lookup Ports.PodOrdinal (Corev1.Container.Env c)
  = Some (Strconv.Itoa ordinal) →
  Spec.env_lookup Ports.PodOrdinal
    (Corev1.Container.Env
       (HostPortHandler.process_container range ordinal cc vars c).1)
  = Some (Strconv.Itoa ordinal).
Proof.
  intros Hsettled Hc.
  destruct (decide (Corev1.Container.Name c = Ports.Name cc)) as [Hname|Hname].
  - by apply process_container_PodOrdinal_set.
  - unfold HostPortHandler.process_container. by rewrite decide_True.
Qed.

Lemma foldl_process_config_PodOrdinal_kept
  (configs : list Ports.containerPortsConfig)
  (containers : list Corev1.Container.t) (i : nat) c :
  containers !! i = Some c →
  Spec.env_lookup Ports.PodOrdinal (Corev1.Container.Env c)
  = Some (Strconv.Itoa ordinal) →
  ∃ c', foldl (HostPortHandler.process_config range ordinal) containers
          configs !! i = Some c'
        ∧ Spec.env_lookup Ports.PodOrdinal (Corev1.Container.Env c')
          = Some (Strconv.Itoa ordinal).
Proof.
  revert containers c.
  induction configs as [|cc configs IH]; intros containers c Hi Hc; [eauto|].
  cbn [foldl].
  destruct (process_config_lookup range ordinal cc containers i c Hi)
    as (vars & Hvars & Hi1).
  apply (IH _ _ Hi1). by apply process_container_PodOrdinal_kept.
Qed.

End PodOrdinal.

(** X18.  When the qualifier matches, every container of the pod whose name an
    entry of the configuration bears has the variable [POD_ORDINAL] after
    [Mutate], with the decimal notation of the ordinal as its value:
    whether or not the entry declares ports, and whatever variable of
    that name the container had. *)
Theorem HostPort_Mutate_POD_ORDINAL
  (range : gmap string string → list (string * string))
  (spec : Corev1.PodSpec.t) (ordinal : Z) (qualifier : string)
  (v : Ports.portConfigValue) (cc : Ports.containerPortsConfig)
  (i : nat) (c : Corev1.Container.t) :
  (∀ m, range m ≡ₚ map_to_list m) →
  Annotation.CommonPodQualifier ordinal qualifier = Ret true →
  cc ∈ Ports.Containers v →
  Corev1.PodSpec.Containers spec !! i = Some c →
  Corev1.Container.Name c = Ports.Name cc →
  ∃ spec' c',
    HostPortHandler.Mutate range spec ordinal
      (Some (portConfigPtr
               {| Ports.qualifier := qualifier; Ports.cfg := Some v |}))
    = Ret (spec', None)
    ∧ Corev1.PodSpec.Containers spec' !! i = Some c'
    ∧ Spec.env_lookup "POD_ORDINAL" (Corev1.Container.Env c')
      = Some (Strconv.Itoa ordinal).
Proof.
  intros Hrange Hq Hcc Hi Hname.
  unfold HostPortHandler.Mutate. cbn [Ports.qualifier Ports.cfg].
  rewrite Hq.
  cbn [mbind outcome_bind negb Corev1.PodSpec.with_Containers
         Corev1.PodSpec.Containers].
  apply list_elem_of_split in Hcc as (pre & post & ->).
  rewrite foldl_app. cbn [foldl].
  pose proof (foldl_process_config_kept range ordinal pre
                (Corev1.PodSpec.Containers spec)) as Hkept.
  destruct (Forall2_lookup_l _ _ _ i c Hkept Hi) as (c1 & Hi1 & Hn1 & _).
  destruct (process_config_lookup range ordinal cc _ i c1 Hi1)
    as (vars & Hvars & Hi2).
  destruct (foldl_process_config_PodOrdinal_kept range Hrange ordinal post
              _ i _ Hi2) as (c' & Hi' & Hc').
  { apply process_container_PodOrdinal_set; [done|done|congruence]. }
  eexists _, c'. split; [done|]. split; [exact Hi'|exact Hc'].
Qed.

Lemma HostPort_Mutate_POD_ORDINAL_witness :
  ∃ spec' c',
    HostPortHandler.Mutate map_to_list Fixture.webSpec 2
      (Some Fixture.webConfig)
    = Ret (spec', None)
    ∧ Corev1.PodSpec.Containers spec' !! O = Some c'
    ∧ Spec.env_lookup "POD_ORDINAL" (Corev1.Container.Env c') = Some "2".
Proof.
  refine (HostPort_Mutate_POD_ORDINAL map_to_list Fixture.webSpec 2
            EmptyString Fixture.webValue Fixture.webPorts O _
            (λ m, reflexivity (map_to_list m)) eq_refl _ eq_refl eq_refl).
  apply list_elem_of_singleton. reflexivity.
Defined.

(** ** The host-port handler: the host port at an ordinal *)

Lemma int32_small (z : Z) : - 2 ^ 31 ≤ z < 2 ^ 31 → GoInt.int32 z = z.
Proof.
  intros Hz. unfold GoInt.int32, GoInt.wrap.
  change (32 - 1) with 31. rewrite Z.mod_small; lia.
Qed.

Lemma int_small (z : Z) : - 2 ^ 63 ≤ z < 2 ^ 63 → GoInt.int z = z.
Proof.
  intros Hz. unfold GoInt.int, GoInt.wrap, GoInt.intSize.
  change (64 - 1) with 63. rewrite Z.mod_small; lia.
Qed.

Lemma int32_wraps (z : Z) :
  2 ^ 31 ≤ z < 2 ^ 32 → GoInt.int32 z = z - 2 ^ 32.
Proof.
  intros Hz. unfold GoInt.int32, GoInt.wrap. change (32 - 1) with 31.
  replace (z + 2 ^ 31) with ((z - 2 ^ 31) + 1 * 2 ^ 32) by lia.
  rewrite Z.mod_add by lia. rewrite Z.mod_small; lia.
Qed.

(** X19.  The configuration declares the port once, with a positive host port
    [base], for the containers of a name; the qualifier matches the
    ordinal [k], and [base + k] fits an [int32].  [Mutate] then gives
    the first port of that name the host port [base + k], in place when
    the container had such a port and by a copy of the declared port
    behind its ports otherwise, and sets the variable [PORT_<name>] to
    the decimal notation of [base + k]. *)
Theorem HostPort_Mutate_base_plus_ordinal
  (range : gmap string string → list (string * string))
  (spec : Corev1.PodSpec.t) (k : Z) (qualifier : string)
  (v : Ports.portConfigValue) (a b : nat) (cc : Ports.containerPortsConfig)
  (port : Corev1.ContainerPort.t) (i : nat) (c : Corev1.Container.t) :
  (∀ m, range m ≡ₚ map_to_list m) →
  Spec.declared_once v a b cc port →
  0 < Corev1.ContainerPort.HostPort port → 0 ≤ k →
  Corev1.ContainerPort.HostPort port + k < 2 ^ 31 →
  Annotation.CommonPodQualifier k qualifier = Ret true →
  Corev1.PodSpec.Containers spec !! i = Some c →
  Corev1.Container.Name c = Ports.Name cc →
  ∃ spec' c',
    HostPortHandler.Mutate range spec k
      (Some (portConfigPtr
               {| Ports.qualifier := qualifier; Ports.cfg := Some v |}))
    = Ret (spec', None)
    ∧ Corev1.PodSpec.Containers spec' !! i = Some c'
    ∧ Spec.port_set port (Corev1.ContainerPort.HostPort port + k)
        (Corev1.Container.Ports c) (Corev1.Container.Ports c')
    ∧ Spec.env_lookup ("PORT_" +:+ Corev1.ContainerPort.Name port)
        (Corev1.Container.Env c')
      = Some (Strconv.Itoa (Corev1.ContainerPort.HostPort port + k)).
Proof.
  intros Hrange Honce Hbase Hk Hfit Hq Hi Hname.
  destruct (Mutate_declared_port range k port spec qualifier v a b cc i c
              Hrange Hbase Honce Hq Hi Hname)
    as (spec' & c' & Hmutate & Hi' & _ & Hset & Hvar).
  exists spec', c'. split; [done|]. split; [done|].
  unfold Spec.port_var_value, Spec.port_var_name in Hvar.
  assert (Spec.effective_hostPort port k
          = Corev1.ContainerPort.HostPort port + k) as Heff.
  { unfold Spec.effective_hostPort.
    rewrite (int32_small (Corev1.ContainerPort.HostPort port)) by lia.
    rewrite (int32_small k) by lia. apply int32_small. lia. }
  rewrite Heff in *. rewrite int_small in Hvar by lia. done.
Qed.

Lemma HostPort_Mutate_base_plus_ordinal_witness :
  ∃ spec' c',
    HostPortHandler.Mutate map_to_list Fixture.webSpec 7
      (Some Fixture.webConfig)
    = Ret (spec', None)
    ∧ Corev1.PodSpec.Containers spec' !! O = Some c'
    ∧ Spec.port_set Fixture.httpPort (30000 + 7) [Fixture.httpPort]
        (Corev1.Container.Ports c')
    ∧ Spec.env_lookup "PORT_http" (Corev1.Container.Env c')
      = Some (Strconv.Itoa (30000 + 7)).
Proof.
  refine (HostPort_Mutate_base_plus_ordinal map_to_list Fixture.webSpec 7
            EmptyString Fixture.webValue 0 0 Fixture.webPorts
            Fixture.httpPort O _
            (λ m, reflexivity (map_to_list m)) webValue_declared_once
            _ _ _ eq_refl eq_refl eq_refl).
  - reflexivity.
  - discriminate.
  - reflexivity.
Defined.

(** X20.  Nothing checks that [base + k] is a port number: when the sum is
    beyond the range of [int32] it wraps around, and the port gets the
    negative host port [base + k - 2^32], which is also what the variable
    shows. *)
Theorem HostPort_Mutate_wraps_around
  (range : gmap string string → list (string * string))
  (spec : Corev1.PodSpec.t) (k : Z) (qualifier : string)
  (v : Ports.portConfigValue) (a b : nat) (cc : Ports.containerPortsConfig)
  (port : Corev1.ContainerPort.t) (i : nat) (c : Corev1.Container.t) :
  (∀ m, range m ≡ₚ map_to_list m) →
  Spec.declared_once v a b cc port →
  0 < Corev1.ContainerPort.HostPort port < 2 ^ 31 → 0 ≤ k < 2 ^ 31 →
  2 ^ 31 ≤ Corev1.ContainerPort.HostPort port + k →
  Annotation.CommonPodQualifier k qualifier = Ret true →
  Corev1.PodSpec.Containers spec !! i = Some c →
  Corev1.Container.Name c = Ports.Name cc →
  ∃ spec' c',
    HostPortHandler.Mutate range spec k
      (Some (portConfigPtr
               {| Ports.qualifier := qualifier; Ports.cfg := Some v |}))
    = Ret (spec', None)
    ∧ Corev1.PodSpec.Containers spec' !! i = Some c'
    ∧ Spec.port_set port (Corev1.ContainerPort.HostPort port + k - 2 ^ 32)
        (Corev1.Container.Ports c) (Corev1.Container.Ports c')
    ∧ Spec.env_lookup ("PORT_" +:+ Corev1.ContainerPort.Name port)
        (Corev1.Container.Env c')
      = Some (Strconv.Itoa
                (Corev1.ContainerPort.HostPort port + k - 2 ^ 32)).
Proof.
  intros Hrange Honce Hbase Hk Hbig Hq Hi Hname.
  destruct (Mutate_declared_port range k port spec qualifier v a b cc i c
              Hrange (proj1 Hbase) Honce Hq Hi Hname)
    as (spec' & c' & Hmutate & Hi' & _ & Hset & Hvar).
  exists spec', c'. split; [done|]. split; [done|].
  unfold Spec.port_var_value, Spec.port_var_name in Hvar.
  assert (Spec.effective_hostPort port k
          = Corev1.ContainerPort.HostPort port + k - 2 ^ 32) as Heff.
  { unfold Spec.effective_hostPort.
    rewrite (int32_small (Corev1.ContainerPort.HostPort port)) by lia.
    rewrite (int32_small k) by lia. apply int32_wraps. lia. }
  rewrite Heff in *. rewrite int_small in Hvar by lia. done.
Qed.

Lemma lastValue_declared_once :
  Spec.declared_once Fixture.lastValue 0 0 Fixture.lastPorts Fixture.lastPort.
Proof.
  split; [done|]. split; [done|].
  intros [|a'] cc' [|b'] port' Hcc' _ Hport' _; try done.
  by injection Hcc' as <-.
Qed.

Lemma HostPort_Mutate_wraps_around_witness :
  ∃ spec' c',
    HostPortHandler.Mutate map_to_list Fixture.webSpec 1
      (Some (portConfigPtr
               {| Ports.qualifier := EmptyString;
                  Ports.cfg := Some Fixture.lastValue |}))
    = Ret (spec', None)
    ∧ Corev1.PodSpec.Containers spec' !! O = Some c'
    ∧ Spec.port_set Fixture.lastPort (2147483647 + 1 - 2 ^ 32) [Fixture.httpPort]
        (Corev1.Container.Ports c')
    ∧ Spec.env_lookup "PORT_http" (Corev1.Container.Env c')
      = Some (Strconv.Itoa (2147483647 + 1 - 2 ^ 32)).
Proof.
  refine (HostPort_Mutate_wraps_around map_to_list Fixture.webSpec 1
            EmptyString Fixture.lastValue 0 0 Fixture.lastPorts Fixture.lastPort O _
            (λ m, reflexivity (map_to_list m)) lastValue_declared_once
            _ _ _ eq_refl eq_refl eq_refl).
  - split; reflexivity.
  - split; [discriminate|reflexivity].
  - discriminate.
Defined.

(** ** The host-port handler: the two texts of [Mutate] *)

Lemma with_Ports_Ports (c : Corev1.Container.t) :
  Corev1.Container.with_Ports c (Corev1.Container.Ports c) = c.
Proof. by destruct c. Qed.

(** The search of the earlier text, by the search of the later one. *)
Lemma search_port_spec (ordinal : Z) (q : Corev1.ContainerPort.t)
  (ports : list Corev1.ContainerPort.t) (vars : gmap string string) :
  PortModifierHandler.search_port ordinal q ports vars
  = match Spec.port_index (Corev1.ContainerPort.Name q) ports with
    | Some j =>
        if 0 <? Corev1.ContainerPort.HostPort q then
          (alter (λ p, Corev1.ContainerPort.with_HostPort p
                         (Spec.effective_hostPort q ordinal)) j ports,
           <[ Spec.port_var_name q := Spec.port_var_value q ordinal ]> vars,
           true)
        else (ports, vars, true)
    | None => (ports, vars, false)
    end.
Proof.
  induction ports as [|p rest IH]; [done|]. simpl.
  destruct (decide (Corev1.ContainerPort.Name p
                    = Corev1.ContainerPort.Name q)); [done|].
  rewrite IH. destruct (Spec.port_index _ rest) as [j|]; [|done].
  simpl. by destruct (0 <? Corev1.ContainerPort.HostPort q).
Qed.

Lemma process_port_versions (ordinal : Z)
  (st : Corev1.Container.t * gmap string string)
  (q : Corev1.ContainerPort.t) :
  PortModifierHandler.process_port ordinal st q
  = HostPortHandler.process_port ordinal st q.
Proof.
  destruct st as [c vars]. rewrite process_port_cases.
  unfold PortModifierHandler.process_port. rewrite search_port_spec.
  unfold Spec.ports_after.
  destruct (Z.ltb_spec 0 (Corev1.ContainerPort.HostPort q)) as [Hpos|Hneg].
  - rewrite (proj2 (Z.leb_gt _ _)) by done.
    by destruct (Spec.port_index _ _).
  - rewrite (proj2 (Z.leb_le _ _)) by done.
    destruct (Spec.port_index _ _); simpl; by rewrite with_Ports_Ports.
Qed.

Lemma foldl_process_port_versions (ordinal : Z)
  (ports : list Corev1.ContainerPort.t)
  (st : Corev1.Container.t * gmap string string) :
  foldl (PortModifierHandler.process_port ordinal) st ports
  = foldl (HostPortHandler.process_port ordinal) st ports.
Proof.
  revert st. induction ports as [|q ports IH]; intros st; [done|].
  cbn [foldl]. by rewrite process_port_versions, IH.
Qed.

Section Versions.

Variable range : gmap string string → list (string * string).
Variable ordinal : Z.

Lemma process_container_versions (cc : Ports.containerPortsConfig)
  (vars : gmap string string) (c : Corev1.Container.t) :
  PortModifierHandler.process_container range ordinal cc vars c
  = HostPortHandler.process_container range ordinal cc vars c.
Proof.
  unfold PortModifierHandler.process_container,
    HostPortHandler.process_container.
  rewrite foldl_process_port_versions.
  destruct (decide (Corev1.Container.Name c = Ports.Name cc)) as [Heq|Hne].
  - by rewrite decide_False by (by intros ?).
  - by rewrite decide_True.
Qed.

Lemma process_containers_versions (cc : Ports.containerPortsConfig)
  (vars : gmap string string) (containers : list Corev1.Container.t) :
  PortModifierHandler.process_containers range ordinal cc vars containers
  = HostPortHandler.process_containers range ordinal cc vars containers.
Proof.
  revert vars. induction containers as [|c cs IH]; intros vars; [done|].
  simpl. rewrite process_container_versions.
  destruct (HostPortHandler.process_container _ _ _ vars c) as [c' vars'].
  by rewrite IH.
Qed.

Lemma foldl_process_config_versions
  (configs : list Ports.containerPortsConfig)
  (containers : list Corev1.Container.t) :
  foldl (PortModifierHandler.process_config range ordinal) containers configs
  = foldl (HostPortHandler.process_config range ordinal) containers configs.
Proof.
  revert containers. induction configs as [|cc configs IH]; intros containers;
    [done|].
  cbn [foldl]. rewrite <-IH. f_equal.
  unfold PortModifierHandler.process_config, HostPortHandler.process_config.
  by rewrite process_containers_versions.
Qed.

End Versions.

(** X21.  The [Mutate] that tests the host port of a declared port inside the
    search and the [Mutate] that skips the ports without host port at the
    head of the loop do the same to every pod specification, at every
    ordinal, under every configuration and every order of the visit of
    the port variables.  On a value that is no host-port configuration
    both leave the specification as it is and return an error. *)
Theorem Mutate_versions_agree
  (range : gmap string string → list (string * string))
  (spec : Corev1.PodSpec.t) (ordinal : Z) (cfg : option any) :
  match cfg with
  | Some (portConfigPtr _) =>
      PortModifierHandler.Mutate range spec ordinal cfg
      = HostPortHandler.Mutate range spec ordinal cfg
  | _ =>
      ∃ e1 e2,
        PortModifierHandler.Mutate range spec ordinal cfg
        = Ret (spec, Some e1)
        ∧ HostPortHandler.Mutate range spec ordinal cfg
          = Ret (spec, Some e2)
  end.
Proof.
  destruct cfg as [[m| |]|]; try (by eexists _, _).
  unfold PortModifierHandler.Mutate, HostPortHandler.Mutate.
  destruct (Annotation.CommonPodQualifier ordinal (Ports.qualifier m))
    as [[|]|msg]; simpl; try done.
  destruct (Ports.cfg m) as [v|]; [|done].
  by rewrite foldl_process_config_versions.
Qed.

(** ** The parsers *)

Section Parsers.

Variable unmarshalPorts : string → Ports.portConfigValue + error.
Variable unmarshalMounts : string → Volumes.mountConfigValue + error.

Lemma HostPortHandler_parse_loop_first
  (pre rest : list (Annotation.QualifiedName * string))
  (qn : Annotation.QualifiedName) (v : string) :
  (∀ k v', (k, v') ∈ pre → Annotation.Name k ≠ Ports.HostPort) →
  Annotation.Name qn = Ports.HostPort →
  HostPortHandler.parse_loop unmarshalPorts (pre ++ (qn, v) :: rest)
  = Spec.port_entry unmarshalPorts qn v.
Proof.
  intros Hpre Hqn. induction pre as [|[k v'] pre IH].
  - unfold Spec.port_entry. simpl. rewrite decide_False by (by intros ?).
    by destruct (unmarshalPorts v).
  - simpl. rewrite decide_True by (apply (Hpre k v'), elem_of_cons; by left).
    apply IH. intros k' v'' Hin. apply (Hpre k' v''), elem_of_cons. by right.
Qed.

Lemma MountHandler_parse_loop_first
  (pre rest : list (Annotation.QualifiedName * string))
  (qn : Annotation.QualifiedName) (v : string) :
  (∀ k v', (k, v') ∈ pre → Annotation.Name k ≠ Volumes.MountVolume) →
  Annotation.Name qn = Volumes.MountVolume →
  MountHandler.parse_loop unmarshalMounts (pre ++ (qn, v) :: rest)
  = Spec.mount_entry unmarshalMounts qn v.
Proof.
  intros Hpre Hqn. induction pre as [|[k v'] pre IH].
  - unfold Spec.mount_entry. simpl. rewrite decide_False by (by intros ?).
    destruct (unmarshalMounts v) as [config|err]; [|done].
    by destruct (Volumes.Volumes config).
  - simpl. rewrite decide_True by (apply (Hpre k v'), elem_of_cons; by left).
    apply IH. intros k' v'' Hin. apply (Hpre k' v''), elem_of_cons. by right.
Qed.

(** The entries in front of an entry of a map that is the only one of
    its feature are entries of other features. *)
Lemma only_entry_split (feature : string)
  (annotations : gmap Annotation.QualifiedName string)
  (l : list (Annotation.QualifiedName * string))
  (qn : Annotation.QualifiedName) (v : string) :
  l ≡ₚ map_to_list annotations →
  annotations !! qn = Some v →
  (∀ qn', is_Some (annotations !! qn') →
          Annotation.Name qn' = feature → qn' = qn) →
  ∃ pre rest,
    l = pre ++ (qn, v) :: rest
    ∧ ∀ k v', (k, v') ∈ pre → Annotation.Name k ≠ feature.
Proof.
  intros Hperm Hqn Honly.
  assert ((qn, v) ∈ l) as Hin.
  { rewrite Hperm. by apply elem_of_map_to_list. }
  assert (NoDup l.*1) as Hnodup.
  { rewrite Hperm. apply NoDup_fst_map_to_list. }
  apply list_elem_of_split in Hin as (pre & rest & ->).
  exists pre, rest. split; [done|].
  intros k v' Hin Hname.
  assert (k = qn) as ->.
  { apply Honly; [|done]. exists v'. apply elem_of_map_to_list.
    rewrite <-Hperm. apply elem_of_app. by left. }
  rewrite fmap_app, fmap_cons in Hnodup.
  apply NoDup_app in Hnodup as (_ & Hdisjoint & _).
  apply (Hdisjoint qn).
  - by apply (list_elem_of_fmap_2 fst pre (qn, v')).
  - apply elem_of_cons. by left.
Qed.

End Parsers.

(** X22.  When the collected annotations hold one entry of the feature
    [host-port], the parser returns what that entry gives, in whatever
    order the [range] loop visits the map: the configuration the value
    decodes to, under the qualifier of the entry, or the error of
    [json.Unmarshal], wrapped. *)
Theorem parser_only_entry
  (unmarshalPorts : string → Ports.portConfigValue + error)
  (range_annotations :
     gmap Annotation.QualifiedName string
     → list (Annotation.QualifiedName * string))
  (annotations : gmap Annotation.QualifiedName string)
  (qn : Annotation.QualifiedName) (v : string) :
  (∀ m, range_annotations m ≡ₚ map_to_list m) →
  annotations !! qn = Some v →
  Annotation.Name qn = Ports.HostPort →
  (∀ qn', is_Some (annotations !! qn') →
          Annotation.Name qn' = Ports.HostPort → qn' = qn) →
  HostPortHandler.parser unmarshalPorts range_annotations annotations
  = Spec.port_entry unmarshalPorts qn v.
Proof.
  intros Hrange Hqn Hname Honly. unfold HostPortHandler.parser.
  destruct (only_entry_split Ports.HostPort annotations
              (range_annotations annotations) qn v (Hrange _) Hqn Honly)
    as (pre & rest & -> & Hpre).
  by apply HostPortHandler_parse_loop_first.
Qed.

Lemma parser_only_entry_witness :
  HostPortHandler.parser Fixture.unmarshalPorts map_to_list
    {[ Fixture.hostPortName := Fixture.hostPortJSON ]}
  = Spec.port_entry Fixture.unmarshalPorts Fixture.hostPortName Fixture.hostPortJSON.
Proof.
  refine (parser_only_entry Fixture.unmarshalPorts map_to_list _
            Fixture.hostPortName Fixture.hostPortJSON
            (λ m, reflexivity (map_to_list m)) _ eq_refl _).
  - apply lookup_singleton_eq.
  - intros qn' [v' Hv'] _. by apply lookup_singleton_Some in Hv' as [<- _].
Defined.



(** X24.  The parser of the volume handler, likewise, on the only entry of the
    feature [mount-volume]: a configuration that declares no volume is no
    configuration. *)
Theorem volumeMountParser_only_entry
  (unmarshalMounts : string → Volumes.mountConfigValue + error)
  (range_annotations :
     gmap Annotation.QualifiedName string
     → list (Annotation.QualifiedName * string))
  (annotations : gmap Annotation.QualifiedName string)
  (qn : Annotation.QualifiedName) (v : string) :
  (∀ m, range_annotations m ≡ₚ map_to_list m) →
  annotations !! qn = Some v →
  Annotation.Name qn = Volumes.MountVolume →
  (∀ qn', is_Some (annotations !! qn') →
          Annotation.Name qn' = Volumes.MountVolume → qn' = qn) →
  MountHandler.volumeMountParser unmarshalMounts range_annotations annotations
  = Spec.mount_entry unmarshalMounts qn v.
Proof.
  intros Hrange Hqn Hname Honly. unfold MountHandler.volumeMountParser.
  destruct (only_entry_split Volumes.MountVolume annotations
              (range_annotations annotations) qn v (Hrange _) Hqn Honly)
    as (pre & rest & -> & Hpre).
  by apply MountHandler_parse_loop_first.
Qed.

Lemma volumeMountParser_only_entry_witness :
  MountHandler.volumeMountParser Fixture.unmarshalMounts map_to_list
    {[ Fixture.mountVolumeName := Fixture.mountJSON ]}
  = Spec.mount_entry Fixture.unmarshalMounts Fixture.mountVolumeName Fixture.mountJSON.
Proof.
  refine (volumeMountParser_only_entry Fixture.unmarshalMounts map_to_list _
            Fixture.mountVolumeName Fixture.mountJSON
            (λ m, reflexivity (map_to_list m)) _ eq_refl _).
  - apply lookup_singleton_eq.
  - intros qn' [v' Hv'] _. by apply lookup_singleton_Some in Hv' as [<- _].
Defined.

(** ** The volume handler: a pod that is admitted twice *)

(** X25.  The webhook is called when a pod is created and when it is updated.
    [Mutate] of the volume handler does not look at what the pod holds:
    applied to its own result it appends the declared volumes and the
    declared mounts a second time. *)
Theorem Mount_Mutate_twice (spec : Corev1.PodSpec.t) (ordinal : Z)
  (qualifier : string) (v : Volumes.mountConfigValue) :
  Annotation.CommonPodQualifier ordinal qualifier = Ret true →
  ∃ spec1 spec2,
    MountHandler.Mutate spec ordinal
      (Some (mountConfigPtr
               {| Volumes.qualifier := qualifier; Volumes.cfg := Some v |}))
    = Ret (spec1, None)
    ∧ MountHandler.Mutate spec1 ordinal
        (Some (mountConfigPtr
                 {| Volumes.qualifier := qualifier; Volumes.cfg := Some v |}))
      = Ret (spec2, None)
    ∧ Corev1.PodSpec.Volumes spec2
      = Corev1.PodSpec.Volumes spec
        ++ (MountHandler.process_volume ordinal <$> Volumes.Volumes v)
        ++ (MountHandler.process_volume ordinal <$> Volumes.Volumes v)
    ∧ (∀ i c,
         Corev1.PodSpec.Containers spec !! i = Some c →
         ∃ c2,
           Corev1.PodSpec.Containers spec2 !! i = Some c2
           ∧ Corev1.Container.VolumeMounts c2
             = Corev1.Container.VolumeMounts c
               ++ mjoin (Corev1.Container.VolumeMounts
                           <$> filter (λ s, Corev1.Container.Name s
                                            = Corev1.Container.Name c)
                                 (Volumes.Containers v))
               ++ mjoin (Corev1.Container.VolumeMounts
                           <$> filter (λ s, Corev1.Container.Name s
                                            = Corev1.Container.Name c)
                                 (Volumes.Containers v))).
Proof.
  intros Hq. unfold MountHandler.Mutate.
  cbn [Volumes.qualifier Volumes.cfg]. rewrite Hq.
  cbn [mbind outcome_bind negb].
  eexists _, _. split; [done|]. split; [done|].
  cbn [Corev1.PodSpec.Volumes Corev1.PodSpec.Containers
         Corev1.PodSpec.with_Volumes Corev1.PodSpec.with_Containers].
  split; [by rewrite <-(assoc_L (++))|].
  intros i c Hi.
  pose proof (foldl_add_mounts_lookup (Volumes.Containers v)
                (Corev1.PodSpec.Containers spec) i c Hi) as H1.
  eexists. split; [by apply foldl_add_mounts_lookup|].
  cbn [Corev1.Container.VolumeMounts Corev1.Container.with_VolumeMounts
         Corev1.Container.Name].
  by rewrite <-(assoc_L (++)).
Qed.

Lemma Mount_Mutate_twice_witness :
  ∃ spec1 spec2,
    MountHandler.Mutate Fixture.testSpec 2
      (Some (mountConfigPtr
               {| Volumes.qualifier := EmptyString;
                  Volumes.cfg := Some Fixture.cfgValue |}))
    = Ret (spec1, None)
    ∧ MountHandler.Mutate spec1 2
        (Some (mountConfigPtr
                 {| Volumes.qualifier := EmptyString;
                    Volumes.cfg := Some Fixture.cfgValue |}))
      = Ret (spec2, None)
    ∧ length (Corev1.PodSpec.Volumes spec2) = 2%nat.
Proof.
  destruct (Mount_Mutate_twice Fixture.testSpec 2 EmptyString Fixture.cfgValue
              eq_refl)
    as (spec1 & spec2 & H1 & H2 & Hvolumes & _).
  exists spec1, spec2. split; [exact H1|]. split; [exact H2|].
  rewrite Hvolumes. reflexivity.
Defined.

(** ** Lists updated by key *)

Section KeyedLists.

Context {A K : Type} `{EqDecision K}.
Variable key : A → K.
Variable merge : A → A → A.
Hypothesis merge_key : ∀ x a, key x = key a → key (merge x a) = key x.
Hypothesis merge_absorb : ∀ x a b, merge (merge x a) b = merge x b.
Hypothesis merge_self : ∀ a, merge a a = a.

Implicit Types (l ops : list A) (a x : A) (w : K → option A) (k : K).

Lemma settle_ext w w' l :
  (∀ k, w k = w' k) →
  Keyed.settle key merge w l = Keyed.settle key merge w' l.
Proof.
  revert w w'. induction l as [|x l IH]; intros w w' Hw; [done|].
  simpl. rewrite (Hw (key x)). f_equal. apply IH.
  intros k. unfold Keyed.clear. by rewrite Hw.
Qed.

Lemma settle_none l : Keyed.settle key merge (λ _, None) l = l.
Proof.
  induction l as [|x l IH]; [done|]. simpl. f_equal.
  rewrite <-IH at 2. apply settle_ext. intros k. unfold Keyed.clear.
  by destruct (decide _).
Qed.

Lemma first_upsert k l a :
  Keyed.first key k (Keyed.upsert key merge l a)
  = if decide (k = key a)
    then Some (match Keyed.first key k l with
               | Some x => merge x a
               | None => a
               end)
    else Keyed.first key k l.
Proof.
  induction l as [|x l IH]; simpl.
  - destruct (decide (k = key a)) as [->|Hne].
    + by rewrite decide_True.
    + by rewrite decide_False.
  - destruct (decide (key x = key a)) as [Heq|Hne]; simpl.
    + rewrite merge_key by done.
      destruct (decide (k = key a)) as [->|Hk].
      * by rewrite !decide_True.
      * by rewrite !decide_False by congruence.
    + destruct (decide (key x = k)) as [<-|Hk].
      * by rewrite decide_False.
      * apply IH.
Qed.

(** A write under a key the list holds, followed by the writes [w], is
    the writes [w] in front of which that write was put. *)
Lemma settle_upsert w l a :
  is_Some (Keyed.first key (key a) l) →
  Keyed.settle key merge w (Keyed.upsert key merge l a)
  = Keyed.settle key merge (Keyed.over key w a) l.
Proof.
  revert w. induction l as [|x l IH]; intros w Hsome.
  { by destruct Hsome. }
  simpl in *. destruct (decide (key x = key a)) as [Heq|Hne]; simpl.
  - rewrite merge_key by done. unfold Keyed.over at 1.
    rewrite decide_True by done. rewrite Heq.
    f_equal.
    + destruct (w (key a)); simpl; [apply merge_absorb|done].
    + apply settle_ext. intros k. unfold Keyed.clear, Keyed.over.
      destruct (decide (k = key a)); [done|]. done.
  - unfold Keyed.over at 1. rewrite decide_False by done. f_equal.
    rewrite IH by done. apply settle_ext. intros k.
    unfold Keyed.clear, Keyed.over.
    destruct (decide (k = key a)) as [->|Hk]; [|done].
    destruct (decide (key a = key x)); [congruence|done].
Qed.

Lemma first_foldl_upsert_Some k ops l :
  is_Some (Keyed.first key k l) →
  is_Some (Keyed.first key k (foldl (Keyed.upsert key merge) l ops)).
Proof.
  revert l. induction ops as [|a ops IH]; intros l Hl; [done|].
  cbn [foldl]. apply IH. rewrite first_upsert.
  destruct (decide (k = key a)); [eauto|done].
Qed.

(** Writes under keys the list holds, one after the other. *)
Lemma foldl_upsert_settle w ops l :
  (∀ a, a ∈ ops → is_Some (Keyed.first key (key a) l)) →
  Keyed.settle key merge w (foldl (Keyed.upsert key merge) l ops)
  = Keyed.settle key merge (Keyed.writers key w ops) l.
Proof.
  revert l. induction ops as [|a ops IH]; intros l Hkeys; [done|].
  cbn [foldl Keyed.writers]. rewrite IH.
  - apply settle_upsert. apply Hkeys, elem_of_cons. by left.
  - intros b Hb. rewrite first_upsert.
    destruct (decide (key b = key a)); [eauto|].
    apply Hkeys, elem_of_cons. by right.
Qed.

Lemma writers_None k ops :
  Keyed.writers key (λ _, None) ops k = None →
  ∀ a, a ∈ ops → key a ≠ k.
Proof.
  induction ops as [|b ops IH]; intros Hw a Ha.
  { by apply elem_of_nil in Ha. }
  simpl in Hw. unfold Keyed.over in Hw.
  destruct (decide (k = key b)) as [->|Hk]; [done|].
  apply elem_of_cons in Ha as [->|Ha]; [congruence|by apply IH].
Qed.

Lemma writers_Some k ops b :
  Keyed.writers key (λ _, None) ops k = Some b →
  ∃ a, a ∈ ops ∧ key a = k.
Proof.
  induction ops as [|c ops IH]; intros Hw; [done|].
  simpl in Hw. unfold Keyed.over in Hw.
  destruct (decide (k = key c)) as [->|Hk].
  - exists c. split; [apply elem_of_cons; by left|done].
  - destruct (IH Hw) as (a & Ha & Hka). exists a.
    split; [apply elem_of_cons; by right|done].
Qed.

Lemma first_foldl_upsert_other k ops l :
  (∀ a, a ∈ ops → key a ≠ k) →
  Keyed.first key k (foldl (Keyed.upsert key merge) l ops)
  = Keyed.first key k l.
Proof.
  revert l. induction ops as [|a ops IH]; intros l Hother; [done|].
  cbn [foldl]. rewrite IH.
  - rewrite first_upsert. rewrite decide_False; [done|].
    intros ->. by apply (Hother a); [apply elem_of_cons; left|].
  - intros b Hb. apply Hother, elem_of_cons. by right.
Qed.

Lemma first_foldl_upsert_in ops l a :
  a ∈ ops →
  is_Some (Keyed.first key (key a) (foldl (Keyed.upsert key merge) l ops)).
Proof.
  revert l. induction ops as [|b ops IH]; intros l Ha.
  { by apply elem_of_nil in Ha. }
  cbn [foldl]. apply elem_of_cons in Ha as [->|Ha]; [|by apply IH].
  apply first_foldl_upsert_Some. rewrite first_upsert.
  rewrite decide_True by done. eauto.
Qed.

(** A write that leaves the first element of its key as it is can be put
    in front of the writes, when none of them is under that key. *)
Lemma settle_over_stable w l a y :
  w (key a) = None → Keyed.first key (key a) l = Some y → merge y a = y →
  Keyed.settle key merge (Keyed.over key w a) l = Keyed.settle key merge w l.
Proof.
  revert w. induction l as [|x l IH]; intros w Hw Hfirst Hstable; [done|].
  simpl in *. destruct (decide (key x = key a)) as [Heq|Hne].
  - injection Hfirst as ->. unfold Keyed.over at 1.
    rewrite decide_True by done. rewrite Heq, Hw. simpl. rewrite Hstable.
    f_equal. apply settle_ext. intros k. unfold Keyed.clear, Keyed.over.
    destruct (decide (k = key a)); done.
  - unfold Keyed.over at 1. rewrite decide_False by done. f_equal.
    rewrite <-(IH (Keyed.clear w (key x))).
    + apply settle_ext. intros k. unfold Keyed.clear, Keyed.over.
      destruct (decide (k = key a)) as [->|Hk]; [|done].
      destruct (decide (key a = key x)); [congruence|done].
    + unfold Keyed.clear. by rewrite decide_False by congruence.
    + done.
    + done.
Qed.

(** The list the writes leave is settled under these writes. *)
Lemma settle_foldl_upsert ops l :
  Keyed.settle key merge (Keyed.writers key (λ _, None) ops)
    (foldl (Keyed.upsert key merge) l ops)
  = foldl (Keyed.upsert key merge) l ops.
Proof.
  revert l. induction ops as [|a ops IH]; intros l.
  { apply settle_none. }
  cbn [foldl Keyed.writers].
  destruct (Keyed.writers key (λ _, None) ops (key a)) as [b|] eqn:Hw.
  - rewrite <-(IH (Keyed.upsert key merge l a)) at 2.
    apply settle_ext. intros k.
    unfold Keyed.over. destruct (decide (k = key a)) as [->|]; [|done].
    by rewrite Hw.
  - rewrite <-(IH (Keyed.upsert key merge l a)) at 2.
    pose proof (first_foldl_upsert_other (key a) ops
                  (Keyed.upsert key merge l a) (writers_None _ _ Hw))
      as Hfirst.
    rewrite first_upsert, decide_True in Hfirst by done.
    eapply settle_over_stable; [done|exact Hfirst|].
    destruct (Keyed.first key (key a) l); [apply merge_absorb|apply merge_self].
Qed.

(** Writing again what was written changes nothing, in whatever order,
    as long as the write that comes last under each key is the same. *)
Lemma foldl_upsert_again ops ops' l :
  (∀ k, Keyed.writers key (λ _, None) ops' k
        = Keyed.writers key (λ _, None) ops k) →
  foldl (Keyed.upsert key merge) (foldl (Keyed.upsert key merge) l ops) ops'
  = foldl (Keyed.upsert key merge) l ops.
Proof.
  intros Hw.
  rewrite <-(settle_none
               (foldl (Keyed.upsert key merge)
                  (foldl (Keyed.upsert key merge) l ops) ops')).
  rewrite foldl_upsert_settle.
  - rewrite (settle_ext _ _ _ Hw). apply settle_foldl_upsert.
  - intros a Ha.
    destruct (Keyed.writers key (λ _, None) ops' (key a)) as [b|] eqn:Hb.
    + rewrite Hw in Hb. apply writers_Some in Hb as (a' & Ha' & <-).
      by apply first_foldl_upsert_in.
    + by destruct (writers_None _ _ Hb a Ha).
Qed.

Lemma writers_ext w w' ops k :
  (∀ k, w k = w' k) →
  Keyed.writers key w ops k = Keyed.writers key w' ops k.
Proof.
  intros Hw. revert k. induction ops as [|a ops IH]; intros k; [apply Hw|].
  simpl. unfold Keyed.over. by rewrite IH.
Qed.

Lemma writers_app w ops1 ops2 k :
  Keyed.writers key w (ops1 ++ ops2) k
  = Keyed.writers key (Keyed.writers key w ops2) ops1 k.
Proof.
  revert k. induction ops1 as [|a ops1 IH]; intros k; [done|].
  simpl. unfold Keyed.over. by rewrite IH.
Qed.

(** Writes under distinct keys may be made in any order. *)
Lemma writers_Permutation w ops ops' k :
  NoDup (key <$> ops) → ops ≡ₚ ops' →
  Keyed.writers key w ops k = Keyed.writers key w ops' k.
Proof.
  intros Hnodup Hperm. revert k.
  induction Hperm as [|a l l' Hperm IH|a b l|l l' l'' H1 IH1 H2 IH2];
    intros k.
  - done.
  - rewrite fmap_cons in Hnodup. apply NoDup_cons in Hnodup as [_ Hnodup].
    simpl. unfold Keyed.over. by rewrite IH.
  - rewrite !fmap_cons in Hnodup.
    apply NoDup_cons in Hnodup as [Hab _].
    assert (key a ≠ key b) as Hne.
    { intros Heq. apply Hab. rewrite Heq. apply elem_of_cons. by left. }
    simpl. unfold Keyed.over.
    destruct (decide (k = key b)) as [->|Hkb]; destruct (decide _);
      try congruence; try done.
    all: by rewrite ?decide_True, ?decide_False by done.
  - rewrite IH1 by done. apply IH2. by rewrite <-H1.
Qed.

End KeyedLists.

(** ** The host-port handler: a pod that is admitted twice *)

Lemma upsert_appendEnvVarIfNotExists (envVars : list Corev1.EnvVar.t)
  (envVar : Corev1.EnvVar.t) :
  Keyed.upsert Corev1.EnvVar.Name Writes.merge_env envVars envVar
  = HostPortHandler.appendEnvVarIfNotExists envVars envVar.
Proof.
  induction envVars as [|x rest IH]; [done|]. simpl. by rewrite IH.
Qed.

Lemma upsert_ports_after (q : Corev1.ContainerPort.t) (v : Z)
  (c : Corev1.Container.t) :
  Keyed.upsert Corev1.ContainerPort.Name Writes.merge_port
    (Corev1.Container.Ports c) (Corev1.ContainerPort.with_HostPort q v)
  = Spec.ports_after q v c.
Proof.
  unfold Spec.ports_after.
  induction (Corev1.Container.Ports c) as [|p rest IH]; [done|].
  simpl. destruct (decide (Corev1.ContainerPort.Name p
                           = Corev1.ContainerPort.Name q)); [done|].
  rewrite IH. by destruct (Spec.port_index _ rest).
Qed.

Lemma foldl_process_port_writes (ordinal : Z)
  (ports : list Corev1.ContainerPort.t) (c : Corev1.Container.t)
  (vars : gmap string string) :
  foldl (HostPortHandler.process_port ordinal) (c, vars) ports
  = (Corev1.Container.with_Ports c
       (foldl (Keyed.upsert Corev1.ContainerPort.Name Writes.merge_port)
          (Corev1.Container.Ports c) (Writes.port_writes ordinal ports)),
     Spec.port_vars ordinal ports vars).
Proof.
  revert c vars. induction ports as [|q ports IH]; intros c vars.
  - by destruct c.
  - cbn [foldl]. rewrite process_port_cases, port_vars_cons.
    unfold Writes.port_writes.
    destruct (Z.leb_spec (Corev1.ContainerPort.HostPort q) 0) as [Hle|Hlt].
    + rewrite filter_cons_False by lia. apply IH.
    + rewrite filter_cons_True by lia. rewrite IH. cbn [fmap list_fmap foldl].
      by rewrite upsert_ports_after.
Qed.

Lemma add_port_vars_upsert (env : list Corev1.EnvVar.t)
  (l : list (string * string)) :
  HostPortHandler.add_port_vars env l
  = foldl (Keyed.upsert Corev1.EnvVar.Name Writes.merge_env) env
      ((λ kv, Corev1.EnvVar.mk kv.1 kv.2 None) <$> l).
Proof.
  unfold HostPortHandler.add_port_vars. revert env.
  induction l as [|kv l IH]; intros env; [done|].
  cbn [foldl fmap list_fmap]. rewrite <-upsert_appendEnvVarIfNotExists.
  apply IH.
Qed.

Section Twice.

Variable ordinal : Z.

Implicit Types (cc : Ports.containerPortsConfig)
  (c : Corev1.Container.t) (vars : gmap string string)
  (range : gmap string string → list (string * string)).

(** One entry of the configuration, on one container. *)
Lemma process_container_after range cc vars c :
  Spec.vars_settled ordinal cc vars →
  (HostPortHandler.process_container range ordinal cc vars c).1
  = Writes.container_after range ordinal [cc] c.
Proof.
  intros Hsettled. unfold HostPortHandler.process_container, Writes.container_after.
  cbn [mbind list_bind]. rewrite !(right_id_L [] (++)).
  destruct (decide (Corev1.Container.Name c = Ports.Name cc)) as [Heq|Hne].
  - rewrite decide_False by (by intros ?).
    rewrite foldl_process_port_writes, Hsettled. cbn [fst].
    unfold Writes.env_writes. cbn [foldl].
    rewrite add_port_vars_upsert, <-upsert_appendEnvVarIfNotExists.
    by destruct c.
  - rewrite decide_True by done. by destruct c.
Qed.

Lemma process_containers_after range cc vars
  (containers : list Corev1.Container.t) :
  Spec.vars_settled ordinal cc vars →
  (HostPortHandler.process_containers range ordinal cc vars containers).1
  = Writes.container_after range ordinal [cc] <$> containers.
Proof.
  revert vars. induction containers as [|c cs IH]; intros vars Hsettled;
    [done|].
  simpl.
  pose proof (process_container_after range cc vars c Hsettled) as Hc.
  pose proof (process_container_settled range ordinal cc vars c Hsettled)
    as Hsettled'.
  destruct (HostPortHandler.process_container range ordinal cc vars c)
    as [c' vars'].
  specialize (IH vars' Hsettled').
  destruct (HostPortHandler.process_containers range ordinal cc vars' cs)
    as [cs' vars''].
  simpl in *. by rewrite Hc, IH.
Qed.

Lemma container_after_nil range c : Writes.container_after range ordinal [] c = c.
Proof. by destruct c. Qed.

Lemma container_after_cons range cc
  (configs : list Ports.containerPortsConfig) c :
  Writes.container_after range ordinal (cc :: configs) c
  = Writes.container_after range ordinal configs
      (Writes.container_after range ordinal [cc] c).
Proof.
  unfold Writes.container_after.
  cbn [mbind list_bind Corev1.Container.Name Corev1.Container.Image
         Corev1.Container.Ports Corev1.Container.Env
         Corev1.Container.VolumeMounts].
  rewrite !(right_id_L [] (++)). by rewrite !foldl_app.
Qed.

Lemma foldl_process_config_after range
  (configs : list Ports.containerPortsConfig)
  (containers : list Corev1.Container.t) :
  foldl (HostPortHandler.process_config range ordinal) containers configs
  = Writes.container_after range ordinal configs <$> containers.
Proof.
  revert containers.
  induction configs as [|cc configs IH]; intros containers.
  - cbn [foldl]. rewrite <-(list_fmap_id containers) at 1.
    apply list_fmap_ext. intros i c _. by rewrite container_after_nil.
  - cbn [foldl]. rewrite IH. unfold HostPortHandler.process_config.
    rewrite process_containers_after by done.
    rewrite <-list_fmap_compose. apply list_fmap_ext.
    intros i c _. unfold compose. symmetry. apply container_after_cons.
Qed.

(** The variables one entry writes bear distinct names. *)
Lemma env_writes_NoDup range cc :
  (∀ m, range m ≡ₚ map_to_list m) →
  NoDup (Corev1.EnvVar.Name <$> Writes.env_writes range ordinal cc).
Proof.
  intros Hrange. unfold Writes.env_writes. rewrite fmap_cons, <-list_fmap_compose.
  apply NoDup_cons. split.
  - intros Hin. apply list_elem_of_fmap in Hin as ([k v] & Hk & Hin).
    simpl in Hk. subst k. rewrite Hrange in Hin.
    apply elem_of_map_to_list in Hin.
    rewrite port_vars_lookup_other, lookup_empty in Hin; [done|].
    intros q _ Heq. by apply (port_var_name_not_PodOrdinal q).
  - change (Corev1.EnvVar.Name ∘ (λ kv : string * string,
                                    Corev1.EnvVar.mk kv.1 kv.2 None))
      with (@fst string string).
    rewrite Hrange. apply NoDup_fst_map_to_list.
Qed.

Lemma env_writes_Permutation range1 range2 cc :
  (∀ m, range1 m ≡ₚ map_to_list m) → (∀ m, range2 m ≡ₚ map_to_list m) →
  Writes.env_writes range1 ordinal cc ≡ₚ Writes.env_writes range2 ordinal cc.
Proof.
  intros H1 H2. unfold Writes.env_writes. by rewrite H1, H2.
Qed.

(** Under each name, the variable written last is the same whatever the
    orders of the visits. *)
Lemma env_writers_range range1 range2
  (configs : list Ports.containerPortsConfig) (name k : string) :
  (∀ m, range1 m ≡ₚ map_to_list m) → (∀ m, range2 m ≡ₚ map_to_list m) →
  Keyed.writers Corev1.EnvVar.Name (λ _, None)
    (configs ≫= λ cc,
       if decide (name = Ports.Name cc)
       then Writes.env_writes range2 ordinal cc else []) k
  = Keyed.writers Corev1.EnvVar.Name (λ _, None)
      (configs ≫= λ cc,
         if decide (name = Ports.Name cc)
         then Writes.env_writes range1 ordinal cc else []) k.
Proof.
  intros H1 H2. revert k.
  induction configs as [|cc configs IH]; intros k; [done|].
  cbn [mbind list_bind]. rewrite !writers_app.
  destruct (decide (name = Ports.Name cc)); [|apply IH].
  rewrite (writers_ext _ _ _ _ k IH).
  apply writers_Permutation.
  - by apply env_writes_NoDup.
  - by apply env_writes_Permutation.
Qed.

Lemma container_after_twice range1 range2
  (configs : list Ports.containerPortsConfig) c :
  (∀ m, range1 m ≡ₚ map_to_list m) → (∀ m, range2 m ≡ₚ map_to_list m) →
  Writes.container_after range2 ordinal configs
    (Writes.container_after range1 ordinal configs c)
  = Writes.container_after range1 ordinal configs c.
Proof.
  intros H1 H2. unfold Writes.container_after.
  cbn [Corev1.Container.Name Corev1.Container.Image Corev1.Container.Ports
         Corev1.Container.Env Corev1.Container.VolumeMounts].
  f_equal.
  - apply foldl_upsert_again.
    + done.
    + done.
    + intros a. apply with_HostPort_HostPort.
    + done.
  - apply foldl_upsert_again.
    + unfold Writes.merge_env. intros x a Heq. done.
    + done.
    + done.
    + intros k. by apply env_writers_range.
Qed.

End Twice.

(** X26.  The webhook is called when a pod is created and when it is updated.
    [Mutate] of the host-port handler, applied to its own result, changes
    nothing: the ports are found where the first call has set or put
    them and are given the same host ports, and the variables are found
    and given the same values.  This holds for every configuration, also
    one that declares a port twice, and whatever the orders in which the
    two calls visit the port variables. *)
Theorem HostPort_Mutate_twice
  (range1 range2 : gmap string string → list (string * string))
  (spec : Corev1.PodSpec.t) (ordinal : Z) (cfg : option any)
  (spec1 : Corev1.PodSpec.t) (err : option error) :
  (∀ m, range1 m ≡ₚ map_to_list m) → (∀ m, range2 m ≡ₚ map_to_list m) →
  HostPortHandler.Mutate range1 spec ordinal cfg = Ret (spec1, err) →
  HostPortHandler.Mutate range2 spec1 ordinal cfg = Ret (spec1, err).
Proof.
  intros H1 H2. unfold HostPortHandler.Mutate.
  destruct cfg as [[m| |]|]; try (by intros [= <- <-]).
  destruct (Annotation.CommonPodQualifier ordinal (Ports.qualifier m))
    as [[|]|msg]; simpl; [| |done].
  - destruct (Ports.cfg m) as [v|]; [|done].
    intros [= <- <-]. f_equal. f_equal.
    cbn [Corev1.PodSpec.with_Containers Corev1.PodSpec.Containers
           Corev1.PodSpec.Volumes].
    f_equal. rewrite !foldl_process_config_after.
    rewrite <-list_fmap_compose. apply list_fmap_ext.
    intros i c _. unfold compose. by apply container_after_twice.
  - by intros [= <- <-].
Qed.

Lemma HostPort_Mutate_twice_witness :
  HostPortHandler.Mutate map_to_list Fixture.portSpecMutated 2
    (Some (portConfigPtr
             {| Ports.qualifier := EmptyString;
                Ports.cfg := Some Fixture.hostPortValue |}))
  = Ret (Fixture.portSpecMutated, None).
Proof.
  refine (HostPort_Mutate_twice map_to_list map_to_list Fixture.testSpec 2 _
            Fixture.portSpecMutated None
            (λ m, reflexivity (map_to_list m))
            (λ m, reflexivity (map_to_list m)) _).
  by vm_compute.
Defined.

(** ** The host-port handler: a port declared more than once *)

Section Declarations.

Implicit Types (l ws : list Corev1.ContainerPort.t)
  (a q : Corev1.ContainerPort.t) (name : string).

Lemma upsert_port_set l a :
  Spec.port_set a (Corev1.ContainerPort.HostPort a) l
    (Keyed.upsert Corev1.ContainerPort.Name Writes.merge_port l a).
Proof.
  pose (c := Corev1.Container.mk EmptyString EmptyString l [] []).
  rewrite <-(with_HostPort_HostPort a) at 3.
  change l with (Corev1.Container.Ports c).
  rewrite upsert_ports_after. apply ports_after_set.
Qed.

Lemma upsert_port_kept l a name :
  Corev1.ContainerPort.Name a ≠ name →
  Spec.port_kept name l
    (Keyed.upsert Corev1.ContainerPort.Name Writes.merge_port l a).
Proof.
  intros Hne.
  pose (c := Corev1.Container.mk EmptyString EmptyString l [] []).
  pose (q := Corev1.ContainerPort.mk name 0 0 EmptyString EmptyString).
  rewrite <-(with_HostPort_HostPort a).
  change l with (Corev1.Container.Ports c).
  rewrite upsert_ports_after.
  by apply (ports_after_kept q).
Qed.

(** A port that has been set is set anew: it keeps its place, and what
    the first write has put there gets the host port of the second. *)
Lemma port_set_set (q1 q2 : Corev1.ContainerPort.t) (e1 e2 : Z)
  (ports1 ports2 ports3 : list Corev1.ContainerPort.t) :
  Corev1.ContainerPort.Name q2 = Corev1.ContainerPort.Name q1 →
  Spec.port_set q1 e1 ports1 ports2 →
  Spec.port_set q2 e2 ports2 ports3 →
  Spec.port_set q1 e2 ports1 ports3.
Proof.
  unfold Spec.port_set. intros -> H1 H2.
  destruct (Spec.port_index (Corev1.ContainerPort.Name q1) ports1) as [j|].
  - destruct H1 as (p & Hp & Hindex & Hj). rewrite Hindex in H2.
    destruct H2 as (p' & Hp' & Hat). exists p. split; [done|].
    rewrite Hj in Hp'. injection Hp' as <-.
    by rewrite with_HostPort_with_HostPort in Hat.
  - destruct H1 as (j & Hlen & Hindex & Hj). rewrite Hindex in H2.
    destruct H2 as (p' & Hp' & Hat). exists j. split; [done|].
    rewrite Hj in Hp'. injection Hp' as <-.
    by rewrite with_HostPort_with_HostPort in Hat.
Qed.

Lemma foldl_upsert_port_kept ws l name :
  (∀ a, a ∈ ws → Corev1.ContainerPort.Name a ≠ name) →
  Spec.port_kept name l
    (foldl (Keyed.upsert Corev1.ContainerPort.Name Writes.merge_port) l ws).
Proof.
  revert l. induction ws as [|a ws IH]; intros l Hws.
  - apply port_kept_refl.
  - simpl. eapply port_kept_trans.
    + apply upsert_port_kept, Hws, elem_of_cons. by left.
    + apply IH. intros b Hb. apply Hws, elem_of_cons. by right.
Qed.

(** The writes of a name, one after the other: the first of them finds
    or puts the port, the last of them gives it its host port. *)
Lemma foldl_upsert_port_set ws l name (w1 wn : Corev1.ContainerPort.t) :
  head (filter (λ a, Corev1.ContainerPort.Name a = name) ws) = Some w1 →
  last (filter (λ a, Corev1.ContainerPort.Name a = name) ws) = Some wn →
  Spec.port_set w1 (Corev1.ContainerPort.HostPort wn) l
    (foldl (Keyed.upsert Corev1.ContainerPort.Name Writes.merge_port) l ws).
Proof.
  revert l w1. induction ws as [|a ws IH]; intros l w1 Hhead Hlast; [done|].
  simpl.
  destruct (decide (Corev1.ContainerPort.Name a = name)) as [Ha|Ha].
  - rewrite filter_cons_True in Hhead, Hlast by done.
    injection Hhead as ->.
    destruct (filter (λ a, Corev1.ContainerPort.Name a = name) ws)
      as [|w ws'] eqn:Hfilter.
    + injection Hlast as ->. eapply port_set_kept.
      * apply upsert_port_set.
      * rewrite Ha. apply foldl_upsert_port_kept. intros b Hb Hname.
        assert (b ∈ filter (λ a, Corev1.ContainerPort.Name a = name) ws)
          as Hin by (by apply list_elem_of_filter).
        rewrite Hfilter in Hin. by apply elem_of_nil in Hin.
    + assert (Corev1.ContainerPort.Name w = name) as Hw.
      { assert (w ∈ filter (λ a, Corev1.ContainerPort.Name a = name) ws)
          as Hin by (rewrite Hfilter; apply elem_of_cons; by left).
        by apply list_elem_of_filter in Hin as [? _]. }
      eapply (port_set_set w1 w).
      * congruence.
      * apply upsert_port_set.
      * apply IH; [done|]. by rewrite last_cons_cons in Hlast.
  - rewrite filter_cons_False in Hhead, Hlast by done.
    eapply port_kept_set.
    + apply upsert_port_kept. intros Heq. apply Ha. rewrite Heq.
      apply head_Some_elem_of in Hhead.
      by apply list_elem_of_filter in Hhead as [? _].
    + by apply IH.
Qed.

Variable ordinal : Z.

(** The writes of a name are those of the declarations of that name. *)
Lemma port_writes_filter (ports : list Corev1.ContainerPort.t) name :
  filter (λ a, Corev1.ContainerPort.Name a = name)
    (Writes.port_writes ordinal ports)
  = (λ q, Corev1.ContainerPort.with_HostPort q
            (Spec.effective_hostPort q ordinal))
    <$> filter (λ q, Corev1.ContainerPort.Name q = name
                     ∧ 0 < Corev1.ContainerPort.HostPort q) ports.
Proof.
  unfold Writes.port_writes. induction ports as [|q ports IH]; [done|].
  destruct (decide (0 < Corev1.ContainerPort.HostPort q)) as [Hpos|Hpos].
  - rewrite (filter_cons_True (λ q, 0 < Corev1.ContainerPort.HostPort q))
      by done.
    rewrite fmap_cons.
    destruct (decide (Corev1.ContainerPort.Name q = name)) as [Hq|Hq].
    + rewrite !filter_cons_True by done. rewrite fmap_cons. by f_equal.
    + rewrite !filter_cons_False by (by intros [? ?] || done). done.
  - rewrite (filter_cons_False (λ q, 0 < Corev1.ContainerPort.HostPort q))
      by done.
    rewrite filter_cons_False by (by intros [? ?]). done.
Qed.

Lemma writes_declarations (v : Ports.portConfigValue)
  (containerName name : string) :
  filter (λ a, Corev1.ContainerPort.Name a = name)
    (Ports.Containers v ≫= λ cc,
       if decide (containerName = Ports.Name cc)
       then Writes.port_writes ordinal (Ports.Ports cc) else [])
  = (λ q, Corev1.ContainerPort.with_HostPort q
            (Spec.effective_hostPort q ordinal))
    <$> Spec.declarations v containerName name.
Proof.
  unfold Spec.declarations.
  induction (Ports.Containers v) as [|cc configs IH]; [done|].
  rewrite !bind_cons, !filter_app, fmap_app, IH. f_equal.
  destruct (decide (containerName = Ports.Name cc)); [|done].
  apply port_writes_filter.
Qed.

(** The value of a variable is the value of the first variable of its
    name. *)
Lemma env_lookup_first (k : string) (env : list Corev1.EnvVar.t) :
  Spec.env_lookup k env
  = Corev1.EnvVar.Value <$> Keyed.first Corev1.EnvVar.Name k env.
Proof.
  induction env as [|e env IH]; [done|]. simpl.
  by destruct (decide (Corev1.EnvVar.Name e = k)).
Qed.

(** After the writes, the first variable of a name is the variable of
    that name written last, if there is one. *)
Lemma first_foldl_upsert_env (k : string) (ops env : list Corev1.EnvVar.t) :
  Keyed.first Corev1.EnvVar.Name k
    (foldl (Keyed.upsert Corev1.EnvVar.Name Writes.merge_env) env ops)
  = match last (filter (λ e, Corev1.EnvVar.Name e = k) ops) with
    | Some b => Some b
    | None => Keyed.first Corev1.EnvVar.Name k env
    end.
Proof.
  revert env. induction ops as [|a ops IH]; intros env; [done|].
  simpl. rewrite IH, first_upsert by (intros x b Hx; exact (eq_sym Hx)).
  destruct (decide (Corev1.EnvVar.Name a = k)) as [Ha|Ha].
  - rewrite filter_cons_True by done.
    rewrite decide_True by done.
    destruct (filter (λ e, Corev1.EnvVar.Name e = k) ops) as [|b l] eqn:Hf.
    + simpl. unfold Writes.merge_env.
      by destruct (Keyed.first Corev1.EnvVar.Name k env).
    + rewrite last_cons_cons.
      destruct (last (b :: l)) eqn:Hl; [done|]. by apply last_None in Hl.
  - rewrite filter_cons_False by done.
    by rewrite decide_False by done.
Qed.

(** The entries of a key among the entries of a map, in whatever order
    they are visited. *)
Lemma filter_key_range (range : gmap string string → list (string * string))
  (m : gmap string string) (k : string) :
  (∀ m, range m ≡ₚ map_to_list m) →
  filter (λ e, Corev1.EnvVar.Name e = k)
    ((λ kv, Corev1.EnvVar.mk kv.1 kv.2 None) <$> range m)
  = match m !! k with
    | Some v => [Corev1.EnvVar.mk k v None]
    | None => []
    end.
Proof.
  intros Hrange.
  assert (NoDup (range m).*1) as Hnodup.
  { rewrite Hrange. apply NoDup_fst_map_to_list. }
  assert (∀ k' v', (k', v') ∈ range m ↔ m !! k' = Some v') as Hin.
  { intros k' v'. rewrite Hrange. apply elem_of_map_to_list. }
  revert Hnodup Hin. generalize (range m). clear range Hrange.
  intros l. revert m. induction l as [|[k0 v0] l IH]; intros m Hnodup Hin.
  - simpl. destruct (m !! k) as [v|] eqn:Hk; [|done].
    apply Hin in Hk. by apply elem_of_nil in Hk.
  - apply NoDup_cons in Hnodup as [Hk0 Hnodup]. rewrite fmap_cons.
    assert (∀ k' v', (k', v') ∈ l ↔ delete k0 m !! k' = Some v') as Hin'.
    { intros k' v'. rewrite lookup_delete_Some, <-Hin, elem_of_cons.
      split.
      - intros H. split; [|by right]. intros <-. apply Hk0.
        apply list_elem_of_fmap. by exists (k0, v').
      - intros [Hne [[= -> ->]|H]]; done. }
    specialize (IH (delete k0 m) Hnodup Hin').
    destruct (decide (k0 = k)) as [->|Hne].
    + rewrite filter_cons_True by done. rewrite IH, lookup_delete_eq.
      assert (m !! k = Some v0) as -> by (apply Hin, elem_of_cons; by left).
      done.
    + rewrite filter_cons_False by done.
      by rewrite IH, lookup_delete_ne.
Qed.

(** The variable of a port name holds the value of the declaration of
    that name that comes last. *)
Lemma port_vars_lookup_last (ports : list Corev1.ContainerPort.t)
  (vars : gmap string string) name :
  Spec.port_vars ordinal ports vars !! (Ports.PortPrefix +:+ name)
  = match last (filter (λ q, Corev1.ContainerPort.Name q = name
                             ∧ 0 < Corev1.ContainerPort.HostPort q) ports)
    with
    | Some q => Some (Spec.port_var_value q ordinal)
    | None => vars !! (Ports.PortPrefix +:+ name)
    end.
Proof.
  revert vars. induction ports as [|q ports IH]; intros vars; [done|].
  rewrite port_vars_cons, IH.
  destruct (decide (Corev1.ContainerPort.Name q = name
                    ∧ 0 < Corev1.ContainerPort.HostPort q)) as [[Hq Hpos]|Hq].
  - rewrite filter_cons_True by done.
    destruct (filter _ ports) as [|q' l].
    2:{ rewrite last_cons_cons.
        destruct (last (q' :: l)) eqn:Hl; [done|]. by apply last_None in Hl. }
    simpl. rewrite (proj2 (Z.leb_gt _ _)) by done.
    unfold Spec.port_var_name. rewrite Hq. by rewrite lookup_insert_eq.
  - rewrite filter_cons_False by done.
    destruct (last (filter _ ports)); [done|].
    destruct (Z.leb_spec (Corev1.ContainerPort.HostPort q) 0); [done|].
    rewrite lookup_insert_ne; [done|].
    intros Heq. apply Hq. split; [|done].
    apply (port_var_name_inj q
             (Corev1.ContainerPort.mk name 0 0 EmptyString EmptyString)).
    exact Heq.
Qed.

Lemma env_writes_filter
  (range : gmap string string → list (string * string))
  (cc : Ports.containerPortsConfig) name :
  (∀ m, range m ≡ₚ map_to_list m) →
  filter (λ e, Corev1.EnvVar.Name e = Ports.PortPrefix +:+ name)
    (Writes.env_writes range ordinal cc)
  = match last (filter (λ q, Corev1.ContainerPort.Name q = name
                             ∧ 0 < Corev1.ContainerPort.HostPort q)
                  (Ports.Ports cc)) with
    | Some q =>
        [Corev1.EnvVar.mk (Ports.PortPrefix +:+ name)
           (Spec.port_var_value q ordinal) None]
    | None => []
    end.
Proof.
  intros Hrange. unfold Writes.env_writes.
  rewrite filter_cons_False.
  2:{ apply (port_var_name_not_PodOrdinal
               (Corev1.ContainerPort.mk name 0 0 EmptyString EmptyString)). }
  rewrite filter_key_range, port_vars_lookup_last by done.
  rewrite lookup_empty. by destruct (last _).
Qed.

(** The variable of a port name written last holds the value of the
    declaration of that name that comes last. *)
Lemma env_writes_last
  (range : gmap string string → list (string * string))
  (v : Ports.portConfigValue) (containerName name : string) :
  (∀ m, range m ≡ₚ map_to_list m) →
  last (filter (λ e, Corev1.EnvVar.Name e = Ports.PortPrefix +:+ name)
          (Ports.Containers v ≫= λ cc,
             if decide (containerName = Ports.Name cc)
             then Writes.env_writes range ordinal cc else []))
  = (λ q, Corev1.EnvVar.mk (Ports.PortPrefix +:+ name)
            (Spec.port_var_value q ordinal) None)
    <$> last (Spec.declarations v containerName name).
Proof.
  intros Hrange. unfold Spec.declarations.
  induction (Ports.Containers v) as [|cc configs IH]; [done|].
  rewrite !bind_cons, !filter_app, !last_app, IH.
  destruct (last (filter (λ q, Corev1.ContainerPort.Name q = name ∧ _)
                    (configs ≫= _))) as [q|]; simpl; [done|].
  destruct (decide (containerName = Ports.Name cc)); [|done].
  rewrite env_writes_filter by done.
  by destruct (last (filter _ (Ports.Ports cc))).
Qed.

(** [Mutate] on a container for which a port name is declared, once or
    more than once: the first declaration of the name finds the port or
    puts a copy of itself behind the ports, and the last one gives the
    port its host port and the variable its value. *)
Lemma Mutate_declarations
  (range : gmap string string → list (string * string))
  (spec : Corev1.PodSpec.t) (qualifier : string)
  (v : Ports.portConfigValue) (name : string)
  (first_decl last_decl : Corev1.ContainerPort.t) (i : nat)
  (c : Corev1.Container.t) :
  (∀ m, range m ≡ₚ map_to_list m) →
  head (Spec.declarations v (Corev1.Container.Name c) name)
  = Some first_decl →
  last (Spec.declarations v (Corev1.Container.Name c) name)
  = Some last_decl →
  Annotation.CommonPodQualifier ordinal qualifier = Ret true →
  Corev1.PodSpec.Containers spec !! i = Some c →
  ∃ spec' c',
    HostPortHandler.Mutate range spec ordinal
      (Some (portConfigPtr
               {| Ports.qualifier := qualifier; Ports.cfg := Some v |}))
    = Ret (spec', None)
    ∧ Corev1.PodSpec.Containers spec' !! i = Some c'
    ∧ Corev1.ContainerPort.Name first_decl = name
    ∧ Spec.port_set first_decl (Spec.effective_hostPort last_decl ordinal)
        (Corev1.Container.Ports c) (Corev1.Container.Ports c')
    ∧ Spec.env_lookup (Ports.PortPrefix +:+ name) (Corev1.Container.Env c')
      = Some (Spec.port_var_value last_decl ordinal).
Proof.
  intros Hrange Hhead Hlast Hq Hi.
  exists (Corev1.PodSpec.with_Containers spec
            (Writes.container_after range ordinal (Ports.Containers v)
             <$> Corev1.PodSpec.Containers spec)),
    (Writes.container_after range ordinal (Ports.Containers v) c).
  assert (Corev1.ContainerPort.Name first_decl = name) as Hname.
  { apply head_Some_elem_of in Hhead.
    by apply list_elem_of_filter in Hhead as [[? _] _]. }
  split; [|split; [|split; [done|split]]].
  - unfold HostPortHandler.Mutate. cbn [Ports.qualifier Ports.cfg].
    rewrite Hq. cbn [mbind outcome_bind negb].
    by rewrite foldl_process_config_after.
  - cbn [Corev1.PodSpec.with_Containers Corev1.PodSpec.Containers].
    by rewrite list_lookup_fmap, Hi.
  - cbn [Writes.container_after Corev1.Container.Ports].
    pose proof (foldl_upsert_port_set
                  (Ports.Containers v ≫= λ cc,
                     if decide (Corev1.Container.Name c = Ports.Name cc)
                     then Writes.port_writes ordinal (Ports.Ports cc)
                     else [])
                  (Corev1.Container.Ports c) name
                  (Corev1.ContainerPort.with_HostPort first_decl
                     (Spec.effective_hostPort first_decl ordinal))
                  (Corev1.ContainerPort.with_HostPort last_decl
                     (Spec.effective_hostPort last_decl ordinal))) as Hset.
    rewrite writes_declarations, fmap_last, Hlast in Hset.
    destruct (Spec.declarations v (Corev1.Container.Name c) name)
      as [|d l]; [done|].
    injection Hhead as ->. specialize (Hset eq_refl eq_refl).
    unfold Spec.port_set in *.
    cbn [Corev1.ContainerPort.with_HostPort Corev1.ContainerPort.Name
         Corev1.ContainerPort.HostPort] in Hset.
    destruct (Spec.port_index (Corev1.ContainerPort.Name first_decl)
                (Corev1.Container.Ports c)); [done|].
    destruct Hset as (j & Hlen & Hat). exists j. split; [done|].
    by destruct first_decl.
  - cbn [Writes.container_after Corev1.Container.Env].
    rewrite env_lookup_first, first_foldl_upsert_env, env_writes_last by done.
    by rewrite Hlast.
Qed.

End Declarations.

(** C8, as amended.  The configuration declares the port [http] with a
    positive host port for the containers of a name, once or more than
    once, and the declaration that comes last has the host port 30000;
    it may declare other ports and other containers.  The qualifier
    matches the ordinal 2.  In every pod specification and for every
    container of that name, [Mutate] at ordinal 2 succeeds and leaves, at
    the place of that container, a container in which the first port
    named [http] is the one the container had, at the same index and
    with its host port overwritten with 30002, or, when the container
    had no port of that name, a copy of the declaration that comes first
    with the host port 30002, behind the ports the container had; the
    environment variable [PORT_http] of that container has the value
    [30002].  This holds for every order in which the [range] loop visits
    the port variables. *)
Theorem C8_host_port_30002
  (range : gmap string string → list (string * string))
  (spec : Corev1.PodSpec.t) (qualifier : string)
  (v : Ports.portConfigValue)
  (first_decl last_decl : Corev1.ContainerPort.t) (i : nat)
  (container : Corev1.Container.t) :
  (∀ m, range m ≡ₚ map_to_list m) →
  head (Spec.declarations v (Corev1.Container.Name container) "http")
  = Some first_decl →
  last (Spec.declarations v (Corev1.Container.Name container) "http")
  = Some last_decl →
  Corev1.ContainerPort.HostPort last_decl = 30000 →
  Annotation.CommonPodQualifier 2 qualifier = Ret true →
  Corev1.PodSpec.Containers spec !! i = Some container →
  ∃ spec' container',
    HostPortHandler.Mutate range spec 2
      (Some (portConfigPtr
               {| Ports.qualifier := qualifier; Ports.cfg := Some v |}))
    = Ret (spec', None)
    ∧ Corev1.PodSpec.Containers spec' !! i = Some container'
    ∧ match Spec.port_index "http" (Corev1.Container.Ports container) with
      | Some j =>
          ∃ p, Corev1.Container.Ports container !! j = Some p
               ∧ Spec.port_at "http" (Corev1.Container.Ports container') j
                   (Corev1.ContainerPort.with_HostPort p 30002)
      | None =>
          ∃ j, (length (Corev1.Container.Ports container) ≤ j)%nat
               ∧ Spec.port_at "http" (Corev1.Container.Ports container') j
                   (Corev1.ContainerPort.with_HostPort first_decl 30002)
      end
    ∧ Spec.env_lookup "PORT_http" (Corev1.Container.Env container')
      = Some "30002".
Proof.
  intros Hrange Hhead Hlast Hbase Hq Hi.
  destruct (Mutate_declarations 2 range spec qualifier v "http" first_decl
              last_decl i container Hrange Hhead Hlast Hq Hi)
    as (spec' & container' & Hmutate & Hi' & Hname & Hset & Hvar).
  exists spec', container'. split; [done|]. split; [done|].
  unfold Spec.port_set, Spec.port_var_value, Spec.effective_hostPort in *.
  rewrite Hname, Hbase in *. split; [exact Hset|exact Hvar].
Qed.

Lemma C8_host_port_30002_witness :
  (∃ spec' container',
     HostPortHandler.Mutate map_to_list Fixture.webSpec 2
       (Some Fixture.webConfig)
     = Ret (spec', None)
     ∧ Corev1.PodSpec.Containers spec' !! O = Some container'
     ∧ (∃ p, [Fixture.httpPort] !! O = Some p
             ∧ Spec.port_at "http" (Corev1.Container.Ports container') O
                 (Corev1.ContainerPort.with_HostPort p 30002))
     ∧ Spec.env_lookup "PORT_http" (Corev1.Container.Env container')
       = Some "30002")
  ∧ (∃ spec' container',
       HostPortHandler.Mutate map_to_list Fixture.webSpec 2
         (Some (portConfigPtr
                  {| Ports.qualifier := "2-";
                     Ports.cfg := Some Fixture.twiceValueReversed |}))
       = Ret (spec', None)
       ∧ Corev1.PodSpec.Containers spec' !! O = Some container'
       ∧ (∃ p, [Fixture.httpPort] !! O = Some p
               ∧ Spec.port_at "http" (Corev1.Container.Ports container') O
                   (Corev1.ContainerPort.with_HostPort p 30002))
       ∧ Spec.env_lookup "PORT_http" (Corev1.Container.Env container')
         = Some "30002").
Proof.
  split.
  - exact (C8_host_port_30002 map_to_list Fixture.webSpec EmptyString
             Fixture.webValue Fixture.httpPort Fixture.httpPort O
             (Corev1.Container.mk "web" EmptyString [Fixture.httpPort] [] [])
             (λ m, reflexivity (map_to_list m))
             eq_refl eq_refl eq_refl eq_refl eq_refl).
  - exact (C8_host_port_30002 map_to_list Fixture.webSpec "2-"
             Fixture.twiceValueReversed Fixture.httpPort31000
             Fixture.httpPort O
             (Corev1.Container.mk "web" EmptyString [Fixture.httpPort] [] [])
             (λ m, reflexivity (map_to_list m))
             eq_refl eq_refl eq_refl eq_refl eq_refl).
Defined.

(** The claim as stated fails on a configuration that declares the port
    [http] for the container with the host port 30000 and then, once
    more, with the host port 31000: the second declaration finds the
    port the first one has set and overwrites its host port, and the
    variable [PORT_http] is overwritten likewise. *)
Lemma C8_counterexample :
  Spec.declarations Fixture.twiceValue "web" "http"
  = [Fixture.httpPort; Fixture.httpPort31000]
  ∧ Corev1.ContainerPort.HostPort Fixture.httpPort = 30000
  ∧ Annotation.CommonPodQualifier 2 EmptyString = Ret true
  ∧ HostPortHandler.Mutate map_to_list Fixture.webSpec 2
      (Some Fixture.twiceConfig)
    = Ret (Corev1.PodSpec.mk []
             [Corev1.Container.mk "web" EmptyString
                [Corev1.ContainerPort.mk "http" 31002 8080 EmptyString
                   EmptyString]
                [Corev1.EnvVar.mk "POD_ORDINAL" "2" None;
                 Corev1.EnvVar.mk "PORT_http" "31002" None]
                []],
           None).
Proof. repeat split; by vm_compute. Qed.
